(** * Registries and the prefetching data layer of Caffe

    A shallow embedding of
    - include/caffe/layer_factory.hpp   (LayerRegistry and the registration macros)
    - include/caffe/solver_factory.hpp  (SolverRegistry and the registration macros)
    - include/caffe/layers/input_layer.hpp (InputLayer)
    - src/caffe/layers/base_data_layer.cpp (BaseDataLayer,
      BasePrefetchingDataLayer)
    together with the properties the specification states about them. *)

From stdpp Require Import base list strings sorting.
From Stdlib Require Import ZArith Lia.

Set Default Proof Using "Type".

(** ** Common vocabulary *)

(** The numeric element type a class template is instantiated at. *)
Inductive Dtype := Float | Double.

#[global] Instance Dtype_eq_dec : EqDecision Dtype.
Proof. solve_decision. Defined.

(** What a call that may hit a failed glog CHECK produces: a value, or the
    process aborts with the message streamed into the failed check. *)
Inductive Outcome (A : Type) :=
| Ok (a : A)
| Fatal (msg : string).
Arguments Ok {A} a.
Arguments Fatal {A} msg.

(** [CHECK_EQ(a, b) << msg] of glog: passes when the two values are equal and
    aborts the process after logging [msg] otherwise. *)
Definition CHECK_EQ (a b : nat) (msg : string) : Outcome unit :=
  if Nat.eqb a b then Ok tt else Fatal msg.

(** ** std::map<string, V>

    The registries are [std::map<string, Creator>]: keys are unique and
    iteration visits them in increasing order of [std::string::compare],
    which is the byte-wise lexicographic order [String.compare]. The map is
    kept as the list of its entries in iteration order. *)
Module StdMap.
Section Map.
Context {V : Type}.

Definition t := list (string * V).

Definition empty : t := [].

(** [m.find(k)]: the value bound to [k], if any. *)
Fixpoint find (k : string) (m : t) : option V :=
  match m with
  | [] => None
  | (k', v) :: m' => if String.eqb k k' then Some v else find k m'
  end.

(** [m.count(k)]: 1 when [k] is bound and 0 otherwise. *)
Definition count (k : string) (m : t) : nat :=
  match find k m with Some _ => 1 | None => 0 end.

(** [m[k] = v]: rebinds [k] when it is bound, and otherwise inserts the
    entry at its place in key order. *)
Fixpoint assign (k : string) (v : V) (m : t) : t :=
  match m with
  | [] => [(k, v)]
  | (k', v') :: m' =>
      match String.compare k k' with
      | Eq => (k, v) :: m'
      | Lt => (k, v) :: (k', v') :: m'
      | Gt => (k', v') :: assign k v m'
      end
  end.

(** The [first] of every entry from [begin()] to [end()]. *)
Definition keys (m : t) : list string := m.*1.

End Map.
Arguments t : clear implicits.
End StdMap.

(** Strict order of the keys of a [std::map<string, _>]. *)
Definition str_lt (a b : string) : Prop := String.compare a b = Lt.

(** ** The factories *)

Module Factory.
Section Factory.
Context {Param Inst : Type}.

(** A creator is a function pointer. Calling it may construct instances,
    which live on the heap; it returns the address of the one it hands
    back. *)
Definition Creator := Param → list Inst → nat * list Inst.

(** The process state the registry functions of one class template read
    and write: the function-local static [g_registry_] of the float and of
    the double instantiation, the heap of constructed instances,
    [Caffe::root_solver()], and the lines logged at severity INFO.
    [creator_calls] counts the calls made through a registered function
    pointer. *)
Record Process := mkProcess {
  g_registry_f : StdMap.t Creator;
  g_registry_d : StdMap.t Creator;
  heap : list Inst;
  root_solver : bool;
  info_log : list string;
  creator_calls : nat;
}.

(** [Registry()] of the instantiation at [d]. *)
Definition Registry (d : Dtype) (st : Process) : StdMap.t Creator :=
  match d with Float => g_registry_f st | Double => g_registry_d st end.

Definition set_Registry (d : Dtype) (r : StdMap.t Creator) (st : Process)
  : Process :=
  match d with
  | Float => mkProcess r (g_registry_d st) (heap st) (root_solver st)
               (info_log st) (creator_calls st)
  | Double => mkProcess (g_registry_f st) r (heap st) (root_solver st)
               (info_log st) (creator_calls st)
  end.

Definition LOG_INFO (line : string) (st : Process) : Process :=
  mkProcess (g_registry_f st) (g_registry_d st) (heap st) (root_solver st)
    (info_log st ++ [line]) (creator_calls st).

(** [creator(param)]: a call through the function pointer. *)
Definition call (creator : Creator) (param : Param) (st : Process)
  : nat * Process :=
  let '(p, h) := creator param (heap st) in
  (p, mkProcess (g_registry_f st) (g_registry_d st) h (root_solver st)
        (info_log st) (S (creator_calls st))).

(** [new T(...)]: the object is placed at a fresh address. *)
Definition new (obj : Inst) (h : list Inst) : nat * list Inst :=
  (length h, h ++ [obj]).

(** The loop shared by [LayerTypeListString] and [SolverTypeListString]:
    [first] tells whether [iter == types.begin()]. *)
Fixpoint TypeListString_loop (first : bool) (types : list string)
    (str : string) : string :=
  match types with
  | [] => str
  | ty :: rest =>
      let str := if first then str else str +:+ ", " in
      TypeListString_loop false rest (str +:+ ty)
  end.

(** The computations of the registry: they run in a process state and
    either return or abort, leaving the state as it was at the abort. *)
Definition M (A : Type) := Process → Outcome A * Process.

Definition ret {A} (a : A) : M A := fun st => (Ok a, st).

Definition bind {A B} (c : M A) (k : A → M B) : M B :=
  fun st =>
    match c st with
    | (Ok a, st') => k a st'
    | (Fatal msg, st') => (Fatal msg, st')
    end.

End Factory.
Arguments Creator : clear implicits.
Arguments Process : clear implicits.
Arguments M : clear implicits.
End Factory.

Notation "c1 ;; c2" := (Factory.bind c1 (fun _ => c2))
  (at level 100, c2 at level 200, right associativity).

(** *** layer_factory.hpp *)

(** The fields of [LayerParameter] that the code under study reads. *)
Record LayerParameter := mkLayerParameter {
  lp_name : string;          (* param.name() *)
  lp_type : string;          (* param.type() *)
  lp_prefetch : nat;         (* param.data_param().prefetch() *)
}.

(** An instance of a class derived from [Layer<Dtype>], as constructed by
    [new C<Dtype>(param)]. *)
Record Layer := mkLayer {
  layer_class : string;
  layer_dtype : Dtype;
  layer_param_ : LayerParameter;
}.

Module LayerRegistry.

Definition Creator := Factory.Creator LayerParameter Layer.
Definition CreatorRegistry := StdMap.t Creator.
Definition Process := Factory.Process LayerParameter Layer.
Definition Registry : Dtype → Process → CreatorRegistry := Factory.Registry.

Definition AddCreator (d : Dtype) (type : string) (creator : Creator)
  : Factory.M LayerParameter Layer unit :=
  fun st =>
    let registry := Registry d st in
    match CHECK_EQ (StdMap.count type registry) 0
            ("Layer type " +:+ type +:+ " already registered.") with
    | Fatal msg => (Fatal msg, st)
    | Ok _ =>
        (Ok tt, Factory.set_Registry d (StdMap.assign type creator registry) st)
    end.

Definition LayerTypeList (d : Dtype) (st : Process) : list string :=
  StdMap.keys (Registry d st).

Definition LayerTypeListString (d : Dtype) (st : Process) : string :=
  Factory.TypeListString_loop true (LayerTypeList d st) "".

(** After the check [registry[type]] is a bound entry; would it not be,
    [operator[]] would yield a null function pointer, and the call through
    it is given no result here (the branch is dead, see
    [StdMap.count_1_find]). *)
Definition CreateLayer (d : Dtype) (param : LayerParameter)
  : Factory.M LayerParameter Layer nat :=
  fun st =>
    let st := if Factory.root_solver st
              then Factory.LOG_INFO ("Creating layer " +:+ lp_name param) st
              else st in
    let type := lp_type param in
    let registry := Registry d st in
    match CHECK_EQ (StdMap.count type registry) 1
            ("Unknown layer type: " +:+ type +:+ " (known types: "
               +:+ LayerTypeListString d st +:+ ")") with
    | Fatal msg => (Fatal msg, st)
    | Ok _ =>
        match StdMap.find type registry with
        | Some creator =>
            let '(p, st') := Factory.call creator param st in (Ok p, st')
        | None => (Fatal "", st)
        end
    end.

(** The constructor of [LayerRegisterer<Dtype>]. *)
Definition LayerRegisterer (d : Dtype) (type : string) (creator : Creator)
  : Factory.M LayerParameter Layer unit :=
  AddCreator d type creator.

(** [REGISTER_LAYER_CREATOR(type, creator)]: [#type] is the spelling of the
    macro argument, [creator<float>] and [creator<double>] the two
    instantiations of the creator template; the two static registerers are
    initialised in the order of their definitions. *)
Definition REGISTER_LAYER_CREATOR (type : string) (creator : Dtype → Creator)
  : Factory.M LayerParameter Layer unit :=
  LayerRegisterer Float type (creator Float) ;;
  LayerRegisterer Double type (creator Double).

(** [Creator_##type##Layer<Dtype>], the function template that
    [REGISTER_LAYER_CLASS(type)] defines: [type##Layer] pastes the suffix
    onto the macro argument. *)
Definition Creator_Layer (type : string) (d : Dtype) : Creator :=
  fun param h => Factory.new (mkLayer (type +:+ "Layer") d param) h.

Definition REGISTER_LAYER_CLASS (type : string)
  : Factory.M LayerParameter Layer unit :=
  REGISTER_LAYER_CREATOR type (Creator_Layer type).

(** A sequence of registrations, as the static initialisers of the linked
    translation units perform them one after the other. *)
Fixpoint AddCreators (d : Dtype) (calls : list (string * Creator))
  : Factory.M LayerParameter Layer unit :=
  match calls with
  | [] => Factory.ret tt
  | (type, creator) :: rest => AddCreator d type creator ;; AddCreators d rest
  end.

End LayerRegistry.

(** *** solver_factory.hpp *)

Record SolverParameter := mkSolverParameter {
  sp_type : string;          (* param.type() *)
}.

Record Solver := mkSolver {
  solver_class : string;
  solver_dtype : Dtype;
  solver_param_ : SolverParameter;
}.

Module SolverRegistry.

Definition Creator := Factory.Creator SolverParameter Solver.
Definition CreatorRegistry := StdMap.t Creator.
Definition Process := Factory.Process SolverParameter Solver.
Definition Registry : Dtype → Process → CreatorRegistry := Factory.Registry.

Definition AddCreator (d : Dtype) (type : string) (creator : Creator)
  : Factory.M SolverParameter Solver unit :=
  fun st =>
    let registry := Registry d st in
    match CHECK_EQ (StdMap.count type registry) 0
            ("Solver type " +:+ type +:+ " already registered.") with
    | Fatal msg => (Fatal msg, st)
    | Ok _ =>
        (Ok tt, Factory.set_Registry d (StdMap.assign type creator registry) st)
    end.

Definition SolverTypeList (d : Dtype) (st : Process) : list string :=
  StdMap.keys (Registry d st).

Definition SolverTypeListString (d : Dtype) (st : Process) : string :=
  Factory.TypeListString_loop true (SolverTypeList d st) "".

Definition CreateSolver (d : Dtype) (param : SolverParameter)
  : Factory.M SolverParameter Solver nat :=
  fun st =>
    let type := sp_type param in
    let registry := Registry d st in
    match CHECK_EQ (StdMap.count type registry) 1
            ("Unknown solver type: " +:+ type +:+ " (known types: "
               +:+ SolverTypeListString d st +:+ ")") with
    | Fatal msg => (Fatal msg, st)
    | Ok _ =>
        match StdMap.find type registry with
        | Some creator =>
            let '(p, st') := Factory.call creator param st in (Ok p, st')
        | None => (Fatal "", st)
        end
    end.

Definition SolverRegisterer (d : Dtype) (type : string) (creator : Creator)
  : Factory.M SolverParameter Solver unit :=
  AddCreator d type creator.

Definition REGISTER_SOLVER_CREATOR (type : string) (creator : Dtype → Creator)
  : Factory.M SolverParameter Solver unit :=
  SolverRegisterer Float type (creator Float) ;;
  SolverRegisterer Double type (creator Double).

Definition Creator_Solver (type : string) (d : Dtype) : Creator :=
  fun param h => Factory.new (mkSolver (type +:+ "Solver") d param) h.

Definition REGISTER_SOLVER_CLASS (type : string)
  : Factory.M SolverParameter Solver unit :=
  REGISTER_SOLVER_CREATOR type (Creator_Solver type).

Fixpoint AddCreators (d : Dtype) (calls : list (string * Creator))
  : Factory.M SolverParameter Solver unit :=
  match calls with
  | [] => Factory.ret tt
  | (type, creator) :: rest => AddCreator d type creator ;; AddCreators d rest
  end.

End SolverRegistry.

(** ** input_layer.hpp *)

(** What a member function of a layer can read and write: the layer object
    and the blobs its [bottom] and [top] vectors point to. A blob is kept as
    its shape and its values. *)
Record LayerCall := mkLayerCall {
  this_layer : Layer;
  bottom_blobs : list (list nat * list Z);
  top_blobs : list (list nat * list Z);
}.

Module InputLayer.

(** [explicit InputLayer(const LayerParameter& param) : Layer<Dtype>(param)]. *)
Definition InputLayer (d : Dtype) (param : LayerParameter) : Layer :=
  mkLayer "InputLayer" d param.

(** [virtual void Reshape(bottom, top) {}]. *)
Definition Reshape (c : LayerCall) : LayerCall := c.

Definition type : string := "Input".
Definition ExactNumBottomBlobs : Z := 0.
Definition MinTopBlobs : Z := 1.

(** [virtual void Forward_cpu(bottom, top) {}]. *)
Definition Forward_cpu (c : LayerCall) : LayerCall := c.

(** [virtual void Backward_cpu(top, propagate_down, bottom) {}]. *)
Definition Backward_cpu (propagate_down : list bool) (c : LayerCall)
  : LayerCall := c.

End InputLayer.

(** The inverse of the token pasting [type##Layer]: the class name without
    the category suffix at its end, when it ends in it. *)
Fixpoint strip_suffix (suffix s : string) : option string :=
  if String.eqb s suffix then Some ""
  else match s with
       | "" => None
       | String c s' => String c <$> strip_suffix suffix s'
       end.

(** ** base_data_layer.cpp *)

(** A [Blob<Dtype>] of a [Batch]: its shape, the contents of its host
    memory, and the contents of its device memory once a copy was made. *)
Record Blob := mkBlob {
  shape_ : list nat;
  cpu_data : list Z;
  gpu_data : option (list Z);
}.

(** [Batch<Dtype>] has the two members [data_] and [label_]. *)
Record Batch := mkBatch {
  data_ : Blob;
  label_ : Blob;
}.

Inductive Field := data_field | label_field.

Definition field (f : Field) (b : Batch) : Blob :=
  match f with data_field => data_ b | label_field => label_ b end.

Definition set_field (f : Field) (x : Blob) (b : Batch) : Batch :=
  match f with
  | data_field => mkBatch x (label_ b)
  | label_field => mkBatch (data_ b) x
  end.

(** A [Batch*] is the index of the batch in [prefetch_]. A top blob has a
    shape and a data pointer, which after [set_cpu_data] refers to the host
    memory of a member of a batch. *)
Record TopBlob := mkTopBlob {
  top_shape : list nat;
  top_cpu_data : option (nat * Field);
}.

Inductive Exception :=
| thread_interrupted                 (* boost::thread_interrupted *)
| other_exception (what : string).

(** What a call of the pure virtual [load_batch] does: it returns or
    raises, and in both cases it has advanced the state of the subclass and
    written to the batch. *)
Inductive LoadResult (Src : Type) :=
| Loaded (src : Src) (b : Batch)
| Raised (src : Src) (b : Batch) (e : Exception).
Arguments Loaded {Src} src b.
Arguments Raised {Src} src b e.

Inductive Brew := CPU | GPU.

(** What the base classes are compiled and run with: the subclass hooks
    ([Src] is the private state of the subclass, [data_transformer_]
    included), the macros [CPU_ONLY] and [NDEBUG], [Caffe::mode()], and the
    error, if any, of the n-th call of the CUDA runtime. *)
Record Env (Src : Type) := mkEnv {
  new_DataTransformer : Src;
  InitRand : Src → Src;
  DataLayerSetUp_src : Src → Src;
  DataLayerSetUp_top : nat → TopBlob → TopBlob;
  DataLayerSetUp_batch : nat → Batch → Batch;
  load_batch : Src → bool → Batch → LoadResult Src;
  CPU_ONLY : bool;
  NDEBUG : bool;
  mode : Brew;
  cuda_error : nat → option string;
}.
Arguments new_DataTransformer {Src} e.
Arguments InitRand {Src} e.
Arguments DataLayerSetUp_src {Src} e.
Arguments DataLayerSetUp_top {Src} e.
Arguments DataLayerSetUp_batch {Src} e.
Arguments load_batch {Src} e.
Arguments CPU_ONLY {Src} e.
Arguments NDEBUG {Src} e.
Arguments mode {Src} e.
Arguments cuda_error {Src} e.

(** The blocks under [#ifndef CPU_ONLY] guarded by
    [Caffe::mode() == Caffe::GPU]. *)
Definition gpu_enabled {Src} (env : Env Src) : bool :=
  negb (CPU_ONLY env) && match mode env with GPU => true | CPU => false end.

(** Where the prefetch thread stands in [InternalThreadEntry]. *)
Inductive WorkerPc :=
| W_not_started
| W_entry                       (* cudaStreamCreateWithFlags *)
| W_must_stop                   (* while (!must_stop()) *)
| W_pop                         (* prefetch_free_.pop() *)
| W_load_batch (batch : nat)    (* load_batch(batch) *)
| W_push_data (batch : nat)     (* batch->data_...async_gpu_push(stream) *)
| W_push_label (batch : nat)    (* batch->label_...async_gpu_push(stream) *)
| W_synchronize (batch : nat)   (* cudaStreamSynchronize(stream) *)
| W_push_full (batch : nat)     (* prefetch_full_.push(batch) *)
| W_exit                        (* after the try block: cudaStreamDestroy *)
| W_returned
| W_terminated (e : Exception)  (* the exception left InternalThreadEntry *)
| W_aborted.                    (* a CUDA_CHECK failed *)

(** Where the calling thread stands in [Forward_cpu]. *)
Inductive ConsumerPc :=
| C_idle                        (* between two calls *)
| C_pop                         (* prefetch_full_.pop("Waiting for data") *)
| C_top0                        (* top[0]->ReshapeLike, set_cpu_data *)
| C_top1                        (* top[1]->ReshapeLike, set_cpu_data *)
| C_undefined.                  (* top[i] beyond top.size() *)

(** Modelled from the spec: [BlockingQueue] (util/blocking_queue.hpp) is not
    among the sources. [push] appends to the tail and never blocks or
    fails; [pop] removes and returns the head, first in first out, and
    blocks the calling thread while the queue is empty, which is the result
    [None] here. *)
Module BlockingQueue.

Definition t (T : Type) := list T.

Definition push {T} (x : T) (q : t T) : t T := q ++ [x].

Definition pop {T} (q : t T) : option (T * t T) :=
  match q with
  | [] => None
  | x :: q' => Some (x, q')
  end.

End BlockingQueue.
Arguments BlockingQueue.push {T} x q /.
Arguments BlockingQueue.pop {T} !q /.

Inductive Severity := INFO | FATAL.

(** The layer object, its two threads and what they share. [observed] and
    [abandoned] record history: the host data [top[0]] referred to at each
    return of [Forward_cpu], and the batches that were in the local variable
    [batch] of the worker when control left the loop by an exception or an
    abort. *)
Record State (Src : Type) := mkState {
  prefetch_ : list Batch;
  prefetch_free_ : BlockingQueue.t nat;
  prefetch_full_ : BlockingQueue.t nat;
  prefetch_current_ : option nat;
  output_labels_ : bool;
  src_ : Src;
  top : list TopBlob;
  worker : WorkerPc;
  consumer : ConsumerPc;
  interruption_requested : bool;
  stream : list (nat * Field);
  cuda_calls : nat;
  log : list (Severity * string);
  observed : list (list Z);
  abandoned : list nat;
}.
Arguments mkState {Src}.
Arguments prefetch_ {Src} s.
Arguments prefetch_free_ {Src} s.
Arguments prefetch_full_ {Src} s.
Arguments prefetch_current_ {Src} s.
Arguments output_labels_ {Src} s.
Arguments src_ {Src} s.
Arguments top {Src} s.
Arguments worker {Src} s.
Arguments consumer {Src} s.
Arguments interruption_requested {Src} s.
Arguments stream {Src} s.
Arguments cuda_calls {Src} s.
Arguments log {Src} s.
Arguments observed {Src} s.
Arguments abandoned {Src} s.

(** Assignments to one member. *)
Definition set_prefetch_ {Src} (v : list Batch) (s : State Src) : State Src :=
  mkState v (prefetch_free_ s) (prefetch_full_ s) (prefetch_current_ s)
    (output_labels_ s) (src_ s) (top s) (worker s) (consumer s)
    (interruption_requested s) (stream s) (cuda_calls s) (log s) (observed s)
    (abandoned s).
Definition set_prefetch_free_ {Src} (v : list nat) (s : State Src) : State Src :=
  mkState (prefetch_ s) v (prefetch_full_ s) (prefetch_current_ s)
    (output_labels_ s) (src_ s) (top s) (worker s) (consumer s)
    (interruption_requested s) (stream s) (cuda_calls s) (log s) (observed s)
    (abandoned s).
Definition set_prefetch_full_ {Src} (v : list nat) (s : State Src) : State Src :=
  mkState (prefetch_ s) (prefetch_free_ s) v (prefetch_current_ s)
    (output_labels_ s) (src_ s) (top s) (worker s) (consumer s)
    (interruption_requested s) (stream s) (cuda_calls s) (log s) (observed s)
    (abandoned s).
Definition set_prefetch_current_ {Src} (v : option nat) (s : State Src) : State Src :=
  mkState (prefetch_ s) (prefetch_free_ s) (prefetch_full_ s) v
    (output_labels_ s) (src_ s) (top s) (worker s) (consumer s)
    (interruption_requested s) (stream s) (cuda_calls s) (log s) (observed s)
    (abandoned s).
Definition set_output_labels_ {Src} (v : bool) (s : State Src) : State Src :=
  mkState (prefetch_ s) (prefetch_free_ s) (prefetch_full_ s)
    (prefetch_current_ s) v (src_ s) (top s) (worker s) (consumer s)
    (interruption_requested s) (stream s) (cuda_calls s) (log s) (observed s)
    (abandoned s).
Definition set_src_ {Src} (v : Src) (s : State Src) : State Src :=
  mkState (prefetch_ s) (prefetch_free_ s) (prefetch_full_ s)
    (prefetch_current_ s) (output_labels_ s) v (top s) (worker s) (consumer s)
    (interruption_requested s) (stream s) (cuda_calls s) (log s) (observed s)
    (abandoned s).
Definition set_top {Src} (v : list TopBlob) (s : State Src) : State Src :=
  mkState (prefetch_ s) (prefetch_free_ s) (prefetch_full_ s)
    (prefetch_current_ s) (output_labels_ s) (src_ s) v (worker s)
    (consumer s) (interruption_requested s) (stream s) (cuda_calls s) (log s)
    (observed s) (abandoned s).
Definition set_worker {Src} (v : WorkerPc) (s : State Src) : State Src :=
  mkState (prefetch_ s) (prefetch_free_ s) (prefetch_full_ s)
    (prefetch_current_ s) (output_labels_ s) (src_ s) (top s) v (consumer s)
    (interruption_requested s) (stream s) (cuda_calls s) (log s) (observed s)
    (abandoned s).
Definition set_consumer {Src} (v : ConsumerPc) (s : State Src) : State Src :=
  mkState (prefetch_ s) (prefetch_free_ s) (prefetch_full_ s)
    (prefetch_current_ s) (output_labels_ s) (src_ s) (top s) (worker s) v
    (interruption_requested s) (stream s) (cuda_calls s) (log s) (observed s)
    (abandoned s).
Definition set_interruption_requested {Src} (v : bool) (s : State Src) : State Src :=
  mkState (prefetch_ s) (prefetch_free_ s) (prefetch_full_ s)
    (prefetch_current_ s) (output_labels_ s) (src_ s) (top s) (worker s)
    (consumer s) v (stream s) (cuda_calls s) (log s) (observed s)
    (abandoned s).
Definition set_stream {Src} (v : list (nat * Field)) (s : State Src) : State Src :=
  mkState (prefetch_ s) (prefetch_free_ s) (prefetch_full_ s)
    (prefetch_current_ s) (output_labels_ s) (src_ s) (top s) (worker s)
    (consumer s) (interruption_requested s) v (cuda_calls s) (log s)
    (observed s) (abandoned s).
Definition set_cuda_calls {Src} (v : nat) (s : State Src) : State Src :=
  mkState (prefetch_ s) (prefetch_free_ s) (prefetch_full_ s)
    (prefetch_current_ s) (output_labels_ s) (src_ s) (top s) (worker s)
    (consumer s) (interruption_requested s) (stream s) v (log s) (observed s)
    (abandoned s).
Definition set_log {Src} (v : list (Severity * string)) (s : State Src) : State Src :=
  mkState (prefetch_ s) (prefetch_free_ s) (prefetch_full_ s)
    (prefetch_current_ s) (output_labels_ s) (src_ s) (top s) (worker s)
    (consumer s) (interruption_requested s) (stream s) (cuda_calls s) v
    (observed s) (abandoned s).
Definition set_observed {Src} (v : list (list Z)) (s : State Src) : State Src :=
  mkState (prefetch_ s) (prefetch_free_ s) (prefetch_full_ s)
    (prefetch_current_ s) (output_labels_ s) (src_ s) (top s) (worker s)
    (consumer s) (interruption_requested s) (stream s) (cuda_calls s) (log s)
    v (abandoned s).
Definition set_abandoned {Src} (v : list nat) (s : State Src) : State Src :=
  mkState (prefetch_ s) (prefetch_free_ s) (prefetch_full_ s)
    (prefetch_current_ s) (output_labels_ s) (src_ s) (top s) (worker s)
    (consumer s) (interruption_requested s) (stream s) (cuda_calls s) (log s)
    (observed s) v.

Section Pipeline.
Context {Src : Type}.
Variable env : Env Src.

Definition LOG (sev : Severity) (line : string) (s : State Src) : State Src :=
  set_log (log s ++ [(sev, line)]) s.

(** [DLOG(INFO)] is compiled out under [NDEBUG]. *)
Definition DLOG_INFO (line : string) (s : State Src) : State Src :=
  if NDEBUG env then s else LOG INFO line s.

Definition new_Blob : Blob := mkBlob [] [] None.
Definition new_Batch : Batch := mkBatch new_Blob new_Blob.

(** The body of the loop of the constructor at index [i]:
    [prefetch_[i].reset(new Batch<Dtype>())] and
    [prefetch_free_.push(prefetch_[i].get())]. *)
Definition construct_batch (s : State Src) (i : nat) : State Src :=
  let s := set_prefetch_ (<[i := new_Batch]> (prefetch_ s)) s in
  set_prefetch_free_ (BlockingQueue.push i (prefetch_free_ s)) s.

(** The constructor: [prefetch_] gets [param.data_param().prefetch()]
    elements (null pointers, which the loop replaces by new batches; a slot
    holds the value of a new batch from the start here), the two queues
    start empty and [prefetch_current_] null, and the loop runs over the
    indices of [prefetch_]. *)
Definition BasePrefetchingDataLayer (param : LayerParameter) : State Src :=
  let n := lp_prefetch param in
  foldl construct_batch
    (mkState (replicate n new_Batch) [] [] None false
       (new_DataTransformer env) [] W_not_started C_idle false [] 0 [] [] [])
    (seq 0 n).

(** [BaseDataLayer::LayerSetUp]. The hook [DataLayerSetUp] of the subclass
    may reshape the top blobs and the batches and advance its own state. *)
Definition BaseDataLayer_LayerSetUp (top_ : list TopBlob) (s : State Src)
  : State Src :=
  let s := set_output_labels_
             (if Nat.eqb (length top_) 1 then false else true) s in
  let s := set_src_ (InitRand env (new_DataTransformer env)) s in
  let s := set_src_ (DataLayerSetUp_src env (src_ s)) s in
  let s := set_top (imap (DataLayerSetUp_top env) top_) s in
  set_prefetch_ (imap (DataLayerSetUp_batch env) (prefetch_ s)) s.

(** Modelled from the spec: [StartInternalThread] is defined in
    internal_thread.cpp, which is not among the sources; [Start()] spawns
    the background worker, which begins at the entry of
    [InternalThreadEntry] with no cancellation requested. *)
Definition StartInternalThread (s : State Src) : State Src :=
  set_worker W_entry (set_interruption_requested false s).

(** [BasePrefetchingDataLayer::LayerSetUp]. The calls of [mutable_cpu_data]
    and [mutable_gpu_data] allocate the memory of the batches and leave its
    contents as they are. *)
Definition LayerSetUp (top_ : list TopBlob) (s : State Src) : State Src :=
  let s := BaseDataLayer_LayerSetUp top_ s in
  let s := DLOG_INFO "Initializing prefetch" s in
  let s := set_src_ (InitRand env (src_ s)) s in
  let s := StartInternalThread s in
  DLOG_INFO "Prefetch initialized." s.

(** Modelled from the spec: [CUDA_CHECK] is defined in a header that is not
    among the sources; a failed device call is fatal. The call is the
    [cuda_calls]-th one of the run; when it fails the process logs the error
    and aborts, with [held] in the local variable [batch]. *)
Definition CUDA_CHECK (held : list nat) (ok : State Src → State Src)
    (s : State Src) : State Src :=
  let s' := set_cuda_calls (S (cuda_calls s)) s in
  match cuda_error env (cuda_calls s) with
  | None => ok s'
  | Some err =>
      set_worker W_aborted
        (set_abandoned (abandoned s ++ held) (LOG FATAL (" " +:+ err) s'))
  end.

(** Modelled from the spec: [SyncedMemory::async_gpu_push] is not among the
    sources; it starts an asynchronous transfer of the host contents to the
    device on the stream, which is complete once the stream has been
    synchronised. *)
Definition async_gpu_push (p : nat * Field) (s : State Src) : State Src :=
  set_stream (stream s ++ [p]) s.

(** A completed transfer: the device memory of the member holds what its
    host memory holds. *)
Definition transfer (bs : list Batch) (p : nat * Field) : list Batch :=
  alter (λ b, let x := field p.2 b in
              set_field p.2 (mkBlob (shape_ x) (cpu_data x) (Some (cpu_data x))) b)
        p.1 bs.

(** [cudaStreamSynchronize(stream)] returns when every transfer started on
    the stream is complete. *)
Definition cudaStreamSynchronize (s : State Src) : State Src :=
  set_stream [] (set_prefetch_ (foldl transfer (prefetch_ s) (stream s)) s).

(** Modelled from the spec: [must_stop] is defined in internal_thread.cpp,
    which is not among the sources; it reads the cancellation flag. *)
Definition must_stop (s : State Src) : bool := interruption_requested s.

(** One atomic action of the prefetch thread in [InternalThreadEntry]. A
    blocked thread keeps its state; the pop that would block wakes with
    [boost::thread_interrupted] when the teardown has interrupted the
    thread (the specification asks this of the queue: a blocked pop must
    wake when the pipeline is torn down). *)
Definition worker_step (s : State Src) : State Src :=
  match worker s with
  | W_not_started => s
  | W_entry =>
      if gpu_enabled env
      then CUDA_CHECK [] (set_worker W_must_stop) s
      else set_worker W_must_stop s
  | W_must_stop =>
      if must_stop s then set_worker W_exit s else set_worker W_pop s
  | W_pop =>
      match BlockingQueue.pop (prefetch_free_ s) with
      | Some (batch, rest) =>
          set_worker (W_load_batch batch) (set_prefetch_free_ rest s)
      | None =>
          if interruption_requested s
          then set_worker W_exit s      (* catch (boost::thread_interrupted&) *)
          else s
      end
  | W_load_batch batch =>
      match prefetch_ s !! batch with
      | None => s                       (* no such pointer is ever popped *)
      | Some b =>
          match load_batch env (src_ s) (output_labels_ s) b with
          | Loaded src b' =>
              set_worker
                (if gpu_enabled env then W_push_data batch
                 else W_push_full batch)
                (set_src_ src (set_prefetch_ (<[batch := b']> (prefetch_ s)) s))
          | Raised src b' e =>
              set_worker
                (match e with
                 | thread_interrupted => W_exit
                 | other_exception _ => W_terminated e
                 end)
                (set_abandoned (abandoned s ++ [batch])
                   (set_src_ src
                      (set_prefetch_ (<[batch := b']> (prefetch_ s)) s)))
          end
      end
  | W_push_data batch =>
      set_worker
        (if output_labels_ s then W_push_label batch else W_synchronize batch)
        (async_gpu_push (batch, data_field) s)
  | W_push_label batch =>
      set_worker (W_synchronize batch) (async_gpu_push (batch, label_field) s)
  | W_synchronize batch =>
      CUDA_CHECK [batch]
        (λ s, set_worker (W_push_full batch) (cudaStreamSynchronize s)) s
  | W_push_full batch =>
      set_worker W_must_stop
        (set_prefetch_full_ (BlockingQueue.push batch (prefetch_full_ s)) s)
  | W_exit =>
      if gpu_enabled env
      then CUDA_CHECK [] (set_worker W_returned) s
      else set_worker W_returned s
  | W_returned => s
  | W_terminated _ => s
  | W_aborted => s
  end.

(** The host memory a data pointer refers to. *)
Definition host_memory (s : State Src) (p : nat * Field) : list Z :=
  match prefetch_ s !! p.1 with
  | Some b => cpu_data (field p.2 b)
  | None => []
  end.

(** What a reader of [top[i]->cpu_data()] sees. *)
Definition top_data (s : State Src) (i : nat) : option (list Z) :=
  match top s !! i with
  | Some t =>
      match top_cpu_data t with
      | Some p => Some (host_memory s p)
      | None => None
      end
  | None => None
  end.

(** [top[i]->ReshapeLike(prefetch_current_->member)] followed by
    [top[i]->set_cpu_data(prefetch_current_->member.mutable_cpu_data())]. *)
Definition expose (i : nat) (f : Field) (s : State Src) : option (State Src) :=
  match prefetch_current_ s, top s !! i with
  | Some cur, Some _ =>
      match prefetch_ s !! cur with
      | Some b =>
          Some (set_top
                  (<[i := mkTopBlob (shape_ (field f b)) (Some (cur, f))]> (top s))
                  s)
      | None => None
      end
  | _, _ => None
  end.

(** The return of [Forward_cpu]: the caller now reads [top[0]]. *)
Definition Forward_return (s : State Src) : State Src :=
  set_consumer C_idle
    (set_observed (observed s ++ [default [] (top_data s 0)]) s).

(** One atomic action of the calling thread in [Forward_cpu]; at [C_idle]
    the action is the call itself, up to [prefetch_free_.push]. *)
Definition consumer_step (s : State Src) : State Src :=
  match consumer s with
  | C_idle =>
      set_consumer C_pop
        (match prefetch_current_ s with
         | Some cur =>
             set_prefetch_free_ (BlockingQueue.push cur (prefetch_free_ s)) s
         | None => s
         end)
  | C_pop =>
      match BlockingQueue.pop (prefetch_full_ s) with
      | Some (batch, rest) =>
          set_consumer C_top0
            (set_prefetch_current_ (Some batch) (set_prefetch_full_ rest s))
      | None => s
      end
  | C_top0 =>
      match expose 0 data_field s with
      | Some s' =>
          if output_labels_ s' then set_consumer C_top1 s'
          else Forward_return s'
      | None => set_consumer C_undefined s
      end
  | C_top1 =>
      match expose 1 label_field s with
      | Some s' => Forward_return s'
      | None => set_consumer C_undefined s
      end
  | C_undefined => s
  end.

(** Modelled from the spec: [StopInternalThread] is defined in
    internal_thread.cpp, which is not among the sources; [Stop()] signals
    cancellation to the worker. *)
Definition interrupt (s : State Src) : State Src :=
  match worker s with
  | W_not_started => s
  | _ => set_interruption_requested true s
  end.

(** What can happen next: one of the two threads performs an action, or the
    teardown requests the worker to stop. *)
Inductive Event := ev_worker | ev_consumer | ev_interrupt.

(** A failed check aborts the whole process: nothing runs afterwards. An
    exception that leaves [InternalThreadEntry] ends the worker; the
    consumer is left to go on, so that what is proved of every schedule
    holds whether or not the exception takes the process down. *)
Definition step (s : State Src) (ev : Event) : State Src :=
  match worker s with
  | W_aborted => s
  | _ =>
      match ev with
      | ev_worker => worker_step s
      | ev_consumer => consumer_step s
      | ev_interrupt => interrupt s
      end
  end.

Definition run (s : State Src) (sched : list Event) : State Src :=
  foldl step s sched.

(** The layer after its construction from [param] and its set-up with the
    top blobs [top_]. *)
Definition start (param : LayerParameter) (top_ : list TopBlob) : State Src :=
  LayerSetUp top_ (BasePrefetchingDataLayer param).

(** The batch in the local variable [batch] of the worker. *)
Definition filling (s : State Src) : list nat :=
  match worker s with
  | W_load_batch b | W_push_data b | W_push_label b
  | W_synchronize b | W_push_full b => [b]
  | _ => []
  end.

(** The batch the consumer holds: [prefetch_current_], except between the
    [push] that gave it back and the [pop] that replaces it. *)
Definition current (s : State Src) : list nat :=
  match consumer s with
  | C_pop => []
  | _ => option_list (prefetch_current_ s)
  end.

(** The four places of the specification. *)
Definition in_circulation (s : State Src) : nat :=
  length (prefetch_free_ s) + length (prefetch_full_ s)
  + length (filling s) + length (current s).

(** The device holds a copy of the member that equals the host contents. *)
Definition on_device (f : Field) (b : Batch) : Prop :=
  gpu_data (field f b) = Some (cpu_data (field f b)).

Definition device_consistent (s : State Src) (batch : nat) : Prop :=
  ∃ b, prefetch_ s !! batch = Some b
       ∧ on_device data_field b
       ∧ (output_labels_ s = true → on_device label_field b).

End Pipeline.

(** *** A fill function that numbers the batches

    The subclass state is the number of calls of [load_batch] so far; the
    call writes this number as the only value of the data, and of the label
    when labels are output, and never raises. *)
Definition seq_load_batch (k : nat) (output_labels : bool) (b : Batch)
  : LoadResult nat :=
  Loaded (S k)
    (mkBatch (mkBlob [1] [Z.of_nat k] (gpu_data (data_ b)))
       (if output_labels
        then mkBlob [1] [Z.of_nat k] (gpu_data (label_ b))
        else label_ b)).

Definition seq_env (cpu_only ndebug : bool) (m : Brew)
    (cuda : nat → option string) : Env nat :=
  mkEnv nat 0 id id (λ _ t, t) (λ _ b, b) seq_load_batch cpu_only ndebug m cuda.

(** The payloads numbered from 0: what [m] consumer steps should see. *)
Definition payloads (m : nat) : list (list Z) :=
  (λ k, [Z.of_nat k]) <$> seq 0 m.

(** ** Vocabulary of the properties *)

(** A message enumerates names when each of them occurs in it. *)
Definition enumerates (msg : string) (names : list string) : Prop :=
  ∀ name, name ∈ names → ∃ pre post, msg = pre +:+ name +:+ post.

(** A process in which nothing has been registered or constructed yet. *)
Definition fresh_process {Param Inst} (root : bool)
  : Factory.Process Param Inst :=
  Factory.mkProcess [] [] [] root [] 0.

(** Where each batch is: in one of the four places, or left behind by the
    worker. *)
Definition owners {Src} (s : State Src) : list nat :=
  prefetch_free_ s ++ prefetch_full_ s ++ filling s ++ current s
  ++ abandoned s.

(** The worker is past its loop. *)
Definition left_loop (pc : WorkerPc) : bool :=
  match pc with
  | W_exit | W_returned | W_terminated _ | W_aborted => true
  | _ => false
  end.

(** The bookkeeping of the batches of a layer with [n] of them. *)
Definition owned {Src} (n : nat) (s : State Src) : Prop :=
  length (prefetch_ s) = n
  ∧ owners s ≡ₚ seq 0 n
  ∧ (abandoned s = [] ∨ left_loop (worker s) = true)
  ∧ length (abandoned s) ≤ 1
  ∧ match consumer s with
    | C_top0 | C_top1 => is_Some (prefetch_current_ s)
    | _ => True
    end.

(** A fill step that never raises, and a device that never fails. *)
Definition never_raises {Src} (env : Env Src) : Prop :=
  ∀ src labels b, ∃ src' b', load_batch env src labels b = Loaded src' b'.

Definition never_fails {Src} (env : Env Src) : Prop :=
  ∀ n, cuda_error env n = None.

(** A fill step that waits for a record of its source and is woken by the
    interruption of the thread, and one that fails on a broken source. *)
Definition waiting_env : Env unit :=
  mkEnv unit tt id id (λ _ t, t) (λ _ b, b)
    (λ src _ b, Raised src b thread_interrupted) true true CPU (λ _, None).

Definition broken_env : Env unit :=
  mkEnv unit tt id id (λ _ t, t) (λ _ b, b)
    (λ src _ b, Raised src b (other_exception "corrupt record"))
    true true CPU (λ _, None).

(** Two values of a batch with the same host side. *)
Definition same_host (b b' : Batch) : Prop :=
  ∀ f, shape_ (field f b) = shape_ (field f b')
       ∧ cpu_data (field f b) = cpu_data (field f b').

(** The transfers that are pending on the stream at each point of the
    worker, and what holds of the batch that is about to be published and of
    the published ones. *)
Definition stream_inv {Src} (s : State Src) : Prop :=
  match worker s with
  | W_push_label b => stream s = [(b, data_field)] ∧ output_labels_ s = true
  | W_synchronize b =>
      stream s = (b, data_field)
                 :: (if output_labels_ s then [(b, label_field)] else [])
  | W_aborted => ∀ p, p ∈ stream s → p.1 ∈ abandoned s
  | _ => stream s = []
  end.

Definition gpu_inv {Src} (s : State Src) : Prop :=
  stream_inv s
  ∧ (∀ b, b ∈ prefetch_full_ s → device_consistent s b)
  ∧ match worker s with
    | W_push_full b => device_consistent s b
    | _ => True
    end.

(** [top[i]] has the shape of a member of the current batch and refers to
    its host memory. *)
Definition exposed {Src} (i : nat) (f : Field) (s : State Src) : Prop :=
  ∃ cur b, prefetch_current_ s = Some cur
    ∧ prefetch_ s !! cur = Some b
    ∧ top s !! i = Some (mkTopBlob (shape_ (field f b)) (Some (cur, f))).

(** What holds of the top blobs of a layer that was set up with [top0] and
    whose top blobs were [tops] after the set-up. *)
Definition top_inv {Src} (top0 tops : list TopBlob) (s : State Src) : Prop :=
  output_labels_ s = (if Nat.eqb (length top0) 1 then false else true)
  ∧ length (top s) = length top0
  ∧ (∀ i, (if output_labels_ s then 2 else 1) ≤ i → top s !! i = tops !! i)
  ∧ match consumer s with
    | C_idle =>
        prefetch_current_ s = None
        ∨ (exposed 0 data_field s
           ∧ (output_labels_ s = true → exposed 1 label_field s))
    | C_top1 => exposed 0 data_field s ∧ output_labels_ s = true
    | _ => True
    end.


(** The number of batches the consumer has taken from the full queue. *)
Definition popped {Src} (s : State Src) : nat :=
  length (observed s)
  + match consumer s with C_top0 | C_top1 | C_undefined => 1 | _ => 0 end.



(** The batch [prefetch_current_] points at. In a call of [Forward_cpu],
    between the push that gives the batch back and the pop that replaces
    it, the pointer still holds a batch that is in circulation again. *)
Definition pointed {Src} (s : State Src) : list nat :=
  option_list (prefetch_current_ s).

(** The count of the four places when "held by the consumer" is read as
    "[prefetch_current_] is not null". *)
Definition in_circulation_by_pointer {Src} (s : State Src) : nat :=
  length (prefetch_free_ s) + length (prefetch_full_ s)
  + length (filling s) + length (pointed s).

(** The actions in which a batch leaves the four places: the worker has it
    in its local variable [batch] and control leaves the loop, because
    [load_batch] raises or because the check of [cudaStreamSynchronize]
    fails. The checks of [cudaStreamCreateWithFlags] and of
    [cudaStreamDestroy] are made while the worker holds no batch. *)
Definition loses {Src} (env : Env Src) (s : State Src) (ev : Event) : bool :=
  match ev, worker s with
  | ev_worker, W_load_batch batch =>
      match prefetch_ s !! batch with
      | Some b =>
          match load_batch env (src_ s) (output_labels_ s) b with
          | Raised _ _ _ => true
          | Loaded _ _ => false
          end
      | None => false
      end
  | ev_worker, W_synchronize _ =>
      match cuda_error env (cuda_calls s) with
      | Some _ => true
      | None => false
      end
  | _, _ => false
  end.

(** The number of such actions in the run of a schedule from [s]. *)
Fixpoint losses {Src} (env : Env Src) (s : State Src) (sched : list Event)
  : nat :=
  match sched with
  | [] => 0
  | ev :: sched =>
      (if loses env s ev then 1 else 0) + losses env (step env s ev) sched
  end.

(** ** Vocabulary of the further properties *)

(** The worker actions in a schedule. *)
Fixpoint worker_actions (sched : list Event) : nat :=
  match sched with
  | [] => 0
  | ev_worker :: sched => S (worker_actions sched)
  | _ :: sched => worker_actions sched
  end.

(** The worker is out of [InternalThreadEntry]: it has returned, an
    exception has left the function, or a failed check has aborted the
    process. *)
Definition finished (pc : WorkerPc) : bool :=
  match pc with
  | W_returned | W_terminated _ | W_aborted => true
  | _ => false
  end.

(** A bound on the number of actions the worker still performs once the
    teardown has been requested: the rest of the iteration it is in, the
    test of [must_stop], and the statement after the loop. *)
Definition worker_distance (pc : WorkerPc) : nat :=
  match pc with
  | W_returned | W_terminated _ | W_aborted => 0
  | W_exit => 1
  | W_must_stop => 2
  | W_entry | W_push_full _ => 3
  | W_synchronize _ => 4
  | W_push_label _ => 5
  | W_push_data _ => 6
  | W_load_batch _ => 7
  | W_pop => 8
  | W_not_started => 9
  end.

(** The layer at work: no teardown has been requested, the worker is in its
    loop, and the consumer has not read a top blob that is not there. *)
Definition live {Src} (n : nat) (top0 tops : list TopBlob) (s : State Src)
  : Prop :=
  owned n s ∧ top_inv top0 tops s
  ∧ interruption_requested s = false
  ∧ left_loop (worker s) = false
  ∧ worker s ≠ W_not_started
  ∧ consumer s ≠ C_undefined.

(** The actions that remain in a call of [Forward_cpu], and the actions of
    the worker until it publishes a batch. *)
Definition consumer_distance (pc : ConsumerPc) : nat :=
  match pc with
  | C_idle => 4
  | C_pop => 3
  | C_top0 => 2
  | C_top1 => 1
  | C_undefined => 0
  end.

Definition publish_distance (pc : WorkerPc) : nat :=
  match pc with
  | W_entry => 8
  | W_must_stop => 7
  | W_pop => 6
  | W_load_batch _ => 5
  | W_push_data _ => 4
  | W_push_label _ => 3
  | W_synchronize _ => 2
  | W_push_full _ => 1
  | _ => 0
  end.

(** A measure that decreases as the two threads work towards the next
    return of [Forward_cpu]: the worker counts only while the full queue is
    empty. *)
Definition delivery_distance {Src} (s : State Src) : nat :=
  10 * consumer_distance (consumer s)
  + match prefetch_full_ s with
    | [] => publish_distance (worker s)
    | _ => 0
    end.

(** With the numbering fill function, whose state counts its calls: every
    call that has returned is accounted for by a batch the consumer has
    taken, a batch of the full queue, the batch the worker is about to
    publish, or a batch that was left behind. *)
Definition fills_inv (s : State nat) : Prop :=
  src_ s
  = popped s + length (prefetch_full_ s) + length (abandoned s)
    + match worker s with
      | W_push_data _ | W_push_label _ | W_synchronize _ | W_push_full _ => 1
      | _ => 0
      end
  ∧ (consumer s = C_undefined → is_Some (prefetch_current_ s)).

(** * Properties *)

(** ** std::map *)

Section StdMapFacts.
Context {V : Type}.
Implicit Types (m : StdMap.t V) (k : string) (v : V).

Lemma str_compare_refl k : String.compare k k = Eq.
Proof.
  induction k as [|a k IH]; simpl; [done|].
  unfold Ascii.compare. by rewrite N.compare_refl.
Qed.

Lemma str_lt_irrefl k : ¬ str_lt k k.
Proof. unfold str_lt. by rewrite str_compare_refl. Qed.

Lemma str_lt_le a b : str_lt a b → String.le a b.
Proof. unfold str_lt, String.le, String.leb. by intros ->. Qed.

Lemma str_lt_trans a b c : str_lt a b → str_lt b c → str_lt a c.
Proof.
  intros Hab Hbc.
  assert (String.le a c) as Hac.
  { trans b; by apply str_lt_le. }
  unfold str_lt, String.le, String.leb in *.
  destruct (String.compare a c) eqn:E; [|done..].
  apply String.compare_eq_iff in E as ->.
  rewrite String.compare_antisym, Hab in Hbc. done.
Qed.

Lemma str_compare_Gt a b : String.compare a b = Gt → str_lt b a.
Proof.
  intros H. unfold str_lt. by rewrite String.compare_antisym, H.
Qed.

Lemma find_None_keys k m : StdMap.find k m = None ↔ k ∉ StdMap.keys m.
Proof.
  unfold StdMap.keys. induction m as [|[k' v'] m IH]; simpl.
  - split; [intros _; apply not_elem_of_nil | done].
  - rewrite not_elem_of_cons, <- IH.
    destruct (String.eqb_spec k k'); intuition congruence.
Qed.

Lemma find_Some_keys k m v : StdMap.find k m = Some v → k ∈ StdMap.keys m.
Proof.
  intros H. destruct (decide (k ∈ StdMap.keys m)) as [|Hn]; [done|].
  apply find_None_keys in Hn. congruence.
Qed.

Lemma keys_find k m : k ∈ StdMap.keys m → ∃ v, StdMap.find k m = Some v.
Proof.
  intros H. destruct (StdMap.find k m) eqn:E; [eauto|].
  by apply find_None_keys in E.
Qed.

Lemma count_0_find k m : StdMap.count k m = 0 ↔ StdMap.find k m = None.
Proof. unfold StdMap.count. destruct (StdMap.find k m); naive_solver. Qed.

Lemma count_1_find k m : StdMap.count k m = 1 ↔ is_Some (StdMap.find k m).
Proof.
  unfold StdMap.count. destruct (StdMap.find k m); split;
    (done || eauto || by intros [? ?]).
Qed.

Lemma find_assign_eq k v m : StdMap.find k (StdMap.assign k v m) = Some v.
Proof.
  induction m as [|[k' v'] m IH]; simpl.
  - by rewrite String.eqb_refl.
  - destruct (String.compare k k') eqn:E; simpl.
    + by rewrite String.eqb_refl.
    + by rewrite String.eqb_refl.
    + destruct (String.eqb_spec k k') as [->|]; [|done].
      by rewrite str_compare_refl in E.
Qed.

Lemma find_assign_ne k k' v m :
  k ≠ k' → StdMap.find k' (StdMap.assign k v m) = StdMap.find k' m.
Proof.
  intros Hne. induction m as [|[k0 v0] m IH]; simpl.
  - destruct (String.eqb_spec k' k); congruence.
  - destruct (String.compare k k0) eqn:E; simpl.
    + apply String.compare_eq_iff in E as <-.
      destruct (String.eqb_spec k' k); congruence.
    + destruct (String.eqb_spec k' k); congruence.
    + by rewrite IH.
Qed.

Lemma keys_assign_fresh k v m :
  StdMap.find k m = None →
  StdMap.keys (StdMap.assign k v m) ≡ₚ k :: StdMap.keys m.
Proof.
  unfold StdMap.keys. induction m as [|[k' v'] m IH]; simpl; [done|].
  destruct (String.eqb_spec k k') as [|Hne]; [done|]. intros Hm.
  destruct (String.compare k k') eqn:E; simpl.
  - by apply String.compare_eq_iff in E.
  - done.
  - rewrite IH by done. apply Permutation_swap.
Qed.

Lemma keys_assign_bound k v m :
  Forall (str_lt k) (StdMap.keys m) →
  StdMap.keys (StdMap.assign k v m) = k :: StdMap.keys m.
Proof.
  unfold StdMap.keys. destruct m as [|[k' v'] m]; simpl; [done|].
  intros H. apply Forall_cons_1 in H as [H _]. unfold str_lt in H.
  by rewrite H.
Qed.

(** Inserting a fresh key keeps the iteration order increasing. *)
Lemma keys_assign_sorted k v m :
  StronglySorted str_lt (StdMap.keys m) →
  StronglySorted str_lt (StdMap.keys (StdMap.assign k v m)).
Proof.
  unfold StdMap.keys. induction m as [|[k' v'] m IH]; simpl; intros Hs.
  - repeat constructor.
  - apply StronglySorted_inv in Hs as [Hs Hall].
    destruct (String.compare k k') eqn:E; simpl.
    + apply String.compare_eq_iff in E as ->. by constructor.
    + constructor; [by constructor|].
      constructor; [done|].
      eapply Forall_impl; [done|]. intros x Hx. by eapply str_lt_trans.
    + constructor; [by apply IH|].
      apply str_compare_Gt in E.
      apply Forall_forall. intros x Hx.
      destruct (decide (x = k)) as [->|Hne]; [done|].
      rewrite Forall_forall in Hall. apply Hall.
      apply list_elem_of_fmap in Hx as [[x' w] [-> Hx]]. simpl in *.
      apply list_elem_of_fmap.
      clear -Hx Hne. induction m as [|[k0 v0] m IHm]; simpl in *.
      * apply list_elem_of_singleton in Hx. naive_solver.
      * destruct (String.compare k k0) eqn:E; simpl in *.
        -- apply String.compare_eq_iff in E as ->.
           apply elem_of_cons in Hx as [?|?]; [naive_solver|].
           exists (x', w). split; [done|]. by right.
        -- apply elem_of_cons in Hx as [?|?]; [naive_solver|].
           by exists (x', w).
        -- apply elem_of_cons in Hx as [?|?].
           ++ exists (x', w). split; [done|]. rewrite H. by left.
           ++ destruct (IHm H) as [y [? ?]]. exists y. split; [done|].
              by right.
Qed.

End StdMapFacts.

(** ** Strings *)

Lemma str_app_cons (x : Ascii.ascii) (a b : string) :
  String x a +:+ b = String x (a +:+ b).
Proof. reflexivity. Qed.

Lemma str_app_assoc (a b c : string) : (a +:+ b) +:+ c = a +:+ b +:+ c.
Proof.
  induction a as [|x a IH]; [done|]. by rewrite !str_app_cons, IH.
Qed.

Lemma str_app_nil_r (a : string) : a +:+ "" = a.
Proof. induction a as [|x a IH]; [done|]. by rewrite str_app_cons, IH. Qed.

Lemma str_app_length (a b : string) :
  String.length (a +:+ b) = String.length a + String.length b.
Proof.
  induction a as [|x a IH]; [done|]. rewrite str_app_cons. simpl.
  by rewrite IH.
Qed.

Lemma concat_cons_app (sep a b : string) (l : list string) :
  String.concat sep ((a +:+ b) :: l) = a +:+ String.concat sep (b :: l).
Proof. destruct l; simpl; [done|]. by rewrite str_app_assoc. Qed.

Lemma TypeListString_loop_false (types : list string) (str : string) :
  Factory.TypeListString_loop false types str
  = String.concat ", " (str :: types).
Proof.
  revert str. induction types as [|ty types IH]; intros str; [done|].
  cbn [Factory.TypeListString_loop]. rewrite IH, concat_cons_app.
  by rewrite str_app_assoc.
Qed.

(** The loop builds the names separated by a comma and a space. *)
Lemma TypeListString_loop_concat (types : list string) :
  Factory.TypeListString_loop true types "" = String.concat ", " types.
Proof.
  destruct types as [|ty types]; [done|].
  cbn [Factory.TypeListString_loop]. by rewrite TypeListString_loop_false.
Qed.

Lemma concat_enumerates (sep : string) (names : list string) :
  enumerates (String.concat sep names) names.
Proof.
  induction names as [|x xs IH]; intros name Hin.
  - by apply elem_of_nil in Hin.
  - apply elem_of_cons in Hin as [->|Hin].
    + destruct xs; simpl.
      * exists "", "". by rewrite str_app_nil_r.
      * by exists "", (sep +:+ String.concat sep (s :: xs)).
    + destruct (IH _ Hin) as (pre & post & E).
      destruct xs as [|y ys]; [by apply elem_of_nil in Hin|].
      exists (x +:+ sep +:+ pre), post.
      change (String.concat sep (x :: y :: ys))
        with (x +:+ sep +:+ String.concat sep (y :: ys)).
      by rewrite E, !str_app_assoc.
Qed.

Lemma enumerates_wrap (a b msg : string) (names : list string) :
  enumerates msg names → enumerates (a +:+ msg +:+ b) names.
Proof.
  intros H name Hin. destruct (H _ Hin) as (pre & post & ->).
  exists (a +:+ pre), (post +:+ b). by rewrite !str_app_assoc.
Qed.

Lemma strip_suffix_app (suffix type : string) :
  strip_suffix suffix (type +:+ suffix) = Some type.
Proof.
  induction type as [|c type IH].
  - change ("" +:+ suffix) with suffix.
    destruct suffix; [done|]. cbn [strip_suffix]. by rewrite String.eqb_refl.
  - rewrite str_app_cons. cbn [strip_suffix].
    destruct (String.eqb_spec (String c (type +:+ suffix)) suffix) as [E|_].
    + apply (f_equal String.length) in E. simpl in E.
      rewrite str_app_length in E. lia.
    + by rewrite IH.
Qed.

(** ** The registries *)

Section RegistryFacts.
Context {Param Inst : Type}.
Implicit Types (st : Factory.Process Param Inst) (d : Dtype) (type : string).
Implicit Types (creator : Factory.Creator Param Inst).

Lemma Registry_set_same d r st :
  Factory.Registry d (Factory.set_Registry d r st) = r.
Proof. by destruct d. Qed.

Lemma Registry_set_other d d' r st :
  d ≠ d' → Factory.Registry d' (Factory.set_Registry d r st)
           = Factory.Registry d' st.
Proof. by destruct d, d'. Qed.

(** What [LayerRegistry] and [SolverRegistry] have in common: the shape of
    [AddCreator], up to the message of its check. *)
Variable duplicate_msg : string → string.
Variable AddCreator
  : Dtype → string → Factory.Creator Param Inst → Factory.M Param Inst unit.
Hypothesis AddCreator_unfold : ∀ d type creator st,
  AddCreator d type creator st =
  match CHECK_EQ (StdMap.count type (Factory.Registry d st)) 0
          (duplicate_msg type) with
  | Fatal msg => (Fatal msg, st)
  | Ok _ => (Ok tt, Factory.set_Registry d
                      (StdMap.assign type creator (Factory.Registry d st)) st)
  end.
Variable AddCreators
  : Dtype → list (string * Factory.Creator Param Inst)
    → Factory.M Param Inst unit.
Hypothesis AddCreators_nil : ∀ d st, AddCreators d [] st = (Ok tt, st).
Hypothesis AddCreators_cons : ∀ d type creator rest st,
  AddCreators d ((type, creator) :: rest) st =
  match AddCreator d type creator st with
  | (Ok _, st') => AddCreators d rest st'
  | (Fatal msg, st') => (Fatal msg, st')
  end.

Lemma AddCreator_present d type creator st :
  type ∈ StdMap.keys (Factory.Registry d st) →
  AddCreator d type creator st = (Fatal (duplicate_msg type), st).
Proof using AddCreator_unfold.
  intros [v Hv]%keys_find. rewrite AddCreator_unfold.
  unfold StdMap.count. by rewrite Hv.
Qed.

Lemma AddCreator_absent d type creator st :
  StdMap.find type (Factory.Registry d st) = None →
  AddCreator d type creator st
  = (Ok tt, Factory.set_Registry d
              (StdMap.assign type creator (Factory.Registry d st)) st).
Proof using AddCreator_unfold.
  intros Hv. rewrite AddCreator_unfold. unfold StdMap.count. by rewrite Hv.
Qed.

Lemma AddCreators_distinct d calls st :
  NoDup calls.*1 →
  (∀ type, type ∈ calls.*1 →
           StdMap.find type (Factory.Registry d st) = None) →
  StronglySorted str_lt (StdMap.keys (Factory.Registry d st)) →
  ∃ st', AddCreators d calls st = (Ok tt, st')
    ∧ StdMap.keys (Factory.Registry d st')
      ≡ₚ calls.*1 ++ StdMap.keys (Factory.Registry d st)
    ∧ StronglySorted str_lt (StdMap.keys (Factory.Registry d st'))
    ∧ (∀ type creator, (type, creator) ∈ calls →
         StdMap.find type (Factory.Registry d st') = Some creator)
    ∧ (∀ type, type ∉ calls.*1 →
         StdMap.find type (Factory.Registry d st')
         = StdMap.find type (Factory.Registry d st)).
Proof using AddCreator_unfold AddCreators_nil AddCreators_cons.
  revert st. induction calls as [|[type creator] calls IH]; intros st Hnd Hfresh Hs.
  - exists st. rewrite AddCreators_nil. split_and!; try done.
    intros ?? []%elem_of_nil.
  - rewrite fmap_cons in Hnd. apply NoDup_cons in Hnd as [Hnotin Hnd].
    rewrite AddCreators_cons, AddCreator_absent
      by (apply Hfresh; rewrite fmap_cons; by left).
    set (st1 := Factory.set_Registry d _ st).
    destruct (IH st1) as (st' & Hrun & Hperm & Hsorted & Hbound & Hother).
    + done.
    + intros ty Hty. unfold st1. rewrite Registry_set_same.
      rewrite find_assign_ne by (intros ->; done).
      apply Hfresh. rewrite fmap_cons. by right.
    + unfold st1. rewrite Registry_set_same. by apply keys_assign_sorted.
    + exists st'. split_and!; try done.
      * rewrite Hperm. unfold st1. rewrite Registry_set_same.
        rewrite keys_assign_fresh
          by (apply Hfresh; rewrite fmap_cons; by left).
        rewrite fmap_cons. simpl. by rewrite Permutation_middle.
      * intros ty c [E|Hin]%elem_of_cons.
        -- injection E as -> ->. rewrite Hother by done.
           unfold st1. rewrite Registry_set_same. apply find_assign_eq.
        -- by apply Hbound.
      * intros ty Hty. rewrite fmap_cons in Hty.
        apply not_elem_of_cons in Hty as [Hne Hty].
        rewrite Hother by done. unfold st1. rewrite Registry_set_same.
        by apply find_assign_ne.
Qed.

(** The shape of [CreateLayer] and [CreateSolver]: [prelude] is what the
    function does before it reads the registry. *)
Variable unknown_msg : string → string → string.
Variable param_type : Param → string.
Variable prelude
  : Param → Factory.Process Param Inst → Factory.Process Param Inst.
Variable Create : Dtype → Param → Factory.M Param Inst nat.
Hypothesis Create_unfold : ∀ d param st,
  Create d param st =
  let st := prelude param st in
  match CHECK_EQ (StdMap.count (param_type param) (Factory.Registry d st)) 1
          (unknown_msg (param_type param)
             (Factory.TypeListString_loop true
                (StdMap.keys (Factory.Registry d st)) "")) with
  | Fatal msg => (Fatal msg, st)
  | Ok _ =>
      match StdMap.find (param_type param) (Factory.Registry d st) with
      | Some creator =>
          let '(p, st') := Factory.call creator param st in (Ok p, st')
      | None => (Fatal "", st)
      end
  end.

Lemma Create_unknown d param st :
  StdMap.find (param_type param) (Factory.Registry d (prelude param st))
  = None →
  Create d param st
  = (Fatal (unknown_msg (param_type param)
              (String.concat ", "
                 (StdMap.keys (Factory.Registry d (prelude param st))))),
     prelude param st).
Proof using Create_unfold.
  intros Hv. rewrite Create_unfold. cbv zeta. unfold StdMap.count.
  by rewrite Hv, TypeListString_loop_concat.
Qed.

Lemma Create_known d param st creator :
  StdMap.find (param_type param) (Factory.Registry d (prelude param st))
  = Some creator →
  Create d param st
  = (Ok (creator param (Factory.heap (prelude param st))).1,
     Factory.mkProcess
       (Factory.g_registry_f (prelude param st))
       (Factory.g_registry_d (prelude param st))
       (creator param (Factory.heap (prelude param st))).2
       (Factory.root_solver (prelude param st))
       (Factory.info_log (prelude param st))
       (S (Factory.creator_calls (prelude param st)))).
Proof using Create_unfold.
  intros Hv. rewrite Create_unfold. cbv zeta. unfold StdMap.count.
  rewrite Hv. simpl. unfold Factory.call.
  by destruct (creator param _).
Qed.

End RegistryFacts.

Lemma LayerRegistry_prelude_Registry d (param : LayerParameter)
    (st : LayerRegistry.Process) :
  Factory.Registry d
    (if Factory.root_solver st
     then Factory.LOG_INFO ("Creating layer " +:+ lp_name param) st else st)
  = Factory.Registry d st.
Proof. by destruct (Factory.root_solver st), d. Qed.

(** C3: registering a type name that is already in the registry aborts with
    the message of the duplicate check, in [LayerRegistry] and in
    [SolverRegistry], and the process state at the abort is the state before
    the call: every name is still bound to the creator it was bound to and
    the registered names are the same. *)
Theorem AddCreator_duplicate_is_fatal (d : Dtype) (type : string) :
  (∀ (st : LayerRegistry.Process) (creator : LayerRegistry.Creator),
     type ∈ LayerRegistry.LayerTypeList d st →
     LayerRegistry.AddCreator d type creator st
     = (Fatal ("Layer type " +:+ type +:+ " already registered."), st))
  ∧ (∀ (st : SolverRegistry.Process) (creator : SolverRegistry.Creator),
       type ∈ SolverRegistry.SolverTypeList d st →
       SolverRegistry.AddCreator d type creator st
       = (Fatal ("Solver type " +:+ type +:+ " already registered."), st)).
Proof.
  split; intros st creator Hin.
  - by apply (AddCreator_present
                (λ type, "Layer type " +:+ type +:+ " already registered.")
                LayerRegistry.AddCreator).
  - by apply (AddCreator_present
                (λ type, "Solver type " +:+ type +:+ " already registered.")
                SolverRegistry.AddCreator).
Qed.

(** The scenario of the specification: register "A", then register "A"
    again. *)
Lemma AddCreator_duplicate_is_fatal_witness :
  let c1 := LayerRegistry.Creator_Layer "A" Float in
  let c2 := LayerRegistry.Creator_Layer "B" Float in
  let st := (LayerRegistry.AddCreator Float "A" c1 (fresh_process true)).2 in
  "A" ∈ LayerRegistry.LayerTypeList Float st
  ∧ LayerRegistry.AddCreator Float "A" c2 st
    = (Fatal "Layer type A already registered.", st)
  ∧ LayerRegistry.LayerTypeList Float st = ["A"]
  ∧ StdMap.find "A" (LayerRegistry.Registry Float st) = Some c1.
Proof.
  intros c1 c2 st.
  assert ("A" ∈ LayerRegistry.LayerTypeList Float st) as Hin
    by (vm_compute; left).
  split; [exact Hin|]. split; [|by split].
  exact (proj1 (AddCreator_duplicate_is_fatal Float "A") st c2 Hin).
Defined.

(** C4: when no creator is registered for the type of the parameter,
    [CreateLayer] and [CreateSolver] abort with a message that contains
    every registered type name, without a call through a creator and with
    the heap of constructed instances as it was; when a creator is
    registered, they call it once with the parameter and return the
    instance it produced. *)
Theorem Create_unknown_or_known (d : Dtype) :
  (∀ (param : LayerParameter) (st : LayerRegistry.Process),
     StdMap.find (lp_type param) (LayerRegistry.Registry d st) = None →
     ∃ msg st',
       LayerRegistry.CreateLayer d param st = (Fatal msg, st')
       ∧ msg = "Unknown layer type: " +:+ lp_type param
               +:+ " (known types: "
               +:+ String.concat ", " (LayerRegistry.LayerTypeList d st)
               +:+ ")"
       ∧ enumerates msg (LayerRegistry.LayerTypeList d st)
       ∧ Factory.heap st' = Factory.heap st
       ∧ Factory.creator_calls st' = Factory.creator_calls st)
  ∧ (∀ (param : LayerParameter) (st : LayerRegistry.Process) creator,
       StdMap.find (lp_type param) (LayerRegistry.Registry d st)
       = Some creator →
       ∃ p st',
         LayerRegistry.CreateLayer d param st = (Ok p, st')
         ∧ (p, Factory.heap st') = creator param (Factory.heap st)
         ∧ Factory.creator_calls st' = S (Factory.creator_calls st)
         ∧ ∀ d', LayerRegistry.Registry d' st'
                 = LayerRegistry.Registry d' st)
  ∧ (∀ (param : SolverParameter) (st : SolverRegistry.Process),
       StdMap.find (sp_type param) (SolverRegistry.Registry d st) = None →
       ∃ msg st',
         SolverRegistry.CreateSolver d param st = (Fatal msg, st')
         ∧ msg = "Unknown solver type: " +:+ sp_type param
                 +:+ " (known types: "
                 +:+ String.concat ", " (SolverRegistry.SolverTypeList d st)
                 +:+ ")"
         ∧ enumerates msg (SolverRegistry.SolverTypeList d st)
         ∧ Factory.heap st' = Factory.heap st
         ∧ Factory.creator_calls st' = Factory.creator_calls st)
  ∧ (∀ (param : SolverParameter) (st : SolverRegistry.Process) creator,
       StdMap.find (sp_type param) (SolverRegistry.Registry d st)
       = Some creator →
       ∃ p st',
         SolverRegistry.CreateSolver d param st = (Ok p, st')
         ∧ (p, Factory.heap st') = creator param (Factory.heap st)
         ∧ Factory.creator_calls st' = S (Factory.creator_calls st)
         ∧ ∀ d', SolverRegistry.Registry d' st'
                 = SolverRegistry.Registry d' st).
Proof.
  split_and!.
  - intros param st Hnone.
    pose proof (Create_unknown
      (λ type known, "Unknown layer type: " +:+ type +:+ " (known types: "
                     +:+ known +:+ ")")
      lp_type
      (λ param st, if Factory.root_solver st
                   then Factory.LOG_INFO ("Creating layer " +:+ lp_name param) st
                   else st)
      LayerRegistry.CreateLayer (λ _ _ _, eq_refl) d param st) as H.
    cbv beta in H. rewrite LayerRegistry_prelude_Registry in H.
    eexists _, _. split; [by apply H|]. split_and!.
    + done.
    + rewrite <- (str_app_assoc "Unknown layer type: "),
        <- (str_app_assoc _ " (known types: ").
      apply enumerates_wrap, concat_enumerates.
    + by destruct (Factory.root_solver st).
    + by destruct (Factory.root_solver st).
  - intros param st creator Hsome.
    pose proof (Create_known
      (λ type known, "Unknown layer type: " +:+ type +:+ " (known types: "
                     +:+ known +:+ ")")
      lp_type
      (λ param st, if Factory.root_solver st
                   then Factory.LOG_INFO ("Creating layer " +:+ lp_name param) st
                   else st)
      LayerRegistry.CreateLayer (λ _ _ _, eq_refl) d param st creator) as H.
    cbv beta in H. rewrite LayerRegistry_prelude_Registry in H.
    eexists _, _. split; [by apply H|]. simpl. split_and!.
    + destruct (Factory.root_solver st); simpl; by destruct (creator _ _).
    + by destruct (Factory.root_solver st).
    + intros []; by destruct (Factory.root_solver st).
  - intros param st Hnone.
    pose proof (Create_unknown
      (λ type known, "Unknown solver type: " +:+ type +:+ " (known types: "
                     +:+ known +:+ ")")
      sp_type (λ _ st, st)
      SolverRegistry.CreateSolver (λ _ _ _, eq_refl) d param st) as H.
    eexists _, _. split; [by apply H|]. split_and!; try done.
    rewrite <- (str_app_assoc "Unknown solver type: "),
      <- (str_app_assoc _ " (known types: ").
    apply enumerates_wrap, concat_enumerates.
  - intros param st creator Hsome.
    pose proof (Create_known
      (λ type known, "Unknown solver type: " +:+ type +:+ " (known types: "
                     +:+ known +:+ ")")
      sp_type (λ _ st, st)
      SolverRegistry.CreateSolver (λ _ _ _, eq_refl) d param st creator) as H.
    eexists _, _. split; [by apply H|]. simpl. split_and!.
    + by destruct (creator _ _).
    + done.
    + by intros [].
Qed.

Lemma Create_unknown_or_known_witness :
  let st : LayerRegistry.Process :=
    (LayerRegistry.AddCreators Float
       [("Input", LayerRegistry.Creator_Layer "Input" Float);
        ("Data", LayerRegistry.Creator_Layer "Data" Float)]
       (fresh_process true)).2 in
  let unknown := mkLayerParameter "loss" "Softmax" 0 in
  let known := mkLayerParameter "in" "Input" 0 in
  (StdMap.find "Softmax" (LayerRegistry.Registry Float st) = None
   ∧ ∃ st', LayerRegistry.CreateLayer Float unknown st
            = (Fatal "Unknown layer type: Softmax (known types: Data, Input)",
               st')
            ∧ Factory.heap st' = [])
  ∧ (StdMap.find "Input" (LayerRegistry.Registry Float st)
     = Some (LayerRegistry.Creator_Layer "Input" Float)
     ∧ ∃ st', LayerRegistry.CreateLayer Float known st = (Ok 0, st')
              ∧ Factory.heap st' = [mkLayer "InputLayer" Float known]
              ∧ Factory.creator_calls st' = 1).
Proof.
  intros st unknown known. split.
  - split; [reflexivity|].
    destruct (proj1 (Create_unknown_or_known Float) unknown st eq_refl)
      as (msg & st' & Hrun & Hmsg & _ & Hheap & _).
    exists st'. split; [|exact Hheap]. rewrite Hrun, Hmsg. reflexivity.
  - split; [reflexivity|].
    destruct (proj1 (proj2 (Create_unknown_or_known Float)) known st
                (LayerRegistry.Creator_Layer "Input" Float) eq_refl)
      as (p & st' & Hrun & Hcall & Hcalls & _).
    exists st'. vm_compute in Hcall. injection Hcall as -> Hheap.
    split; [exact Hrun|]. split; [exact Hheap|exact Hcalls].
Defined.

(** C7: after a sequence of registrations with distinct names in a registry
    that was empty, the type list has one entry per registered name and no
    other entry, in the iteration order of the map; each name is bound to
    the creator it was registered with; and the type list string is these
    entries separated by a comma and a space, so it contains each of them. *)
Theorem TypeList_after_distinct_AddCreators (d : Dtype) :
  (∀ (calls : list (string * LayerRegistry.Creator))
     (st : LayerRegistry.Process),
     NoDup calls.*1 →
     LayerRegistry.Registry d st = StdMap.empty →
     ∃ st',
       LayerRegistry.AddCreators d calls st = (Ok tt, st')
       ∧ LayerRegistry.LayerTypeList d st' ≡ₚ calls.*1
       ∧ NoDup (LayerRegistry.LayerTypeList d st')
       ∧ StronglySorted str_lt (LayerRegistry.LayerTypeList d st')
       ∧ (∀ type creator, (type, creator) ∈ calls →
            StdMap.find type (LayerRegistry.Registry d st') = Some creator)
       ∧ LayerRegistry.LayerTypeListString d st'
         = String.concat ", " (LayerRegistry.LayerTypeList d st')
       ∧ enumerates (LayerRegistry.LayerTypeListString d st') calls.*1)
  ∧ (∀ (calls : list (string * SolverRegistry.Creator))
       (st : SolverRegistry.Process),
       NoDup calls.*1 →
       SolverRegistry.Registry d st = StdMap.empty →
       ∃ st',
         SolverRegistry.AddCreators d calls st = (Ok tt, st')
         ∧ SolverRegistry.SolverTypeList d st' ≡ₚ calls.*1
         ∧ NoDup (SolverRegistry.SolverTypeList d st')
         ∧ StronglySorted str_lt (SolverRegistry.SolverTypeList d st')
         ∧ (∀ type creator, (type, creator) ∈ calls →
              StdMap.find type (SolverRegistry.Registry d st') = Some creator)
         ∧ SolverRegistry.SolverTypeListString d st'
           = String.concat ", " (SolverRegistry.SolverTypeList d st')
         ∧ enumerates (SolverRegistry.SolverTypeListString d st') calls.*1).
Proof.
  split; intros calls st Hnd Hempty.
  - destruct (AddCreators_distinct
      (λ type, "Layer type " +:+ type +:+ " already registered.")
      LayerRegistry.AddCreator (λ _ _ _ _, eq_refl)
      LayerRegistry.AddCreators (λ _ _, eq_refl) (λ _ _ _ _ _, eq_refl)
      d calls st Hnd) as (st' & Hrun & Hperm & Hsorted & Hbound & _).
    { intros type _. unfold LayerRegistry.Registry in Hempty.
      by rewrite Hempty. }
    { unfold LayerRegistry.Registry in Hempty. rewrite Hempty. constructor. }
    unfold LayerRegistry.Registry in Hempty.
    rewrite Hempty, app_nil_r in Hperm.
    exists st'. unfold LayerRegistry.LayerTypeListString,
      LayerRegistry.LayerTypeList, LayerRegistry.Registry.
    rewrite TypeListString_loop_concat. split_and!; try done.
    + by rewrite Hperm.
    + intros name Hin. apply concat_enumerates. by rewrite Hperm.
  - destruct (AddCreators_distinct
      (λ type, "Solver type " +:+ type +:+ " already registered.")
      SolverRegistry.AddCreator (λ _ _ _ _, eq_refl)
      SolverRegistry.AddCreators (λ _ _, eq_refl) (λ _ _ _ _ _, eq_refl)
      d calls st Hnd) as (st' & Hrun & Hperm & Hsorted & Hbound & _).
    { intros type _. unfold SolverRegistry.Registry in Hempty.
      by rewrite Hempty. }
    { unfold SolverRegistry.Registry in Hempty. rewrite Hempty. constructor. }
    unfold SolverRegistry.Registry in Hempty.
    rewrite Hempty, app_nil_r in Hperm.
    exists st'. unfold SolverRegistry.SolverTypeListString,
      SolverRegistry.SolverTypeList, SolverRegistry.Registry.
    rewrite TypeListString_loop_concat. split_and!; try done.
    + by rewrite Hperm.
    + intros name Hin. apply concat_enumerates. by rewrite Hperm.
Qed.

Lemma TypeList_after_distinct_AddCreators_witness :
  let calls := [("SGD", SolverRegistry.Creator_Solver "SGD" Double);
                ("Adam", SolverRegistry.Creator_Solver "Adam" Double);
                ("Nesterov", SolverRegistry.Creator_Solver "Nesterov" Double)] in
  NoDup calls.*1
  ∧ ∃ st', SolverRegistry.AddCreators Double calls (fresh_process false)
           = (Ok tt, st')
      ∧ SolverRegistry.SolverTypeList Double st' = ["Adam"; "Nesterov"; "SGD"]
      ∧ SolverRegistry.SolverTypeListString Double st' = "Adam, Nesterov, SGD".
Proof.
  intros calls.
  assert (NoDup calls.*1) as Hnd.
  { apply (bool_decide_unpack _). vm_compute. exact I. }
  split; [exact Hnd|].
  destruct (proj2 (TypeList_after_distinct_AddCreators Double) calls
              (fresh_process false) Hnd eq_refl) as (st' & Hrun & _).
  exists st'. split; [exact Hrun|].
  vm_compute in Hrun. injection Hrun as <-. split; reflexivity.
Defined.

(** C8: in a process where the name [type] is not registered yet,
    [REGISTER_LAYER_CLASS(type)] binds exactly the name [type], in the float
    and in the double registry, to the creator that constructs a new
    instance of the class [type##Layer] from its parameter; [type] is that
    class name without its suffix; and likewise for
    [REGISTER_SOLVER_CLASS(type)] and [type##Solver]. The class [InputLayer],
    whose [type()] is "Input", is the one the creator registered under
    "Input" constructs. *)
Theorem REGISTER_CLASS_registers_bare_name (type : string) :
  (∀ st : LayerRegistry.Process,
     (∀ d, StdMap.find type (LayerRegistry.Registry d st) = None) →
     ∃ st',
       LayerRegistry.REGISTER_LAYER_CLASS type st = (Ok tt, st')
       ∧ ∀ d,
           StdMap.find type (LayerRegistry.Registry d st')
           = Some (LayerRegistry.Creator_Layer type d)
           ∧ LayerRegistry.LayerTypeList d st'
             ≡ₚ type :: LayerRegistry.LayerTypeList d st
           ∧ (∀ other, other ≠ type →
                StdMap.find other (LayerRegistry.Registry d st')
                = StdMap.find other (LayerRegistry.Registry d st)))
  ∧ (∀ st : SolverRegistry.Process,
       (∀ d, StdMap.find type (SolverRegistry.Registry d st) = None) →
       ∃ st',
         SolverRegistry.REGISTER_SOLVER_CLASS type st = (Ok tt, st')
         ∧ ∀ d,
             StdMap.find type (SolverRegistry.Registry d st')
             = Some (SolverRegistry.Creator_Solver type d)
             ∧ SolverRegistry.SolverTypeList d st'
               ≡ₚ type :: SolverRegistry.SolverTypeList d st
             ∧ (∀ other, other ≠ type →
                  StdMap.find other (SolverRegistry.Registry d st')
                  = StdMap.find other (SolverRegistry.Registry d st)))
  ∧ (∀ d param h,
       LayerRegistry.Creator_Layer type d param h
       = (length h, h ++ [mkLayer (type +:+ "Layer") d param]))
  ∧ (∀ d param h,
       SolverRegistry.Creator_Solver type d param h
       = (length h, h ++ [mkSolver (type +:+ "Solver") d param]))
  ∧ strip_suffix "Layer" (type +:+ "Layer") = Some type
  ∧ strip_suffix "Solver" (type +:+ "Solver") = Some type
  ∧ (∀ d param h,
       LayerRegistry.Creator_Layer InputLayer.type d param h
       = Factory.new (InputLayer.InputLayer d param) h).
Proof.
  split_and!.
  - intros st Hfresh. eexists. split.
    + unfold LayerRegistry.REGISTER_LAYER_CLASS,
        LayerRegistry.REGISTER_LAYER_CREATOR, LayerRegistry.LayerRegisterer,
        Factory.bind, LayerRegistry.AddCreator, LayerRegistry.Registry.
      pose proof (Hfresh Float) as Hf. pose proof (Hfresh Double) as Hd.
      unfold LayerRegistry.Registry in Hf, Hd. simpl in Hf, Hd.
      unfold StdMap.count. simpl. rewrite Hf. simpl. rewrite Hd. simpl.
      reflexivity.
    + intros d. pose proof (Hfresh d) as H.
      unfold LayerRegistry.LayerTypeList, LayerRegistry.Registry in *.
      destruct d; simpl in *;
        (split_and!;
         [apply find_assign_eq | by apply keys_assign_fresh
         | intros other Hne; by apply find_assign_ne]).
  - intros st Hfresh. eexists. split.
    + unfold SolverRegistry.REGISTER_SOLVER_CLASS,
        SolverRegistry.REGISTER_SOLVER_CREATOR, SolverRegistry.SolverRegisterer,
        Factory.bind, SolverRegistry.AddCreator, SolverRegistry.Registry.
      pose proof (Hfresh Float) as Hf. pose proof (Hfresh Double) as Hd.
      unfold SolverRegistry.Registry in Hf, Hd. simpl in Hf, Hd.
      unfold StdMap.count. simpl. rewrite Hf. simpl. rewrite Hd. simpl.
      reflexivity.
    + intros d. pose proof (Hfresh d) as H.
      unfold SolverRegistry.SolverTypeList, SolverRegistry.Registry in *.
      destruct d; simpl in *;
        (split_and!;
         [apply find_assign_eq | by apply keys_assign_fresh
         | intros other Hne; by apply find_assign_ne]).
  - done.
  - done.
  - apply strip_suffix_app.
  - apply strip_suffix_app.
  - done.
Qed.

Lemma REGISTER_CLASS_registers_bare_name_witness :
  let st : LayerRegistry.Process := fresh_process true in
  (∀ d, StdMap.find "Input" (LayerRegistry.Registry d st) = None)
  ∧ ∃ st', LayerRegistry.REGISTER_LAYER_CLASS "Input" st = (Ok tt, st')
      ∧ LayerRegistry.LayerTypeList Float st' = ["Input"]
      ∧ LayerRegistry.LayerTypeList Double st' = ["Input"]
      ∧ StdMap.find "Input" (LayerRegistry.Registry Double st')
        = Some (LayerRegistry.Creator_Layer "Input" Double).
Proof.
  intros st.
  assert (∀ d, StdMap.find "Input" (LayerRegistry.Registry d st) = None)
    as Hfresh by (intros []; reflexivity).
  split; [exact Hfresh|].
  destruct (proj1 (REGISTER_CLASS_registers_bare_name "Input") st Hfresh)
    as (st' & Hrun & Hd).
  exists st'. split; [exact Hrun|].
  split; [|split; [|exact (proj1 (Hd Double))]].
  - vm_compute in Hrun. injection Hrun as <-. reflexivity.
  - vm_compute in Hrun. injection Hrun as <-. reflexivity.
Defined.

(** C10: the bodies of [Reshape], [Forward_cpu] and [Backward_cpu] of
    [InputLayer] are empty, so the layer object and every bottom and top
    blob are after the call what they were before it, and the layer asks for
    exactly zero bottom blobs and at least one top blob. *)
Theorem InputLayer_members_are_no_ops (c : LayerCall)
    (propagate_down : list bool) :
  InputLayer.Reshape c = c
  ∧ InputLayer.Forward_cpu c = c
  ∧ InputLayer.Backward_cpu propagate_down c = c
  ∧ InputLayer.ExactNumBottomBlobs = 0%Z
  ∧ InputLayer.MinTopBlobs = 1%Z.
Proof. by split_and!. Qed.

(** ** The prefetching layer *)

Ltac destruct_state s :=
  destruct s as [pf free full cur labels src tops wpc cpc intr strm calls
                 lg obs aband].

Section PipelineBasics.
Context {Src : Type}.
Variable env : Env Src.
Implicit Types (s : State Src) (sched : list Event) (param : LayerParameter).

Lemma run_app s sched1 sched2 :
  run env s (sched1 ++ sched2) = run env (run env s sched1) sched2.
Proof. apply foldl_app. Qed.

Lemma run_snoc s sched ev :
  run env s (sched ++ [ev]) = step env (run env s sched) ev.
Proof. by rewrite run_app. Qed.

(** A property that holds at the start and is kept by every step holds
    after every schedule. *)
Lemma run_invariant (P : State Src → Prop) s sched :
  P s → (∀ s ev, P s → P (step env s ev)) → P (run env s sched).
Proof.
  intros H0 Hstep. revert s H0.
  induction sched as [|ev sched IH]; intros s H0; [done|].
  simpl. apply IH, Hstep, H0.
Qed.

(** The loop of the constructor pushes the indices in order. *)
Lemma construct_batches (s : State Src) (k : nat) :
  foldl construct_batch s (seq 0 k)
  = set_prefetch_free_ (prefetch_free_ s ++ seq 0 k)
      (set_prefetch_ (foldl (λ bs i, <[i := new_Batch]> bs) (prefetch_ s)
                        (seq 0 k)) s).
Proof.
  induction k as [|k IH].
  - simpl. rewrite app_nil_r. by destruct s.
  - rewrite seq_S, !foldl_app, IH. simpl. unfold construct_batch. simpl.
    by rewrite <- app_assoc.
Qed.

Lemma inserts_replicate (n k : nat) :
  foldl (λ bs i, <[i := new_Batch]> bs) (replicate n new_Batch) (seq 0 k)
  = replicate n new_Batch.
Proof.
  induction k as [|k IH]; [done|].
  rewrite seq_S, foldl_app, IH. simpl.
  apply list_eq. intros i. destruct (decide (i = k)) as [->|Hne].
  - destruct (decide (k < n)) as [Hlt|Hge].
    + rewrite list_lookup_insert_eq by (by rewrite length_replicate).
      by rewrite lookup_replicate_2.
    + by rewrite list_insert_ge by (rewrite length_replicate; lia).
  - by rewrite list_lookup_insert_ne.
Qed.

Lemma constructed param :
  prefetch_ (BasePrefetchingDataLayer env param)
  = replicate (lp_prefetch param) new_Batch
  ∧ prefetch_free_ (BasePrefetchingDataLayer env param)
    = seq 0 (lp_prefetch param)
  ∧ prefetch_full_ (BasePrefetchingDataLayer env param) = []
  ∧ prefetch_current_ (BasePrefetchingDataLayer env param) = None
  ∧ observed (BasePrefetchingDataLayer env param) = []
  ∧ abandoned (BasePrefetchingDataLayer env param) = []
  ∧ stream (BasePrefetchingDataLayer env param) = []
  ∧ consumer (BasePrefetchingDataLayer env param) = C_idle.
Proof.
  unfold BasePrefetchingDataLayer. rewrite construct_batches. simpl.
  by rewrite inserts_replicate.
Qed.

(** Set-up does not touch the queues. *)
Lemma start_queues param top_ :
  prefetch_free_ (start env param top_) = seq 0 (lp_prefetch param)
  ∧ prefetch_full_ (start env param top_) = []
  ∧ prefetch_current_ (start env param top_) = None
  ∧ length (prefetch_ (start env param top_)) = lp_prefetch param
  ∧ worker (start env param top_) = W_entry
  ∧ consumer (start env param top_) = C_idle
  ∧ abandoned (start env param top_) = []
  ∧ stream (start env param top_) = []
  ∧ observed (start env param top_) = [].
Proof.
  destruct (constructed param)
    as (Hp & Hfree & Hfull & Hcur & Hobs & Hab & Hs & Hrest).
  unfold start, LayerSetUp, BaseDataLayer_LayerSetUp, DLOG_INFO.
  destruct (NDEBUG env); simpl;
    by rewrite length_imap, Hp, length_replicate.
Qed.

Lemma owned_start param top_ :
  owned (lp_prefetch param) (start env param top_).
Proof.
  destruct (start_queues param top_)
    as (Hfree & Hfull & Hcur & Hlen & Hw & Hc & Hab & _).
  unfold owned, owners, filling, current.
  rewrite Hfree, Hfull, Hcur, Hlen, Hw, Hc, Hab. simpl.
  rewrite app_nil_r. split_and!; auto with lia.
Qed.

Lemma length_transfers (bs : list Batch) (strm : list (nat * Field)) :
  length (foldl transfer bs strm) = length bs.
Proof.
  revert bs. induction strm as [|p strm IH]; intros bs; [done|].
  simpl. rewrite IH. unfold transfer. apply length_alter.
Qed.

Lemma expose_Some i f s s' :
  expose i f s = Some s' →
  ∃ cur b t, prefetch_current_ s = Some cur
    ∧ prefetch_ s !! cur = Some b
    ∧ top s !! i = Some t
    ∧ s' = set_top
             (<[i := mkTopBlob (shape_ (field f b)) (Some (cur, f))]> (top s))
             s.
Proof.
  unfold expose. intros H.
  destruct (prefetch_current_ s) as [cur|] eqn:Hcur; [|done].
  destruct (top s !! i) as [t|] eqn:Ht; [|done].
  destruct (prefetch_ s !! cur) as [b|] eqn:Hb; [|done].
  simplify_eq. by exists cur, b, t.
Qed.

End PipelineBasics.

Ltac case_step :=
  repeat match goal with
  | |- context [BlockingQueue.pop ?q] => destruct q eqn:?; simpl
  | |- context [expose ?i ?f ?s] =>
      let E := fresh "E" in
      destruct (expose i f s) eqn:E;
      [apply expose_Some in E as (? & ? & ? & ? & ? & ? & ->)|];
      simpl in *; simplify_eq
  | |- context [if ?b then _ else _] => destruct b eqn:?; simpl
  | |- context [match ?x with _ => _ end] => destruct x eqn:?; simpl
  end.

Ltac worker_cases env s :=
  repeat match goal with
  | |- context [BlockingQueue.pop (prefetch_free_ s)] =>
      destruct (prefetch_free_ s) eqn:?; simpl
  | |- context [if gpu_enabled env then _ else _] =>
      destruct (gpu_enabled env) eqn:?; try discriminate
  | |- context [match cuda_error env (cuda_calls s) with _ => _ end] =>
      destruct (cuda_error env (cuda_calls s)) eqn:?
  | |- context [if interruption_requested s then _ else _] =>
      destruct (interruption_requested s) eqn:?
  | |- context [match prefetch_free_ s with _ => _ end] =>
      destruct (prefetch_free_ s) eqn:?
  | |- context [match prefetch_ s !! ?b with _ => _ end] =>
      destruct (prefetch_ s !! b) eqn:?
  | |- context [match load_batch env ?a ?b ?c with _ => _ end] =>
      destruct (load_batch env a b c) as [? ?|? ? []] eqn:?
  | |- context [if output_labels_ s then W_push_label _ else _] =>
      destruct (output_labels_ s) eqn:?
  end;
  simpl.

Section PipelineFacts.
Context {Src : Type}.
Variable env : Env Src.
Implicit Types (s : State Src) (sched : list Event) (param : LayerParameter).

Lemma owned_worker_step n s : owned n s → owned n (worker_step env s).
Proof.
  destruct_state s. unfold owned, owners, filling, current, worker_step,
    CUDA_CHECK, must_stop, cudaStreamSynchronize, async_gpu_push, LOG.
  simpl. intros (Hlen & Hperm & Hab & Hab1 & Hc).
  destruct wpc; simpl in *; try (destruct Hab as [->|?]; [|done]);
    case_step; simpl in *; split_and!; auto.
  all: try by (rewrite <- Hperm; solve_Permutation).
  all: try by rewrite length_insert.
  all: try by rewrite app_nil_r.
  all: try by rewrite length_transfers.
Qed.

Lemma owned_consumer_step n s : owned n s → owned n (consumer_step s).
Proof.
  destruct_state s. unfold owned, owners, filling, current, consumer_step,
    Forward_return.
  simpl. intros (Hlen & Hperm & Hab & Hab1 & Hc).
  destruct cpc; simpl in *; case_step; simpl in *; split_and!; auto.
  all: try by (rewrite <- Hperm; solve_Permutation).
Qed.

Lemma owned_interrupt n s : owned n s → owned n (interrupt s).
Proof.
  destruct_state s. unfold owned, owners, filling, current, interrupt.
  simpl. by destruct wpc.
Qed.

Lemma owned_step n s ev : owned n s → owned n (step env s ev).
Proof.
  intros H. unfold step.
  destruct (worker s); try done;
    destruct ev;
    auto using owned_worker_step, owned_consumer_step, owned_interrupt.
Qed.

Lemma owned_run param top_ sched :
  owned (lp_prefetch param) (run env (start env param top_) sched).
Proof.
  apply (run_invariant env); [apply (owned_start env)|].
  intros s ev. apply owned_step.
Qed.

Lemma owned_NoDup n s : owned n s → NoDup (owners s).
Proof. intros (_ & -> & _). apply NoDup_seq. Qed.

Lemma owned_total n s :
  owned n s → in_circulation s + length (abandoned s) = n.
Proof.
  intros (_ & Hperm & _). apply Permutation_length in Hperm.
  unfold owners in Hperm. rewrite !length_app, length_seq in Hperm.
  unfold in_circulation. lia.
Qed.

(** Nothing is abandoned when the fill step never raises and the device
    never fails. *)
Lemma abandoned_step s ev :
  never_raises env → never_fails env →
  abandoned s = [] → abandoned (step env s ev) = [].
Proof.
  intros Hload Hcuda. destruct_state s.
  unfold step, worker_step, consumer_step, interrupt, CUDA_CHECK, must_stop,
    cudaStreamSynchronize, async_gpu_push, LOG, Forward_return.
  simpl. intros ->.
  destruct wpc, ev; simpl; try done;
    rewrite ?Hcuda; simpl; try done;
    try (by case_step).
  destruct (pf !! batch) as [b|]; [|done].
  destruct (Hload src labels b) as (src' & b' & ->). done.
Qed.

(** *** The device copies *)

Lemma same_host_refl b : same_host b b.
Proof. by intros f. Qed.

Lemma same_host_trans b1 b2 b3 :
  same_host b1 b2 → same_host b2 b3 → same_host b1 b3.
Proof.
  intros H12 H23 f. destruct (H12 f) as [-> ->]. apply H23.
Qed.

(** A completed transfer changes the device side of one member of one batch
    and makes it equal to the host side. *)
Lemma transfer_lookup (bs : list Batch) (p : nat * Field) i b :
  bs !! i = Some b →
  ∃ b', transfer bs p !! i = Some b'
    ∧ same_host b b'
    ∧ (∀ f, on_device f b → on_device f b')
    ∧ (p.1 = i → on_device p.2 b').
Proof.
  intros Hb. unfold transfer. destruct (decide (p.1 = i)) as [<-|Hne].
  - rewrite list_lookup_alter_eq, Hb. simpl. eexists. split; [done|].
    destruct p as [j f]; simpl in *.
    split_and!.
    + intros g. by destruct f, g.
    + intros g. unfold on_device. by destruct f, g.
    + intros _. unfold on_device. by destruct f.
  - rewrite list_lookup_alter_ne by done. exists b.
    split_and!; first [done | apply same_host_refl].
Qed.

Lemma transfers_lookup (strm : list (nat * Field)) (bs : list Batch) i b :
  bs !! i = Some b →
  ∃ b', foldl transfer bs strm !! i = Some b'
    ∧ same_host b b'
    ∧ (∀ f, on_device f b → on_device f b')
    ∧ (∀ f, (i, f) ∈ strm → on_device f b').
Proof.
  revert bs b. induction strm as [|p strm IH]; intros bs b Hb.
  - exists b. split_and!; try done. intros f []%elem_of_nil.
  - simpl. destruct (transfer_lookup bs p i b Hb) as (b1 & H1 & Hs1 & Hd1 & Hp1).
    destruct (IH _ _ H1) as (b2 & H2 & Hs2 & Hd2 & Hp2).
    exists b2. split_and!; [done|by eapply same_host_trans|by auto|].
    intros f [<-|Hin]%elem_of_cons; [|by auto].
    apply Hd2. by apply Hp1.
Qed.

Lemma transfers_lookup_None (strm : list (nat * Field)) (bs : list Batch) i :
  bs !! i = None → foldl transfer bs strm !! i = None.
Proof.
  intros H. apply lookup_ge_None. rewrite length_transfers.
  by apply lookup_ge_None.
Qed.

Lemma owned_lookup n s b :
  owned n s → b ∈ owners s → is_Some (prefetch_ s !! b).
Proof.
  intros (Hlen & Hperm & _) Hin. rewrite Hperm in Hin.
  apply elem_of_seq in Hin. apply lookup_lt_is_Some. lia.
Qed.

(** Whether a batch is consistent depends on its value and on the flag. *)
Lemma device_consistent_ext s s' batch :
  prefetch_ s' !! batch = prefetch_ s !! batch →
  output_labels_ s' = output_labels_ s →
  device_consistent s batch → device_consistent s' batch.
Proof.
  intros Hb Hl (b & ? & ? & ?). exists b. rewrite Hb, Hl. done.
Qed.

Lemma device_consistent_transfers s s' batch :
  prefetch_ s' = foldl transfer (prefetch_ s) (stream s) →
  output_labels_ s' = output_labels_ s →
  device_consistent s batch → device_consistent s' batch.
Proof.
  intros Hb Hl (b & Hlook & Hd & Hlab).
  destruct (transfers_lookup (stream s) _ _ _ Hlook) as (b' & H' & _ & Hon & _).
  exists b'. rewrite Hb, Hl. split_and!; auto.
Qed.

Lemma owned_filling n s b x :
  owned n s → b ∈ filling s →
  is_Some (prefetch_ s !! b)
  ∧ (x ∈ prefetch_full_ s → x ≠ b)
  ∧ (x ∈ current s → x ≠ b).
Proof.
  intros Hown Hb. split.
  - apply (owned_lookup n); [done|]. unfold owners.
    rewrite !elem_of_app. auto.
  - apply owned_NoDup in Hown. unfold owners in Hown.
    rewrite !NoDup_app in Hown.
    destruct Hown as (_ & _ & _ & Hfull & _ & Hfill & _).
    split; intros Hx ->.
    + apply (Hfull b Hx). rewrite !elem_of_app. auto.
    + apply (Hfill b Hb). rewrite !elem_of_app. auto.
Qed.

Lemma filling_pc s b :
  b ∈ filling s ↔
  worker s = W_load_batch b ∨ worker s = W_push_data b
  ∨ worker s = W_push_label b ∨ worker s = W_synchronize b
  ∨ worker s = W_push_full b.
Proof.
  unfold filling. destruct (worker s);
    rewrite ?list_elem_of_singleton, ?elem_of_nil;
    intuition congruence.
Qed.

Lemma gpu_inv_worker_step n s :
  gpu_enabled env = true → owned n s → gpu_inv s →
  gpu_inv (worker_step env s).
Proof.
  intros Hgpu Hown (Hstream & Hfull & Hpush).
  assert (∀ b x, b ∈ filling s → x ∈ prefetch_full_ s → x ≠ b) as Hne.
  { intros b x Hb. by apply (owned_filling n s b x). }
  assert (∀ b, b ∈ filling s → is_Some (prefetch_ s !! b)) as Hsome.
  { intros b Hb. by apply (owned_filling n s b b). }
  assert (∀ s', prefetch_ s' = prefetch_ s →
                output_labels_ s' = output_labels_ s →
                ∀ x, x ∈ prefetch_full_ s → device_consistent s' x) as Hkeep.
  { intros s' Hp Hl x Hx. apply (device_consistent_ext s); [by rewrite Hp|done|].
    by apply Hfull. }
  unfold gpu_inv, stream_inv in *.
  unfold worker_step, CUDA_CHECK, must_stop, async_gpu_push.
  destruct (worker s) eqn:Hw.
  - by rewrite Hw.
  - worker_cases env s; split_and!; try done;
      try (by rewrite Hstream; intros ? []%elem_of_nil); by apply Hkeep.
  - worker_cases env s; split_and!; try done; by apply Hkeep.
  - worker_cases env s; rewrite ?Hw; split_and!; try done; by apply Hkeep.
  - assert (∀ b' s', prefetch_ s' = <[batch:=b']> (prefetch_ s) →
                output_labels_ s' = output_labels_ s →
                ∀ x, x ∈ prefetch_full_ s → device_consistent s' x) as Hload.
    { intros b' s' Hp Hl x Hx. apply (device_consistent_ext s); [|done|].
      - rewrite Hp. apply list_lookup_insert_ne, not_eq_sym, Hne; [|done].
        apply filling_pc. auto.
      - by apply Hfull. }
    worker_cases env s; rewrite ?Hw; split_and!; try done; by eapply Hload.
  - worker_cases env s; rewrite Hstream; split_and!; try done;
      try (by apply Hkeep); by rewrite ?Heqb.
  - destruct Hstream as [Hstream Hl].
    worker_cases env s; rewrite Hstream, ?Hl; split_and!; try done;
      by apply Hkeep.
  - worker_cases env s; split_and!; try done; try (by apply Hkeep).
    + intros p Hp. rewrite Hstream in Hp. apply elem_of_app. right.
      apply list_elem_of_singleton.
      apply elem_of_cons in Hp as [->|Hp]; [done|].
      destruct (output_labels_ s); [|by apply elem_of_nil in Hp].
      by apply list_elem_of_singleton in Hp as ->.
    + intros x Hx. apply (device_consistent_transfers s); [done..|].
      by apply Hfull.
    + destruct (Hsome batch) as [b Hb]; [apply filling_pc; auto|].
      destruct (transfers_lookup (stream s) _ _ _ Hb)
        as (b' & Hb' & _ & _ & Hon).
      exists b'. split; [done|]. rewrite Hstream in Hon. simpl. split.
      * apply Hon. by left.
      * intros Hl. apply Hon. rewrite Hl. right. by left.
  - simpl. split_and!; try done. intros x [Hx| ->%list_elem_of_singleton]%elem_of_app.
    + by apply Hkeep.
    + by apply (device_consistent_ext s).
  - worker_cases env s; split_and!; try done;
      try (by rewrite Hstream; intros ? []%elem_of_nil); by apply Hkeep.
  - by rewrite Hw.
  - by rewrite Hw.
  - by rewrite Hw.
Qed.

(** What each thread leaves alone. *)
Lemma consumer_step_frame s :
  prefetch_ (consumer_step s) = prefetch_ s
  ∧ output_labels_ (consumer_step s) = output_labels_ s
  ∧ worker (consumer_step s) = worker s
  ∧ stream (consumer_step s) = stream s
  ∧ src_ (consumer_step s) = src_ s
  ∧ log (consumer_step s) = log s
  ∧ abandoned (consumer_step s) = abandoned s
  ∧ interruption_requested (consumer_step s) = interruption_requested s
  ∧ length (top (consumer_step s)) = length (top s)
  ∧ prefetch_full_ (consumer_step s) `suffix_of` prefetch_full_ s.
Proof.
  destruct_state s. unfold consumer_step, Forward_return. simpl.
  destruct cpc; simpl; case_step; simpl; split_and!;
    rewrite ?length_insert; try done.
  by apply suffix_cons_r.
Qed.

Lemma worker_step_frame s :
  top (worker_step env s) = top s
  ∧ consumer (worker_step env s) = consumer s
  ∧ prefetch_current_ (worker_step env s) = prefetch_current_ s
  ∧ observed (worker_step env s) = observed s
  ∧ output_labels_ (worker_step env s) = output_labels_ s
  ∧ interruption_requested (worker_step env s) = interruption_requested s.
Proof.
  destruct_state s.
  unfold worker_step, CUDA_CHECK, must_stop, cudaStreamSynchronize,
    async_gpu_push, LOG.
  simpl. destruct wpc; simpl; case_step; by simpl.
Qed.

Lemma interrupt_frame s :
  ∃ flag, interrupt s = set_interruption_requested flag s.
Proof.
  unfold interrupt. destruct (worker s); eauto.
  exists (interruption_requested s). by destruct s.
Qed.

Lemma gpu_inv_consumer_step s : gpu_inv s → gpu_inv (consumer_step s).
Proof.
  destruct (consumer_step_frame s)
    as (Hp & Hl & Hw & Hs & _ & _ & Hab & _ & _ & Hfull).
  intros (Hstream & Hcons & Hpush). unfold gpu_inv, stream_inv.
  rewrite Hw, Hs, Hl, Hab. split_and!.
  - done.
  - intros b Hb. apply (device_consistent_ext s); [by rewrite Hp|done|].
    apply Hcons. destruct Hfull as [k ->]. apply elem_of_app. by right.
  - destruct (worker s); try done.
    apply (device_consistent_ext s); [by rewrite Hp|done..].
Qed.

Lemma gpu_inv_interrupt s : gpu_inv s → gpu_inv (interrupt s).
Proof. destruct (interrupt_frame s) as [flag ->]. by destruct s. Qed.

Lemma gpu_inv_start param top_ : gpu_inv (start env param top_).
Proof.
  destruct (start_queues env param top_)
    as (_ & Hfull & _ & _ & Hw & _ & _ & Hs & _).
  unfold gpu_inv, stream_inv. rewrite Hw, Hfull, Hs. split_and!; try done.
  intros b []%elem_of_nil.
Qed.

Lemma gpu_inv_run param top_ sched :
  gpu_enabled env = true →
  gpu_inv (run env (start env param top_) sched).
Proof.
  intros Hgpu.
  cut (owned (lp_prefetch param) (run env (start env param top_) sched)
       ∧ gpu_inv (run env (start env param top_) sched)); [by intros []|].
  apply (run_invariant env (λ s, owned (lp_prefetch param) s ∧ gpu_inv s)).
  - split; [apply (owned_start env)|apply gpu_inv_start].
  - intros s ev [Hown Hinv]. split; [by apply owned_step|].
    unfold step. destruct (worker s) eqn:Hw; try done; destruct ev;
      eauto using gpu_inv_worker_step, gpu_inv_consumer_step,
        gpu_inv_interrupt.
Qed.

(** *** The top blobs *)

(** The worker writes to the batch it is about to fill and to the device
    side of the batches; the host side of every other batch is left as it
    is. *)
Lemma worker_step_same_host s x b :
  worker s ≠ W_load_batch x →
  prefetch_ s !! x = Some b →
  ∃ b', prefetch_ (worker_step env s) !! x = Some b' ∧ same_host b b'.
Proof.
  intros Hw Hb.
  unfold worker_step, CUDA_CHECK, must_stop, async_gpu_push,
    cudaStreamSynchronize, LOG.
  destruct (worker s) eqn:Hpc; worker_cases env s;
    try (exists b; split;
         [first [done | rewrite list_lookup_insert_ne; [done|congruence]]
         |apply same_host_refl]).
  destruct (transfers_lookup (stream s) _ _ _ Hb) as (b' & Hb' & Hs & _).
    exists b'. simpl. by split.
Qed.

Lemma owned_current_same_host n s cur b :
  owned n s → cur ∈ current s → prefetch_ s !! cur = Some b →
  ∃ b', prefetch_ (worker_step env s) !! cur = Some b' ∧ same_host b b'.
Proof.
  intros Hown Hcur. apply worker_step_same_host. intros Hw.
  assert (cur ∈ filling s) as Hfill by (apply filling_pc; auto).
  destruct (owned_filling n s cur cur Hown Hfill) as (_ & _ & Hne).
  by apply Hne.
Qed.


Lemma exposed_worker_step n s i f :
  owned n s → prefetch_current_ s ≠ None → consumer s ≠ C_pop →
  exposed i f s → exposed i f (worker_step env s).
Proof.
  intros Hown _ Hpc (cur & b & Hcur & Hb & Htop).
  destruct (worker_step_frame s) as (Ht & _ & Hc & _).
  destruct (owned_current_same_host n s cur b Hown) as (b' & Hb' & Hsame);
    [|done|].
  { unfold current. rewrite Hcur. destruct (consumer s); try done; by left. }
  exists cur, b'. rewrite Ht, Hc. split_and!; try done.
  by destruct (Hsame f) as [<- _].
Qed.

Lemma top_inv_worker_step n top0 tops s :
  owned n s → top_inv top0 tops s → top_inv top0 tops (worker_step env s).
Proof.
  intros Hown (Hl & Hlen & Hrest & Hpc).
  destruct (worker_step_frame s) as (Ht & Hc & Hcur & _ & Hlab & _).
  unfold top_inv. rewrite Ht, Hc, Hcur, Hlab. split_and!; try done.
  destruct (consumer s) eqn:Hcons; try done.
  - destruct Hpc as [?|[H0 H1]]; [by left|right].
    assert (prefetch_current_ s ≠ None) as Hsome.
    { destruct H0 as (? & ? & -> & _). done. }
    split; [|intros Htrue]; eapply exposed_worker_step; eauto; congruence.
  - destruct Hpc as [H0 Htrue]. split; [|done].
    assert (prefetch_current_ s ≠ None) as Hsome.
    { destruct H0 as (? & ? & -> & _). done. }
    eapply exposed_worker_step; eauto; congruence.
Qed.

Lemma top_inv_consumer_step top0 tops s :
  top_inv top0 tops s → top_inv top0 tops (consumer_step s).
Proof.
  intros (Hl & Hlen & Hrest & Hpc).
  unfold top_inv, consumer_step, Forward_return.
  destruct (consumer s) eqn:Hcons.
  - simpl. destruct (prefetch_current_ s); simpl; by split_and!.
  - destruct (prefetch_full_ s); simpl; [|by split_and!].
    rewrite Hcons. by split_and!.
  - destruct (expose 0 data_field s) as [s'|] eqn:E; [|by simpl; split_and!].
    apply expose_Some in E as (cur & b & t & Hcur & Hb & Ht & ->). simpl.
    assert (<[0:=mkTopBlob (shape_ (data_ b)) (Some (cur, data_field))]>
              (top s) !! 0
            = Some (mkTopBlob (shape_ (data_ b)) (Some (cur, data_field))))
      as Hnew.
    { apply list_lookup_insert_eq. by apply lookup_lt_is_Some. }
    destruct (output_labels_ s) eqn:Hlab; simpl; rewrite ?Hlab;
      (split; [done|]; split; [by rewrite length_insert|]; split).
    + intros i Hi. rewrite list_lookup_insert_ne by lia. apply Hrest. lia.
    + split; [|done]. exists cur, b. simpl. by split_and!.
    + intros i Hi. rewrite list_lookup_insert_ne by lia. apply Hrest. lia.
    + right. split; [|done]. exists cur, b. simpl. by split_and!.
  - destruct Hpc as [(cur0 & b0 & Hcur0 & Hb0 & Ht0) Hlab].
    destruct (expose 1 label_field s) as [s'|] eqn:E;
      [|simpl; rewrite Hlab in Hl, Hrest |- *; by split_and!].
    apply expose_Some in E as (cur & b & t & Hcur & Hb & Ht & ->). simpl.
    rewrite Hlab in Hl, Hrest |- *.
    assert (cur0 = cur) as -> by congruence.
    assert (b0 = b) as -> by congruence.
    split; [done|]. split; [by rewrite length_insert|]. split.
    + intros i Hi. rewrite list_lookup_insert_ne by lia. by apply Hrest.
    + right. split.
      * exists cur, b. simpl. split_and!; try done.
        by rewrite list_lookup_insert_ne.
      * intros _. exists cur, b. simpl. split_and!; try done.
        apply list_lookup_insert_eq. by apply lookup_lt_is_Some.
  - rewrite Hcons. by split_and!.
Qed.

Lemma top_inv_interrupt top0 tops s :
  top_inv top0 tops s → top_inv top0 tops (interrupt s).
Proof. destruct (interrupt_frame s) as [flag ->]. by destruct s. Qed.

Lemma top_inv_start param top_ :
  top_inv top_ (top (start env param top_)) (start env param top_).
Proof.
  destruct (start_queues env param top_) as (_ & _ & Hcur & _ & _ & Hc & _).
  unfold top_inv. rewrite Hc, Hcur. split_and!; try done; [| |by left].
  - unfold start, LayerSetUp, BaseDataLayer_LayerSetUp, DLOG_INFO.
    by destruct (NDEBUG env).
  - unfold start, LayerSetUp, BaseDataLayer_LayerSetUp, DLOG_INFO.
    destruct (NDEBUG env); simpl; by rewrite length_imap.
Qed.

Lemma top_inv_run param top_ sched :
  top_inv top_ (top (start env param top_))
    (run env (start env param top_) sched).
Proof.
  set (tops := top (start env param top_)).
  cut (owned (lp_prefetch param) (run env (start env param top_) sched)
       ∧ top_inv top_ tops (run env (start env param top_) sched));
    [by intros []|].
  apply (run_invariant env (λ s, owned (lp_prefetch param) s
                             ∧ top_inv top_ tops s)).
  - split; [apply (owned_start env)|apply top_inv_start].
  - intros s ev [Hown Hinv]. split; [by apply owned_step|].
    unfold step. destruct (worker s) eqn:Hw; try done; destruct ev;
      eauto using top_inv_worker_step, top_inv_consumer_step,
        top_inv_interrupt.
Qed.

(** The worker appends to the full queue when it publishes and leaves it
    alone otherwise. *)
Lemma worker_step_full s :
  prefetch_full_ (worker_step env s)
  = prefetch_full_ s
    ++ match worker s with W_push_full b => [b] | _ => [] end.
Proof.
  destruct_state s.
  unfold worker_step, CUDA_CHECK, must_stop, cudaStreamSynchronize,
    async_gpu_push, LOG.
  simpl. destruct wpc; simpl; case_step; simpl; by rewrite ?app_nil_r.
Qed.



End PipelineFacts.

(** *** The numbering fill function *)

Section SeqFacts.
Variables (cpu_only ndebug : bool) (m : Brew) (cuda : nat → option string).
Let env := seq_env cpu_only ndebug m cuda.
Implicit Types (s : State nat).


Lemma length_payloads k : length (payloads k) = k.
Proof. unfold payloads. by rewrite length_fmap, length_seq. Qed.







End SeqFacts.

(** *** After an exception has left the worker *)

Section Terminated.
Context {Src : Type}.
Variable env : Env Src.
Implicit Types (s : State Src) (sched : list Event).

Lemma terminated_step s e ev :
  worker s = W_terminated e →
  worker (step env s ev) = W_terminated e
  ∧ prefetch_full_ (step env s ev) `suffix_of` prefetch_full_ s
  ∧ src_ (step env s ev) = src_ s
  ∧ log (step env s ev) = log s
  ∧ abandoned (step env s ev) = abandoned s
  ∧ prefetch_ (step env s ev) = prefetch_ s.
Proof.
  intros Hw. unfold step. rewrite Hw. destruct ev.
  - unfold worker_step. rewrite Hw. by split_and!.
  - destruct (consumer_step_frame s)
      as (Hp & _ & Hw' & _ & Hsrc & Hlog & Hab & _ & _ & Hfull).
    rewrite Hw', Hsrc, Hlog, Hab, Hp. by split_and!.
  - unfold interrupt. rewrite Hw. by split_and!.
Qed.

Lemma terminated_run s e sched :
  worker s = W_terminated e →
  worker (run env s sched) = W_terminated e
  ∧ prefetch_full_ (run env s sched) `suffix_of` prefetch_full_ s
  ∧ src_ (run env s sched) = src_ s
  ∧ log (run env s sched) = log s
  ∧ abandoned (run env s sched) = abandoned s
  ∧ prefetch_ (run env s sched) = prefetch_ s.
Proof.
  revert s. induction sched as [|ev sched IH]; intros s Hw; [done|].
  destruct (terminated_step s e ev Hw) as (Hw1 & Hf1 & Hs1 & Hl1 & Ha1 & Hp1).
  destruct (IH _ Hw1) as (Hw2 & Hf2 & Hs2 & Hl2 & Ha2 & Hp2).
  simpl. rewrite Hw2, Hs2, Hl2, Ha2, Hp2. split_and!; try done.
  by etrans.
Qed.

(** The step of the worker at [load_batch(batch)]. *)
Lemma load_batch_step s batch b :
  worker s = W_load_batch batch → prefetch_ s !! batch = Some b →
  worker_step env s =
  match load_batch env (src_ s) (output_labels_ s) b with
  | Loaded src b' =>
      set_worker
        (if gpu_enabled env then W_push_data batch else W_push_full batch)
        (set_src_ src (set_prefetch_ (<[batch := b']> (prefetch_ s)) s))
  | Raised src b' e =>
      set_worker
        (match e with
         | thread_interrupted => W_exit
         | other_exception _ => W_terminated e
         end)
        (set_abandoned (abandoned s ++ [batch])
           (set_src_ src (set_prefetch_ (<[batch := b']> (prefetch_ s)) s)))
  end.
Proof. intros Hw Hb. unfold worker_step. by rewrite Hw, Hb. Qed.

End Terminated.

(** ** The claims about the prefetching layer *)

(** *** The batches that leave the four places *)

Section Losses.
Context {Src : Type}.
Variable env : Env Src.
Implicit Types (s : State Src) (sched : list Event) (param : LayerParameter).

(** [Forward_cpu] changes [prefetch_current_] at its pop only, and the list
    of the returns at its return only. *)
Lemma current_consumer_step s :
  prefetch_current_ (consumer_step s) = prefetch_current_ s
  ∨ ∃ batch, batch ∈ prefetch_full_ s
      ∧ prefetch_current_ (consumer_step s) = Some batch.
Proof.
  destruct_state s. unfold consumer_step, Forward_return. simpl.
  destruct cpc; simpl; case_step; simpl; auto.
  right. eexists. split; [|done]. by left.
Qed.


Lemma abandoned_step_loses s ev :
  length (abandoned (step env s ev))
  = length (abandoned s) + (if loses env s ev then 1 else 0).
Proof.
  destruct ev.
  - unfold step, loses, worker_step, CUDA_CHECK, must_stop, async_gpu_push,
      cudaStreamSynchronize, LOG.
    destruct (worker s) eqn:Hw; worker_cases env s; rewrite ?Hw; simpl;
      rewrite ?length_app; simpl; lia.
  - destruct (consumer_step_frame s) as (_ & _ & _ & _ & _ & _ & Hab & _).
    unfold step, loses. destruct (worker s); simpl; rewrite ?Hab; lia.
  - destruct (interrupt_frame s) as [flag Hi].
    unfold step, loses. destruct (worker s); simpl; rewrite ?Hi; simpl; lia.
Qed.

Lemma abandoned_losses s sched :
  length (abandoned (run env s sched))
  = length (abandoned s) + losses env s sched.
Proof.
  revert s. induction sched as [|ev sched IH]; intros s; simpl; [lia|].
  change (foldl (step env) (step env s ev) sched)
    with (run env (step env s ev) sched).
  rewrite IH, abandoned_step_loses. lia.
Qed.

Lemma losses_app s sched1 sched2 :
  losses env s (sched1 ++ sched2)
  = losses env s sched1 + losses env (run env s sched1) sched2.
Proof.
  revert s. induction sched1 as [|ev sched1 IH]; intros s; simpl; [done|].
  rewrite IH.
  change (foldl (step env) (step env s ev) sched1)
    with (run env (step env s ev) sched1).
  lia.
Qed.

(** [prefetch_current_] is null or points at a batch of the layer. *)
Lemma pointer_step n s ev :
  owned n s →
  (∀ cur, prefetch_current_ s = Some cur → cur < n) →
  ∀ cur, prefetch_current_ (step env s ev) = Some cur → cur < n.
Proof.
  intros Hown Hcur.
  assert (∀ cur, prefetch_current_ (consumer_step s) = Some cur → cur < n)
    as Hcons.
  { intros cur E. destruct (current_consumer_step s) as [Hsame|(b & Hb & Hnew)].
    - apply Hcur. congruence.
    - assert (cur = b) as -> by congruence.
      destruct (owned_lookup n s b Hown) as [x Hx].
      { unfold owners. rewrite !elem_of_app. auto. }
      apply lookup_lt_Some in Hx. by destruct Hown as (<- & _). }
  destruct (worker_step_frame env s) as (_ & _ & Hw & _).
  destruct (interrupt_frame s) as [flag Hi].
  unfold step. destruct (worker s); try done; destruct ev;
    rewrite ?Hw, ?Hi; done.
Qed.

Lemma pointer_run param top_ sched cur :
  prefetch_current_ (run env (start env param top_) sched) = Some cur →
  cur < lp_prefetch param.
Proof.
  revert cur.
  cut (owned (lp_prefetch param) (run env (start env param top_) sched)
       ∧ ∀ cur, prefetch_current_ (run env (start env param top_) sched)
                = Some cur → cur < lp_prefetch param); [by intros []|].
  apply (run_invariant env
           (λ s, owned (lp_prefetch param) s
                 ∧ ∀ cur, prefetch_current_ s = Some cur
                          → cur < lp_prefetch param)).
  - split; [apply owned_start|].
    destruct (start_queues env param top_) as (_ & _ & -> & _). done.
  - intros s ev [Hown Hcur]. split; [by apply owned_step|].
    by apply pointer_step.
Qed.

End Losses.

(** C2, as the code has it. The layer is constructed with [prefetch]
    batches, all in the free queue, and no current batch. After the set-up
    and any schedule every batch is in exactly one of five places: the free
    queue, the full queue, the hands of the worker, the hands of the
    consumer, or left behind. A batch is left behind by the action in which
    [load_batch] raises, or in which the check of [cudaStreamSynchronize]
    fails, while the worker holds it; this happens at most once in a run.
    So the four places hold all the batches up to that action and one batch
    less from then on, and their count never goes up. The hands of the
    consumer are [prefetch_current_], except in a call of [Forward_cpu]
    between the push and the pop: there the batch the pointer still holds
    is back in circulation and is counted where it is. *)
Theorem batches_are_conserved {Src : Type} (env : Env Src)
    (param : LayerParameter) (top_ : list TopBlob) :
  (length (prefetch_ (BasePrefetchingDataLayer env param)) = lp_prefetch param
   ∧ prefetch_free_ (BasePrefetchingDataLayer env param)
     = seq 0 (lp_prefetch param)
   ∧ prefetch_full_ (BasePrefetchingDataLayer env param) = []
   ∧ prefetch_current_ (BasePrefetchingDataLayer env param) = None)
  ∧ ∀ sched,
      length (prefetch_ (run env (start env param top_) sched))
      = lp_prefetch param
      ∧ owners (run env (start env param top_) sched)
        ≡ₚ seq 0 (lp_prefetch param)
      ∧ NoDup (owners (run env (start env param top_) sched))
      ∧ length (abandoned (run env (start env param top_) sched))
        = losses env (start env param top_) sched
      ∧ losses env (start env param top_) sched ≤ 1
      ∧ in_circulation (run env (start env param top_) sched)
        + losses env (start env param top_) sched
        = lp_prefetch param
      ∧ (∀ sched',
           in_circulation (run env (start env param top_) (sched ++ sched'))
           ≤ in_circulation (run env (start env param top_) sched))
      ∧ (abandoned (run env (start env param top_) sched) ≠ [] →
         left_loop (worker (run env (start env param top_) sched)) = true)
      ∧ (∀ cur,
           consumer (run env (start env param top_) sched) = C_pop →
           prefetch_current_ (run env (start env param top_) sched)
           = Some cur →
           cur ∈ prefetch_free_ (run env (start env param top_) sched)
                 ++ prefetch_full_ (run env (start env param top_) sched)
                 ++ filling (run env (start env param top_) sched)
                 ++ abandoned (run env (start env param top_) sched))
      ∧ (consumer (run env (start env param top_) sched) ≠ C_pop →
         in_circulation_by_pointer (run env (start env param top_) sched)
         = in_circulation (run env (start env param top_) sched))
      ∧ (never_raises env → never_fails env →
         losses env (start env param top_) sched = 0
         ∧ in_circulation (run env (start env param top_) sched)
           = lp_prefetch param).
Proof.
  split.
  - destruct (constructed env param) as (Hp & Hfree & Hfull & Hcur & _).
    by rewrite Hp, length_replicate.
  - intros sched. pose proof (owned_run env param top_ sched) as Hown.
    pose proof (owned_total _ _ Hown) as Htotal.
    pose proof (owned_NoDup _ _ Hown) as Hnd.
    pose proof (abandoned_losses env (start env param top_) sched) as Hloss.
    assert (abandoned (start env param top_) = []) as Hab0.
    { by destruct (start_queues env param top_)
        as (_ & _ & _ & _ & _ & _ & ? & _). }
    rewrite Hab0 in Hloss. simpl in Hloss.
    pose proof Hown as (Hlen & Hperm & Hab & Hab1 & _).
    split_and!; try done.
    + lia.
    + lia.
    + intros sched'.
      pose proof (owned_total _ _ (owned_run env param top_ (sched ++ sched')))
        as Htotal'.
      pose proof (abandoned_losses env (start env param top_) (sched ++ sched'))
        as Hloss'.
      rewrite Hab0, losses_app in Hloss'. simpl in Hloss'. lia.
    + intros Hne. by destruct Hab.
    + intros cur Hc Hcur.
      pose proof (pointer_run env param top_ sched cur Hcur) as Hlt.
      assert (cur ∈ owners (run env (start env param top_) sched)) as Hin.
      { rewrite Hperm. apply elem_of_seq. lia. }
      unfold owners, current in Hin. rewrite Hc in Hin.
      by rewrite app_nil_l in Hin.
    + intros Hc. unfold in_circulation_by_pointer, in_circulation, pointed,
        current.
      by destruct (consumer (run env (start env param top_) sched)).
    + intros Hload Hcuda.
      assert (abandoned (run env (start env param top_) sched) = []) as E.
      { apply (run_invariant env (λ s, abandoned s = [])); [done|].
        intros s ev. by apply abandoned_step. }
      rewrite E in Htotal, Hloss. simpl in Htotal, Hloss. lia.
Qed.

(** The scenario of the specification: two batches, a fill function that
    numbers them, three calls of [Forward_cpu]. And a device whose first
    call fails: the check of [cudaStreamCreateWithFlags] aborts the process
    while the worker holds no batch, and the four places keep both. *)
Lemma batches_are_conserved_witness :
  let env := seq_env true true CPU (λ _, None) in
  let param := mkLayerParameter "data" "Data" 2 in
  let sched := [ev_worker; ev_consumer; ev_worker; ev_worker; ev_worker;
                ev_worker; ev_consumer; ev_consumer; ev_worker] in
  let failing := seq_env false true GPU (λ _, Some "no device") in
  (never_raises env ∧ never_fails env
   ∧ consumer (run env (start env param [mkTopBlob [] None]) sched) ≠ C_pop)
  ∧ losses env (start env param [mkTopBlob [] None]) sched = 0
  ∧ in_circulation (run env (start env param [mkTopBlob [] None]) sched) = 2
  ∧ in_circulation_by_pointer
      (run env (start env param [mkTopBlob [] None]) sched) = 2
  ∧ worker (run failing (start failing param [mkTopBlob [] None]) [ev_worker])
    = W_aborted
  ∧ in_circulation
      (run failing (start failing param [mkTopBlob [] None]) [ev_worker]) = 2.
Proof.
  intros env param sched failing.
  assert (never_raises env) as Hload by (intros src labels b; by eexists _, _).
  assert (never_fails env) as Hcuda by (by intros n).
  assert (consumer (run env (start env param [mkTopBlob [] None]) sched)
          ≠ C_pop) as Hc by (vm_compute; discriminate).
  split; [split; [exact Hload|split; [exact Hcuda|exact Hc]]|].
  destruct (batches_are_conserved env param [mkTopBlob [] None]) as [_ H].
  destruct (H sched) as (_ & _ & _ & _ & _ & _ & _ & _ & _ & Hptr & Hsum).
  destruct (Hsum Hload Hcuda) as [Hl Hn].
  split; [exact Hl|]. split; [exact Hn|].
  split; [rewrite (Hptr Hc); exact Hn|].
  split; [reflexivity|].
  destruct (batches_are_conserved failing param [mkTopBlob [] None])
    as [_ H'].
  destruct (H' [ev_worker]) as (_ & _ & _ & _ & _ & Hsum' & _).
  assert (losses failing (start failing param [mkTopBlob [] None]) [ev_worker]
          = 0) as Hnone by reflexivity.
  rewrite Hnone, Nat.add_0_r in Hsum'. exact Hsum'.
Defined.

(** C2, as it is stated, fails in two ways. First: the worker has taken
    the only batch from the free queue, the teardown interrupts the thread,
    and the fill step, which was waiting for its source, raises
    [boost::thread_interrupted]; the worker catches it and returns, and the
    batch is in none of the four places. Second: the consumer has returned
    from a call and calls again; after the push and before the pop the only
    batch is in the free queue and [prefetch_current_] still points at it,
    so that the four places, with the current batch read as the pointer,
    count it twice. *)
Lemma batches_in_circulation_counterexample :
  let param := mkLayerParameter "data" "Data" 1 in
  let s := run waiting_env (start waiting_env param [mkTopBlob [] None])
             [ev_worker; ev_worker; ev_worker; ev_interrupt; ev_worker;
              ev_worker] in
  let env := seq_env true true CPU (λ _, None) in
  let s' := run env (start env param [mkTopBlob [] None])
              [ev_worker; ev_worker; ev_worker; ev_worker; ev_worker;
               ev_consumer; ev_consumer; ev_consumer; ev_consumer] in
  (worker s = W_returned ∧ consumer s = C_idle
   ∧ prefetch_free_ s = [] ∧ prefetch_full_ s = [] ∧ filling s = []
   ∧ prefetch_current_ s = None
   ∧ in_circulation s ≠ lp_prefetch param
   ∧ in_circulation_by_pointer s ≠ lp_prefetch param)
  ∧ (consumer s' = C_pop ∧ prefetch_current_ s' = Some 0
     ∧ prefetch_free_ s' = [0] ∧ prefetch_full_ s' = [] ∧ filling s' = []
     ∧ abandoned s' = []
     ∧ in_circulation_by_pointer s' ≠ lp_prefetch param).
Proof. vm_compute. split_and!; try reflexivity; discriminate. Qed.

(** *** Progress *)

Section Progress.
Context {Src : Type}.
Variable env : Env Src.
Hypothesis Hload : never_raises env.
Hypothesis Hcuda : never_fails env.
Implicit Types (s : State Src) (sched : list Event).










Lemma run_cons s ev sched :
  run env s (ev :: sched) = run env (step env s ev) sched.
Proof using Type. done. Qed.










End Progress.



Lemma abandoned_not_served {Src : Type} (n : nat) (s : State Src) batch :
  owned n s → batch ∈ abandoned s →
  (batch ∉ prefetch_full_ s) ∧ (batch ∉ current s)
  ∧ (batch ∉ prefetch_free_ s).
Proof.
  intros Hown Hab. apply owned_NoDup in Hown. unfold owners in Hown.
  rewrite !NoDup_app in Hown.
  destruct Hown as (_ & Hfree & _ & Hfull & _ & _ & _ & Hcur & _).
  split_and!; intros Hin.
  - apply (Hfull _ Hin). rewrite !elem_of_app. auto.
  - by apply (Hcur _ Hin).
  - apply (Hfree _ Hin). rewrite !elem_of_app. auto.
Qed.

(** C5: in a state the layer can reach, [boost::thread_interrupted] raised
    by the pop of the empty free queue or by the fill step takes the worker
    to the statement after the try block, from where it returns, and
    nothing is logged and nothing is published on the way. Another exception
    raised by the fill step is not caught: the worker is terminated by it,
    and in every continuation it stays terminated, the full queue only
    loses elements, the batch that was being filled is neither in the full
    queue nor in the hands of the consumer, the fill function is not called
    again, and nothing is logged. *)
Theorem worker_loop_exceptions {Src : Type} (env : Env Src)
    (param : LayerParameter) (top_ : list TopBlob) (sched0 : list Event) :
  (worker (run env (start env param top_) sched0) = W_pop →
     prefetch_free_ (run env (start env param top_) sched0) = [] →
     interruption_requested (run env (start env param top_) sched0) = true →
     worker_step env (run env (start env param top_) sched0)
     = set_worker W_exit (run env (start env param top_) sched0))
  ∧ (∀ batch b src b',
       worker (run env (start env param top_) sched0) = W_load_batch batch →
       prefetch_ (run env (start env param top_) sched0) !! batch = Some b →
       load_batch env (src_ (run env (start env param top_) sched0))
         (output_labels_ (run env (start env param top_) sched0)) b
       = Raised src b' thread_interrupted →
       worker (worker_step env (run env (start env param top_) sched0))
       = W_exit
       ∧ log (worker_step env (run env (start env param top_) sched0))
         = log (run env (start env param top_) sched0)
       ∧ prefetch_full_
           (worker_step env (run env (start env param top_) sched0))
         = prefetch_full_ (run env (start env param top_) sched0))
  ∧ (∀ s, worker s = W_exit →
       gpu_enabled env = false ∨ cuda_error env (cuda_calls s) = None →
       worker (worker_step env s) = W_returned
       ∧ log (worker_step env s) = log s
       ∧ prefetch_full_ (worker_step env s) = prefetch_full_ s)
  ∧ (∀ batch b src b' what sched,
       worker (run env (start env param top_) sched0) = W_load_batch batch →
       prefetch_ (run env (start env param top_) sched0) !! batch = Some b →
       load_batch env (src_ (run env (start env param top_) sched0))
         (output_labels_ (run env (start env param top_) sched0)) b
       = Raised src b' (other_exception what) →
       worker (run env (start env param top_) (sched0 ++ ev_worker :: sched))
       = W_terminated (other_exception what)
       ∧ prefetch_full_
           (run env (start env param top_) (sched0 ++ ev_worker :: sched))
         `suffix_of` prefetch_full_ (run env (start env param top_) sched0)
       ∧ (batch ∉ prefetch_full_
                    (run env (start env param top_)
                       (sched0 ++ ev_worker :: sched)))
       ∧ (batch ∉ current
                    (run env (start env param top_)
                       (sched0 ++ ev_worker :: sched)))
       ∧ src_ (run env (start env param top_) (sched0 ++ ev_worker :: sched))
         = src
       ∧ log (run env (start env param top_) (sched0 ++ ev_worker :: sched))
         = log (run env (start env param top_) sched0)).
Proof.
  set (s := run env (start env param top_) sched0).
  split_and!.
  - intros Hw Hf Hi. unfold worker_step. by rewrite Hw, Hf, Hi.
  - intros batch b src b' Hw Hb Hl.
    rewrite (load_batch_step env s batch b Hw Hb), Hl. by simpl.
  - intros s' Hw Hok. unfold worker_step, CUDA_CHECK. rewrite Hw.
    destruct (gpu_enabled env); [|by simpl].
    destruct Hok as [? | ->]; [done|by simpl].
  - intros batch b src b' what sched Hw Hb Hl.
    pose proof (owned_run env param top_ (sched0 ++ ev_worker :: sched))
      as Hown.
    rewrite run_app, run_cons. rewrite run_app, run_cons in Hown.
    fold s in Hown |- *.
    assert (step env s ev_worker
            = set_worker (W_terminated (other_exception what))
                (set_abandoned (abandoned s ++ [batch])
                   (set_src_ src
                      (set_prefetch_ (<[batch := b']> (prefetch_ s)) s))))
      as Hstep.
    { unfold step. rewrite Hw.
      by rewrite (load_batch_step env s batch b Hw Hb), Hl. }
    rewrite Hstep in Hown |- *. clear Hstep.
    set (s1 := set_worker _ _) in *.
    destruct (terminated_run env s1 (other_exception what) sched eq_refl)
      as (Hw' & Hfull & Hsrc & Hlog & Hab & _).
    rewrite Hw', Hsrc, Hlog.
    destruct (abandoned_not_served _ _ batch Hown) as (Hnf & Hnc & _).
    { rewrite Hab. simpl. apply elem_of_app. right. by left. }
    split_and!; try done.
Qed.

(** A fill step that fails on the only batch of the layer, while the
    consumer goes on. *)
Lemma worker_loop_exceptions_witness :
  let param := mkLayerParameter "data" "Data" 1 in
  let top_ := [mkTopBlob [] None] in
  let sched0 := [ev_worker; ev_worker; ev_worker] in
  let sched := [ev_consumer; ev_consumer; ev_worker; ev_consumer] in
  (worker (run broken_env (start broken_env param top_) sched0)
   = W_load_batch 0
   ∧ prefetch_ (run broken_env (start broken_env param top_) sched0) !! 0
     = Some new_Batch)
  ∧ worker (run broken_env (start broken_env param top_)
              (sched0 ++ ev_worker :: sched))
    = W_terminated (other_exception "corrupt record")
  ∧ (0 ∉ prefetch_full_ (run broken_env (start broken_env param top_)
                           (sched0 ++ ev_worker :: sched))).
Proof.
  intros param top_ sched0 sched.
  assert (worker (run broken_env (start broken_env param top_) sched0)
          = W_load_batch 0) as Hw by reflexivity.
  assert (prefetch_ (run broken_env (start broken_env param top_) sched0) !! 0
          = Some new_Batch) as Hb by reflexivity.
  split; [by split|].
  destruct (worker_loop_exceptions broken_env param top_ sched0)
    as (_ & _ & _ & H).
  destruct (H 0 new_Batch tt new_Batch "corrupt record" sched Hw Hb eq_refl)
    as (Hterm & _ & Hfull & _).
  split; [exact Hterm|exact Hfull].
Defined.

(** C6: with the device enabled, in every state the layer can reach, each
    batch of the full queue has on the device a copy of its data, and of
    its label when labels are output, that equals the host contents, and no
    transfer of it is pending on the stream; and when the worker is about to
    push a batch on the full queue, the stream has been synchronised: the
    batch is consistent and nothing is pending. *)
Theorem published_after_synchronize {Src : Type} (env : Env Src)
    (param : LayerParameter) (top_ : list TopBlob) (sched : list Event) :
  gpu_enabled env = true →
  (∀ batch,
     batch ∈ prefetch_full_ (run env (start env param top_) sched) →
     device_consistent (run env (start env param top_) sched) batch
     ∧ ∀ f, (batch, f) ∉ stream (run env (start env param top_) sched))
  ∧ (∀ batch,
       worker (run env (start env param top_) sched) = W_push_full batch →
       device_consistent (run env (start env param top_) sched) batch
       ∧ stream (run env (start env param top_) sched) = []).
Proof.
  intros Hgpu.
  pose proof (gpu_inv_run env param top_ sched Hgpu) as (Hs & Hfull & Hpush).
  pose proof (owned_run env param top_ sched) as Hown.
  set (s := run env (start env param top_) sched) in *.
  split.
  - intros batch Hin. split; [by apply Hfull|]. intros f Hf.
    assert (batch ∈ filling s ∨ batch ∈ abandoned s) as [Hfill|Hab].
    { unfold stream_inv in Hs. unfold filling.
      destruct (worker s) eqn:Hw; try (by rewrite Hs in Hf;
                                        apply elem_of_nil in Hf).
      - destruct Hs as [Hs _]. rewrite Hs in Hf.
        apply list_elem_of_singleton in Hf. simplify_eq. left. by left.
      - rewrite Hs in Hf. left.
        apply elem_of_cons in Hf as [?|Hf]; [simplify_eq; by left|].
        destruct (output_labels_ s); [|by apply elem_of_nil in Hf].
        apply list_elem_of_singleton in Hf. simplify_eq. by left.
      - right. by apply (Hs (batch, f)). }
    + destruct (owned_filling _ s batch batch Hown Hfill) as (_ & Hne & _).
      by apply Hne.
    + destruct (abandoned_not_served _ _ batch Hown Hab) as (Hnf & _).
      by apply Hnf.
  - intros batch Hw. unfold stream_inv in Hs. rewrite Hw in Hs, Hpush.
    by split.
Qed.

(** One batch with a label, filled and published in GPU mode. *)
Lemma published_after_synchronize_witness :
  let env := seq_env false true GPU (λ _, None) in
  let param := mkLayerParameter "data" "Data" 1 in
  let top_ := [mkTopBlob [] None; mkTopBlob [] None] in
  let sched := repeat ev_worker 8 in
  gpu_enabled env = true
  ∧ prefetch_full_ (run env (start env param top_) sched) = [0]
  ∧ device_consistent (run env (start env param top_) sched) 0.
Proof.
  intros env param top_ sched.
  assert (gpu_enabled env = true) as Hgpu by reflexivity.
  split; [exact Hgpu|]. split; [reflexivity|].
  apply (proj1 (published_after_synchronize env param top_ sched Hgpu) 0).
  vm_compute. left.
Defined.

(** *** What [Forward_cpu] does to the top blobs *)

Section Exposure.
Context {Src : Type}.
Variable env : Env Src.
Implicit Types (s : State Src) (sched : list Event) (param : LayerParameter).





End Exposure.



(** * Further properties of the registries *)

Section RegistrySequences.
Context {Param Inst : Type}.
Implicit Types (st : Factory.Process Param Inst) (d : Dtype) (type : string).
Implicit Types (creator : Factory.Creator Param Inst).
Implicit Types (m : StdMap.t (Factory.Creator Param Inst)).

(** A map in key order is determined by its lookups. *)
Lemma sorted_map_eq m1 m2 :
  StronglySorted str_lt (StdMap.keys m1) →
  StronglySorted str_lt (StdMap.keys m2) →
  (∀ k, StdMap.find k m1 = StdMap.find k m2) → m1 = m2.
Proof.
  revert m2. induction m1 as [|[k1 v1] m1 IH]; intros [|[k2 v2] m2] Hs1 Hs2 Hf.
  - done.
  - specialize (Hf k2). simpl in Hf. by rewrite String.eqb_refl in Hf.
  - specialize (Hf k1). simpl in Hf. by rewrite String.eqb_refl in Hf.
  - unfold StdMap.keys in Hs1, Hs2. simpl in Hs1, Hs2.
    apply StronglySorted_inv in Hs1 as [Hs1 Hall1].
    apply StronglySorted_inv in Hs2 as [Hs2 Hall2].
    rewrite Forall_forall in Hall1, Hall2.
    assert (k1 = k2) as ->.
    { destruct (decide (k1 = k2)) as [|Hne]; [done|]. exfalso.
      pose proof (Hf k1) as H1. pose proof (Hf k2) as H2. simpl in H1, H2.
      rewrite String.eqb_refl in H1, H2.
      destruct (String.eqb_spec k1 k2); [done|].
      destruct (String.eqb_spec k2 k1); [done|].
      symmetry in H1. apply find_Some_keys, Hall2 in H1.
      apply find_Some_keys, Hall1 in H2.
      apply (str_lt_irrefl k1). by eapply str_lt_trans. }
    assert (v1 = v2) as ->.
    { specialize (Hf k2). simpl in Hf. rewrite String.eqb_refl in Hf.
      congruence. }
    f_equal. apply IH; [done..|]. intros k.
    destruct (decide (k = k2)) as [->|Hne].
    + assert (∀ m, (∀ x, x ∈ StdMap.keys m → str_lt k2 x) →
                   StdMap.find k2 m = None) as Hnone.
      { intros m Hall. apply find_None_keys. intros Hin.
        by apply (str_lt_irrefl k2), Hall. }
      by rewrite !Hnone.
    + specialize (Hf k). simpl in Hf.
      by destruct (String.eqb_spec k k2).
Qed.

Variable duplicate_msg : string → string.
Variable AddCreator
  : Dtype → string → Factory.Creator Param Inst → Factory.M Param Inst unit.
Hypothesis AddCreator_unfold : ∀ d type creator st,
  AddCreator d type creator st =
  match CHECK_EQ (StdMap.count type (Factory.Registry d st)) 0
          (duplicate_msg type) with
  | Fatal msg => (Fatal msg, st)
  | Ok _ => (Ok tt, Factory.set_Registry d
                      (StdMap.assign type creator (Factory.Registry d st)) st)
  end.
Variable AddCreators
  : Dtype → list (string * Factory.Creator Param Inst)
    → Factory.M Param Inst unit.
Hypothesis AddCreators_nil : ∀ d st, AddCreators d [] st = (Ok tt, st).
Hypothesis AddCreators_cons : ∀ d type creator rest st,
  AddCreators d ((type, creator) :: rest) st =
  match AddCreator d type creator st with
  | (Ok _, st') => AddCreators d rest st'
  | (Fatal msg, st') => (Fatal msg, st')
  end.

Lemma AddCreators_app d calls1 calls2 st :
  AddCreators d (calls1 ++ calls2) st =
  match AddCreators d calls1 st with
  | (Ok _, st') => AddCreators d calls2 st'
  | (Fatal msg, st') => (Fatal msg, st')
  end.
Proof using AddCreators_nil AddCreators_cons.
  revert st. induction calls1 as [|[type creator] calls1 IH]; intros st.
  - by rewrite AddCreators_nil.
  - simpl. rewrite !AddCreators_cons.
    by destruct (AddCreator d type creator st) as [[[]|msg] st'].
Qed.

(** The registry after the registration of distinct names does not depend
    on the order of the calls. *)
Lemma AddCreators_permutation d calls1 calls2 st1 st2 :
  NoDup calls1.*1 → calls1 ≡ₚ calls2 →
  Factory.Registry d st1 = StdMap.empty →
  Factory.Registry d st2 = StdMap.empty →
  ∃ st1' st2',
    AddCreators d calls1 st1 = (Ok tt, st1')
    ∧ AddCreators d calls2 st2 = (Ok tt, st2')
    ∧ Factory.Registry d st1' = Factory.Registry d st2'.
Proof using AddCreator_unfold AddCreators_nil AddCreators_cons.
  intros Hnd Hperm He1 He2.
  assert (NoDup calls2.*1) as Hnd2 by (by rewrite <- Hperm).
  destruct (AddCreators_distinct duplicate_msg AddCreator AddCreator_unfold
              AddCreators AddCreators_nil AddCreators_cons d calls1 st1 Hnd)
    as (st1' & Hrun1 & _ & Hs1 & Hb1 & Ho1).
  { intros type _. by rewrite He1. }
  { rewrite He1. constructor. }
  destruct (AddCreators_distinct duplicate_msg AddCreator AddCreator_unfold
              AddCreators AddCreators_nil AddCreators_cons d calls2 st2 Hnd2)
    as (st2' & Hrun2 & _ & Hs2 & Hb2 & Ho2).
  { intros type _. by rewrite He2. }
  { rewrite He2. constructor. }
  exists st1', st2'. split_and!; try done.
  apply sorted_map_eq; [done..|]. intros k.
  destruct (decide (k ∈ calls1.*1)) as [Hin|Hnin].
  - apply list_elem_of_fmap in Hin as [[k' c] [-> Hin]]. simpl.
    rewrite (Hb1 _ _ Hin). symmetry. apply Hb2. by rewrite <- Hperm.
  - rewrite Ho1 by done. rewrite Ho2 by (by rewrite <- Hperm).
    by rewrite He1, He2.
Qed.

(** A sequence of registrations stops at the first name that is already
    there. *)
Lemma AddCreators_duplicate d pre type creator post st :
  NoDup pre.*1 → type ∈ pre.*1 →
  Factory.Registry d st = StdMap.empty →
  ∃ st',
    AddCreators d (pre ++ (type, creator) :: post) st
    = (Fatal (duplicate_msg type), st')
    ∧ StdMap.keys (Factory.Registry d st') ≡ₚ pre.*1
    ∧ (∀ t c, (t, c) ∈ pre →
         StdMap.find t (Factory.Registry d st') = Some c).
Proof using AddCreator_unfold AddCreators_nil AddCreators_cons.
  intros Hnd Hin He.
  destruct (AddCreators_distinct duplicate_msg AddCreator AddCreator_unfold
              AddCreators AddCreators_nil AddCreators_cons d pre st Hnd)
    as (st' & Hrun & Hperm & _ & Hb & _).
  { intros t _. by rewrite He. }
  { rewrite He. constructor. }
  rewrite He, app_nil_r in Hperm.
  exists st'. rewrite AddCreators_app, Hrun, AddCreators_cons.
  rewrite (AddCreator_present duplicate_msg AddCreator AddCreator_unfold)
    by (by rewrite Hperm).
  done.
Qed.

(** [AddCreator] touches nothing but the registry of its own [Dtype]. *)
Lemma AddCreator_frame d type creator st :
  (∀ d', d' ≠ d →
     Factory.Registry d' (AddCreator d type creator st).2
     = Factory.Registry d' st)
  ∧ Factory.heap (AddCreator d type creator st).2 = Factory.heap st
  ∧ Factory.info_log (AddCreator d type creator st).2 = Factory.info_log st
  ∧ Factory.creator_calls (AddCreator d type creator st).2
    = Factory.creator_calls st.
Proof using AddCreator_unfold.
  rewrite AddCreator_unfold.
  destruct (CHECK_EQ _ _ _); simpl; [|done].
  split_and!; try by destruct d.
  intros d' Hne. by destruct d, d'.
Qed.

(** The two registrations that [REGISTER_LAYER_CREATOR] and
    [REGISTER_SOLVER_CREATOR] expand to, float first. *)
Lemma register_both_fresh type (cf cd : Factory.Creator Param Inst) st :
  StdMap.find type (Factory.Registry Float st) = None →
  StdMap.find type (Factory.Registry Double st) = None →
  (AddCreator Float type cf ;; AddCreator Double type cd) st
  = (Ok tt,
     Factory.mkProcess
       (StdMap.assign type cf (Factory.g_registry_f st))
       (StdMap.assign type cd (Factory.g_registry_d st))
       (Factory.heap st) (Factory.root_solver st) (Factory.info_log st)
       (Factory.creator_calls st)).
Proof using AddCreator_unfold.
  intros Hf Hd. unfold Factory.bind.
  rewrite (AddCreator_absent duplicate_msg AddCreator AddCreator_unfold)
    by done.
  by rewrite (AddCreator_absent duplicate_msg AddCreator AddCreator_unfold).
Qed.

Lemma register_both_float_bound type (cf cd : Factory.Creator Param Inst) st :
  type ∈ StdMap.keys (Factory.Registry Float st) →
  (AddCreator Float type cf ;; AddCreator Double type cd) st
  = (Fatal (duplicate_msg type), st).
Proof using AddCreator_unfold.
  intros Hin. unfold Factory.bind.
  by rewrite (AddCreator_present duplicate_msg AddCreator AddCreator_unfold).
Qed.

Lemma register_both_double_bound type (cf cd : Factory.Creator Param Inst) st :
  StdMap.find type (Factory.Registry Float st) = None →
  type ∈ StdMap.keys (Factory.Registry Double st) →
  (AddCreator Float type cf ;; AddCreator Double type cd) st
  = (Fatal (duplicate_msg type),
     Factory.set_Registry Float
       (StdMap.assign type cf (Factory.Registry Float st)) st).
Proof using AddCreator_unfold.
  intros Hf Hin. unfold Factory.bind.
  rewrite (AddCreator_absent duplicate_msg AddCreator AddCreator_unfold)
    by done.
  by rewrite (AddCreator_present duplicate_msg AddCreator AddCreator_unfold).
Qed.

End RegistrySequences.

(** X1: the order in which the static initialisers register distinct type
    names does not matter: two sequences of registrations that are
    permutations of each other, each run on an empty registry, succeed and
    leave the same registry, hence the same type list and the same type list
    string. *)
Theorem registration_order_is_irrelevant (d : Dtype) :
  (∀ (calls1 calls2 : list (string * LayerRegistry.Creator))
     (st1 st2 : LayerRegistry.Process),
     NoDup calls1.*1 → calls1 ≡ₚ calls2 →
     LayerRegistry.Registry d st1 = StdMap.empty →
     LayerRegistry.Registry d st2 = StdMap.empty →
     ∃ st1' st2',
       LayerRegistry.AddCreators d calls1 st1 = (Ok tt, st1')
       ∧ LayerRegistry.AddCreators d calls2 st2 = (Ok tt, st2')
       ∧ LayerRegistry.Registry d st1' = LayerRegistry.Registry d st2'
       ∧ LayerRegistry.LayerTypeList d st1'
         = LayerRegistry.LayerTypeList d st2'
       ∧ LayerRegistry.LayerTypeListString d st1'
         = LayerRegistry.LayerTypeListString d st2')
  ∧ (∀ (calls1 calls2 : list (string * SolverRegistry.Creator))
       (st1 st2 : SolverRegistry.Process),
       NoDup calls1.*1 → calls1 ≡ₚ calls2 →
       SolverRegistry.Registry d st1 = StdMap.empty →
       SolverRegistry.Registry d st2 = StdMap.empty →
       ∃ st1' st2',
         SolverRegistry.AddCreators d calls1 st1 = (Ok tt, st1')
         ∧ SolverRegistry.AddCreators d calls2 st2 = (Ok tt, st2')
         ∧ SolverRegistry.Registry d st1' = SolverRegistry.Registry d st2'
         ∧ SolverRegistry.SolverTypeList d st1'
           = SolverRegistry.SolverTypeList d st2'
         ∧ SolverRegistry.SolverTypeListString d st1'
           = SolverRegistry.SolverTypeListString d st2').
Proof.
  split; intros calls1 calls2 st1 st2 Hnd Hperm He1 He2.
  - destruct (AddCreators_permutation
      (λ type, "Layer type " +:+ type +:+ " already registered.")
      LayerRegistry.AddCreator (λ _ _ _ _, eq_refl)
      LayerRegistry.AddCreators (λ _ _, eq_refl) (λ _ _ _ _ _, eq_refl)
      d calls1 calls2 st1 st2 Hnd Hperm He1 He2)
      as (st1' & st2' & Hrun1 & Hrun2 & Heq).
    exists st1', st2'.
    unfold LayerRegistry.LayerTypeListString, LayerRegistry.LayerTypeList,
      LayerRegistry.Registry.
    by rewrite Heq.
  - destruct (AddCreators_permutation
      (λ type, "Solver type " +:+ type +:+ " already registered.")
      SolverRegistry.AddCreator (λ _ _ _ _, eq_refl)
      SolverRegistry.AddCreators (λ _ _, eq_refl) (λ _ _ _ _ _, eq_refl)
      d calls1 calls2 st1 st2 Hnd Hperm He1 He2)
      as (st1' & st2' & Hrun1 & Hrun2 & Heq).
    exists st1', st2'.
    unfold SolverRegistry.SolverTypeListString, SolverRegistry.SolverTypeList,
      SolverRegistry.Registry.
    by rewrite Heq.
Qed.

Lemma registration_order_is_irrelevant_witness :
  let sgd := ("SGD", SolverRegistry.Creator_Solver "SGD" Float) in
  let adam := ("Adam", SolverRegistry.Creator_Solver "Adam" Float) in
  let rms := ("RMSProp", SolverRegistry.Creator_Solver "RMSProp" Float) in
  NoDup [sgd; adam; rms].*1
  ∧ [sgd; adam; rms] ≡ₚ [rms; sgd; adam]
  ∧ ∃ st1' st2',
      SolverRegistry.AddCreators Float [sgd; adam; rms] (fresh_process true)
      = (Ok tt, st1')
      ∧ SolverRegistry.AddCreators Float [rms; sgd; adam] (fresh_process true)
        = (Ok tt, st2')
      ∧ SolverRegistry.SolverTypeListString Float st1' = "Adam, RMSProp, SGD"
      ∧ SolverRegistry.SolverTypeListString Float st2' = "Adam, RMSProp, SGD".
Proof.
  intros sgd adam rms.
  assert (NoDup [sgd; adam; rms].*1) as Hnd.
  { apply (bool_decide_unpack _). vm_compute. exact I. }
  assert ([sgd; adam; rms] ≡ₚ [rms; sgd; adam]) as Hperm
    by solve_Permutation.
  split; [exact Hnd|]. split; [exact Hperm|].
  destruct (proj2 (registration_order_is_irrelevant Float) _ _
              (fresh_process true) (fresh_process true) Hnd Hperm
              eq_refl eq_refl)
    as (st1' & st2' & Hrun1 & Hrun2 & _ & _ & Hstr).
  exists st1', st2'. split; [exact Hrun1|]. split; [exact Hrun2|].
  rewrite <- Hstr. vm_compute in Hrun1. injection Hrun1 as <-.
  split; reflexivity.
Defined.

(** X2: a sequence of registrations on an empty registry whose first
    repeated name comes after distinct names aborts at the repeated name
    with the message of the duplicate check; the registrations before it
    stay in the registry, and nothing after it is registered. *)
Theorem AddCreators_stops_at_first_duplicate (d : Dtype) (type : string) :
  (∀ (pre post : list (string * LayerRegistry.Creator))
     (creator : LayerRegistry.Creator) (st : LayerRegistry.Process),
     NoDup pre.*1 → type ∈ pre.*1 →
     LayerRegistry.Registry d st = StdMap.empty →
     ∃ st',
       LayerRegistry.AddCreators d (pre ++ (type, creator) :: post) st
       = (Fatal ("Layer type " +:+ type +:+ " already registered."), st')
       ∧ LayerRegistry.LayerTypeList d st' ≡ₚ pre.*1
       ∧ (∀ t c, (t, c) ∈ pre →
            StdMap.find t (LayerRegistry.Registry d st') = Some c))
  ∧ (∀ (pre post : list (string * SolverRegistry.Creator))
       (creator : SolverRegistry.Creator) (st : SolverRegistry.Process),
       NoDup pre.*1 → type ∈ pre.*1 →
       SolverRegistry.Registry d st = StdMap.empty →
       ∃ st',
         SolverRegistry.AddCreators d (pre ++ (type, creator) :: post) st
         = (Fatal ("Solver type " +:+ type +:+ " already registered."), st')
         ∧ SolverRegistry.SolverTypeList d st' ≡ₚ pre.*1
         ∧ (∀ t c, (t, c) ∈ pre →
              StdMap.find t (SolverRegistry.Registry d st') = Some c)).
Proof.
  split; intros pre post creator st Hnd Hin He.
  - exact (AddCreators_duplicate
      (λ type, "Layer type " +:+ type +:+ " already registered.")
      LayerRegistry.AddCreator (λ _ _ _ _, eq_refl)
      LayerRegistry.AddCreators (λ _ _, eq_refl) (λ _ _ _ _ _, eq_refl)
      d pre type creator post st Hnd Hin He).
  - exact (AddCreators_duplicate
      (λ type, "Solver type " +:+ type +:+ " already registered.")
      SolverRegistry.AddCreator (λ _ _ _ _, eq_refl)
      SolverRegistry.AddCreators (λ _ _, eq_refl) (λ _ _ _ _ _, eq_refl)
      d pre type creator post st Hnd Hin He).
Qed.

Lemma AddCreators_stops_at_first_duplicate_witness :
  let input := ("Input", LayerRegistry.Creator_Layer "Input" Double) in
  let data := ("Data", LayerRegistry.Creator_Layer "Data" Double) in
  let again := LayerRegistry.Creator_Layer "Other" Double in
  let relu := ("ReLU", LayerRegistry.Creator_Layer "ReLU" Double) in
  NoDup [input; data].*1
  ∧ "Input" ∈ [input; data].*1
  ∧ ∃ st',
      LayerRegistry.AddCreators Double
        ([input; data] ++ ("Input", again) :: [relu]) (fresh_process false)
      = (Fatal "Layer type Input already registered.", st')
      ∧ LayerRegistry.LayerTypeList Double st' ≡ₚ ["Input"; "Data"]
      ∧ StdMap.find "Input" (LayerRegistry.Registry Double st')
        = Some (LayerRegistry.Creator_Layer "Input" Double).
Proof.
  intros input data again relu.
  assert (NoDup [input; data].*1) as Hnd.
  { apply (bool_decide_unpack _). vm_compute. exact I. }
  assert ("Input" ∈ [input; data].*1) as Hin by (vm_compute; left).
  split; [exact Hnd|]. split; [exact Hin|].
  destruct (proj1 (AddCreators_stops_at_first_duplicate Double "Input")
              [input; data] [relu] again (fresh_process false) Hnd Hin
              eq_refl)
    as (st' & Hrun & Hlist & Hbound).
  exists st'. split; [exact Hrun|]. split; [exact Hlist|].
  apply Hbound. left.
Defined.

(** X3: the registration macros are not atomic. [REGISTER_LAYER_CREATOR]
    registers in the float registry first: when the name is bound there it
    aborts with the process unchanged, but when the name is free there and
    bound in the double registry it aborts after the float registration has
    been done, which stays in place. [REGISTER_SOLVER_CREATOR] likewise. *)
Theorem REGISTER_CREATOR_is_not_atomic (type : string) :
  (∀ (creator : Dtype → LayerRegistry.Creator) (st : LayerRegistry.Process),
     type ∈ LayerRegistry.LayerTypeList Float st →
     LayerRegistry.REGISTER_LAYER_CREATOR type creator st
     = (Fatal ("Layer type " +:+ type +:+ " already registered."), st))
  ∧ (∀ (creator : Dtype → LayerRegistry.Creator) (st : LayerRegistry.Process),
       StdMap.find type (LayerRegistry.Registry Float st) = None →
       type ∈ LayerRegistry.LayerTypeList Double st →
       ∃ st',
         LayerRegistry.REGISTER_LAYER_CREATOR type creator st
         = (Fatal ("Layer type " +:+ type +:+ " already registered."), st')
         ∧ StdMap.find type (LayerRegistry.Registry Float st')
           = Some (creator Float)
         ∧ LayerRegistry.LayerTypeList Float st'
           ≡ₚ type :: LayerRegistry.LayerTypeList Float st
         ∧ LayerRegistry.Registry Double st'
           = LayerRegistry.Registry Double st)
  ∧ (∀ (creator : Dtype → SolverRegistry.Creator)
       (st : SolverRegistry.Process),
       type ∈ SolverRegistry.SolverTypeList Float st →
       SolverRegistry.REGISTER_SOLVER_CREATOR type creator st
       = (Fatal ("Solver type " +:+ type +:+ " already registered."), st))
  ∧ (∀ (creator : Dtype → SolverRegistry.Creator)
       (st : SolverRegistry.Process),
       StdMap.find type (SolverRegistry.Registry Float st) = None →
       type ∈ SolverRegistry.SolverTypeList Double st →
       ∃ st',
         SolverRegistry.REGISTER_SOLVER_CREATOR type creator st
         = (Fatal ("Solver type " +:+ type +:+ " already registered."), st')
         ∧ StdMap.find type (SolverRegistry.Registry Float st')
           = Some (creator Float)
         ∧ SolverRegistry.SolverTypeList Float st'
           ≡ₚ type :: SolverRegistry.SolverTypeList Float st
         ∧ SolverRegistry.Registry Double st'
           = SolverRegistry.Registry Double st).
Proof.
  split_and!.
  - intros creator st Hin.
    exact (register_both_float_bound
      (λ type, "Layer type " +:+ type +:+ " already registered.")
      LayerRegistry.AddCreator (λ _ _ _ _, eq_refl)
      type (creator Float) (creator Double) st Hin).
  - intros creator st Hf Hin. eexists. split.
    + exact (register_both_double_bound
        (λ type, "Layer type " +:+ type +:+ " already registered.")
        LayerRegistry.AddCreator (λ _ _ _ _, eq_refl)
        type (creator Float) (creator Double) st Hf Hin).
    + unfold LayerRegistry.LayerTypeList, LayerRegistry.Registry in *.
      simpl in *. split_and!; [apply find_assign_eq| |done].
      by apply keys_assign_fresh.
  - intros creator st Hin.
    exact (register_both_float_bound
      (λ type, "Solver type " +:+ type +:+ " already registered.")
      SolverRegistry.AddCreator (λ _ _ _ _, eq_refl)
      type (creator Float) (creator Double) st Hin).
  - intros creator st Hf Hin. eexists. split.
    + exact (register_both_double_bound
        (λ type, "Solver type " +:+ type +:+ " already registered.")
        SolverRegistry.AddCreator (λ _ _ _ _, eq_refl)
        type (creator Float) (creator Double) st Hf Hin).
    + unfold SolverRegistry.SolverTypeList, SolverRegistry.Registry in *.
      simpl in *. split_and!; [apply find_assign_eq| |done].
      by apply keys_assign_fresh.
Qed.

Lemma REGISTER_CREATOR_is_not_atomic_witness :
  let st : LayerRegistry.Process :=
    (LayerRegistry.AddCreator Double "Python"
       (LayerRegistry.Creator_Layer "Python" Double) (fresh_process true)).2 in
  StdMap.find "Python" (LayerRegistry.Registry Float st) = None
  ∧ "Python" ∈ LayerRegistry.LayerTypeList Double st
  ∧ ∃ st',
      LayerRegistry.REGISTER_LAYER_CLASS "Python" st
      = (Fatal "Layer type Python already registered.", st')
      ∧ LayerRegistry.LayerTypeList Float st = []
      ∧ LayerRegistry.LayerTypeList Float st' ≡ₚ ["Python"].
Proof.
  intros st.
  assert ("Python" ∈ LayerRegistry.LayerTypeList Double st) as Hin
    by (vm_compute; left).
  split; [reflexivity|]. split; [exact Hin|].
  destruct (proj1 (proj2 (REGISTER_CREATOR_is_not_atomic "Python"))
              (LayerRegistry.Creator_Layer "Python") st eq_refl Hin)
    as (st' & Hrun & _ & Hlist & _).
  exists st'. split; [exact Hrun|]. split; [reflexivity|exact Hlist].
Defined.

(** X4: registering a class and then asking the factory for its name is a
    round trip: in a process where [type] is free, after
    [REGISTER_LAYER_CLASS(type)] the call [CreateLayer] with a parameter of
    that type succeeds, makes one call through a creator, and returns the
    address of a new instance of the class [type##Layer] at the [Dtype] of
    the call, built from the parameter; the instances that were on the heap
    stay. [REGISTER_SOLVER_CLASS] and [CreateSolver] likewise. *)
Theorem REGISTER_CLASS_then_Create (type : string) (d : Dtype) :
  (∀ (param : LayerParameter) (st : LayerRegistry.Process),
     (∀ d', StdMap.find type (LayerRegistry.Registry d' st) = None) →
     lp_type param = type →
     ∃ st',
       (LayerRegistry.REGISTER_LAYER_CLASS type ;;
        LayerRegistry.CreateLayer d param) st
       = (Ok (length (Factory.heap st)), st')
       ∧ Factory.heap st'
         = Factory.heap st ++ [mkLayer (type +:+ "Layer") d param]
       ∧ Factory.creator_calls st' = S (Factory.creator_calls st))
  ∧ (∀ (param : SolverParameter) (st : SolverRegistry.Process),
       (∀ d', StdMap.find type (SolverRegistry.Registry d' st) = None) →
       sp_type param = type →
       ∃ st',
         (SolverRegistry.REGISTER_SOLVER_CLASS type ;;
          SolverRegistry.CreateSolver d param) st
         = (Ok (length (Factory.heap st)), st')
         ∧ Factory.heap st'
           = Factory.heap st ++ [mkSolver (type +:+ "Solver") d param]
         ∧ Factory.creator_calls st' = S (Factory.creator_calls st)).
Proof.
  split; intros param st Hfresh Htype.
  - unfold Factory.bind at 1.
    unfold LayerRegistry.REGISTER_LAYER_CLASS,
      LayerRegistry.REGISTER_LAYER_CREATOR, LayerRegistry.LayerRegisterer.
    rewrite (register_both_fresh
      (λ type, "Layer type " +:+ type +:+ " already registered.")
      LayerRegistry.AddCreator (λ _ _ _ _, eq_refl))
      by apply Hfresh.
    set (st1 := Factory.mkProcess _ _ _ _ _ _).
    pose proof (Create_known
      (λ type known, "Unknown layer type: " +:+ type +:+ " (known types: "
                     +:+ known +:+ ")")
      lp_type
      (λ param st, if Factory.root_solver st
                   then Factory.LOG_INFO ("Creating layer " +:+ lp_name param) st
                   else st)
      LayerRegistry.CreateLayer (λ _ _ _, eq_refl) d param st1
      (LayerRegistry.Creator_Layer type d)) as H.
    cbv beta in H. rewrite LayerRegistry_prelude_Registry in H.
    rewrite H.
    + eexists. split; [|split].
      * f_equal. f_equal. unfold st1. by destruct (Factory.root_solver st).
      * unfold st1. by destruct (Factory.root_solver st).
      * unfold st1. by destruct (Factory.root_solver st).
    + rewrite Htype. unfold st1. destruct d; apply find_assign_eq.
  - unfold Factory.bind at 1.
    unfold SolverRegistry.REGISTER_SOLVER_CLASS,
      SolverRegistry.REGISTER_SOLVER_CREATOR, SolverRegistry.SolverRegisterer.
    rewrite (register_both_fresh
      (λ type, "Solver type " +:+ type +:+ " already registered.")
      SolverRegistry.AddCreator (λ _ _ _ _, eq_refl))
      by apply Hfresh.
    set (st1 := Factory.mkProcess _ _ _ _ _ _).
    pose proof (Create_known
      (λ type known, "Unknown solver type: " +:+ type +:+ " (known types: "
                     +:+ known +:+ ")")
      sp_type (λ _ st, st)
      SolverRegistry.CreateSolver (λ _ _ _, eq_refl) d param st1
      (SolverRegistry.Creator_Solver type d)) as H.
    cbv beta in H. rewrite H.
    + eexists. split; [|split]; done.
    + rewrite Htype. unfold st1. destruct d; apply find_assign_eq.
Qed.

Lemma REGISTER_CLASS_then_Create_witness :
  let st : SolverRegistry.Process := fresh_process false in
  let param := mkSolverParameter "SGD" in
  (∀ d', StdMap.find "SGD" (SolverRegistry.Registry d' st) = None)
  ∧ sp_type param = "SGD"
  ∧ ∃ st',
      (SolverRegistry.REGISTER_SOLVER_CLASS "SGD" ;;
       SolverRegistry.CreateSolver Double param) st = (Ok 0, st')
      ∧ Factory.heap st' = [mkSolver "SGDSolver" Double param].
Proof.
  intros st param.
  assert (∀ d', StdMap.find "SGD" (SolverRegistry.Registry d' st) = None)
    as Hfresh by (intros []; reflexivity).
  split; [exact Hfresh|]. split; [reflexivity|].
  destruct (proj2 (REGISTER_CLASS_then_Create "SGD" Double) param st
              Hfresh eq_refl) as (st' & Hrun & Hheap & _).
  exists st'. split; [exact Hrun|exact Hheap].
Defined.

(** X5: the two instantiations of a registry are separate, and the registry
    functions stay within their part of the process. [AddCreator] at one
    [Dtype] never changes the registry of the other, the heap, the log or
    the number of creator calls, whether it succeeds or aborts.
    [CreateLayer] and [CreateSolver] never change a registry nor
    [Caffe::root_solver()], whether they succeed or abort; [CreateLayer]
    adds its line "Creating layer <name>" to the log exactly when the
    process is the root solver, and before it looks the type up, so also
    when it aborts; [CreateSolver] writes no line. *)
Theorem registry_functions_keep_to_their_part (d d' : Dtype) :
  (∀ type (creator : LayerRegistry.Creator) (st : LayerRegistry.Process),
     let st' := (LayerRegistry.AddCreator d type creator st).2 in
     (d' ≠ d → LayerRegistry.Registry d' st' = LayerRegistry.Registry d' st)
     ∧ Factory.heap st' = Factory.heap st
     ∧ Factory.info_log st' = Factory.info_log st
     ∧ Factory.creator_calls st' = Factory.creator_calls st)
  ∧ (∀ (param : LayerParameter) (st : LayerRegistry.Process),
       let st' := (LayerRegistry.CreateLayer d param st).2 in
       LayerRegistry.Registry d' st' = LayerRegistry.Registry d' st
       ∧ Factory.root_solver st' = Factory.root_solver st
       ∧ Factory.info_log st'
         = Factory.info_log st
           ++ (if Factory.root_solver st
               then ["Creating layer " +:+ lp_name param] else []))
  ∧ (∀ type (creator : SolverRegistry.Creator) (st : SolverRegistry.Process),
       let st' := (SolverRegistry.AddCreator d type creator st).2 in
       (d' ≠ d →
        SolverRegistry.Registry d' st' = SolverRegistry.Registry d' st)
       ∧ Factory.heap st' = Factory.heap st
       ∧ Factory.info_log st' = Factory.info_log st
       ∧ Factory.creator_calls st' = Factory.creator_calls st)
  ∧ (∀ (param : SolverParameter) (st : SolverRegistry.Process),
       let st' := (SolverRegistry.CreateSolver d param st).2 in
       SolverRegistry.Registry d' st' = SolverRegistry.Registry d' st
       ∧ Factory.root_solver st' = Factory.root_solver st
       ∧ Factory.info_log st' = Factory.info_log st).
Proof.
  split_and!.
  - intros type creator st st'.
    destruct (AddCreator_frame
      (λ type, "Layer type " +:+ type +:+ " already registered.")
      LayerRegistry.AddCreator (λ _ _ _ _, eq_refl) d type creator st)
      as (Hreg & Hheap & Hlog & Hcalls).
    split_and!; try done. intros Hne. by apply Hreg.
  - intros param st. unfold LayerRegistry.CreateLayer, LayerRegistry.Registry.
    cbv zeta. rewrite LayerRegistry_prelude_Registry.
    unfold StdMap.count.
    destruct (StdMap.find _ _) as [creator|]; simpl.
    + unfold Factory.call. destruct (creator _ _). simpl.
      destruct (Factory.root_solver st) eqn:E; simpl;
        rewrite ?app_nil_r, ?E; by destruct d'.
    + destruct (Factory.root_solver st) eqn:E; simpl;
        rewrite ?app_nil_r, ?E; by destruct d'.
  - intros type creator st st'.
    destruct (AddCreator_frame
      (λ type, "Solver type " +:+ type +:+ " already registered.")
      SolverRegistry.AddCreator (λ _ _ _ _, eq_refl) d type creator st)
      as (Hreg & Hheap & Hlog & Hcalls).
    split_and!; try done. intros Hne. by apply Hreg.
  - intros param st.
    unfold SolverRegistry.CreateSolver, SolverRegistry.Registry.
    cbv zeta. unfold StdMap.count.
    destruct (StdMap.find _ _) as [creator|]; simpl.
    + unfold Factory.call. destruct (creator _ _). simpl. by destruct d'.
    + done.
Qed.

Lemma registry_functions_keep_to_their_part_witness :
  let st : LayerRegistry.Process := fresh_process true in
  let st' := (LayerRegistry.AddCreator Float "Input"
                (LayerRegistry.Creator_Layer "Input" Float) st).2 in
  Double ≠ Float
  ∧ LayerRegistry.LayerTypeList Float st' = ["Input"]
  ∧ LayerRegistry.Registry Double st' = LayerRegistry.Registry Double st.
Proof.
  intros st st'.
  assert (Double ≠ Float) as Hne by discriminate.
  split; [exact Hne|]. split; [reflexivity|].
  exact (proj1 (proj1 (registry_functions_keep_to_their_part Float Double)
                  "Input" (LayerRegistry.Creator_Layer "Input" Float) st)
           Hne).
Defined.

Section RegistryWriteOnce.
Context {Param Inst : Type}.
Implicit Types (st : Factory.Process Param Inst) (d : Dtype) (type : string).
Implicit Types (creator : Factory.Creator Param Inst).

Variable duplicate_msg : string → string.
Variable AddCreator
  : Dtype → string → Factory.Creator Param Inst → Factory.M Param Inst unit.
Hypothesis AddCreator_unfold : ∀ d type creator st,
  AddCreator d type creator st =
  match CHECK_EQ (StdMap.count type (Factory.Registry d st)) 0
          (duplicate_msg type) with
  | Fatal msg => (Fatal msg, st)
  | Ok _ => (Ok tt, Factory.set_Registry d
                      (StdMap.assign type creator (Factory.Registry d st)) st)
  end.
Variable AddCreators
  : Dtype → list (string * Factory.Creator Param Inst)
    → Factory.M Param Inst unit.
Hypothesis AddCreators_nil : ∀ d st, AddCreators d [] st = (Ok tt, st).
Hypothesis AddCreators_cons : ∀ d type creator rest st,
  AddCreators d ((type, creator) :: rest) st =
  match AddCreator d type creator st with
  | (Ok _, st') => AddCreators d rest st'
  | (Fatal msg, st') => (Fatal msg, st')
  end.

(** No sequence of registrations, with or without repeated names, changes
    a binding that is in the registry. *)
Lemma AddCreators_keeps d calls st type creator :
  StdMap.find type (Factory.Registry d st) = Some creator →
  StdMap.find type (Factory.Registry d (AddCreators d calls st).2)
  = Some creator.
Proof using AddCreator_unfold AddCreators_nil AddCreators_cons.
  revert st. induction calls as [|[ty c] calls IH]; intros st Hbound.
  - by rewrite AddCreators_nil.
  - rewrite AddCreators_cons.
    destruct (StdMap.find ty (Factory.Registry d st)) as [c0|] eqn:Hty.
    + rewrite (AddCreator_present duplicate_msg AddCreator AddCreator_unfold);
        [done|].
      by eapply find_Some_keys.
    + rewrite (AddCreator_absent duplicate_msg AddCreator AddCreator_unfold)
        by done.
      apply IH. rewrite Registry_set_same, find_assign_ne; [done|].
      intros ->. congruence.
Qed.

End RegistryWriteOnce.

(** X6: the registries are write-once. A name that is bound to a creator
    stays bound to this creator through every sequence of registrations,
    whether they succeed or one of them aborts; a later registration under
    the same name does not replace it. *)
Theorem registered_creators_are_never_replaced (d : Dtype) (type : string) :
  (∀ (calls : list (string * LayerRegistry.Creator))
     (st : LayerRegistry.Process) (creator : LayerRegistry.Creator),
     StdMap.find type (LayerRegistry.Registry d st) = Some creator →
     StdMap.find type
       (LayerRegistry.Registry d (LayerRegistry.AddCreators d calls st).2)
     = Some creator)
  ∧ (∀ (calls : list (string * SolverRegistry.Creator))
       (st : SolverRegistry.Process) (creator : SolverRegistry.Creator),
       StdMap.find type (SolverRegistry.Registry d st) = Some creator →
       StdMap.find type
         (SolverRegistry.Registry d (SolverRegistry.AddCreators d calls st).2)
       = Some creator).
Proof.
  split; intros calls st creator Hbound.
  - exact (AddCreators_keeps
      (λ type, "Layer type " +:+ type +:+ " already registered.")
      LayerRegistry.AddCreator (λ _ _ _ _, eq_refl)
      LayerRegistry.AddCreators (λ _ _, eq_refl) (λ _ _ _ _ _, eq_refl)
      d calls st type creator Hbound).
  - exact (AddCreators_keeps
      (λ type, "Solver type " +:+ type +:+ " already registered.")
      SolverRegistry.AddCreator (λ _ _ _ _, eq_refl)
      SolverRegistry.AddCreators (λ _ _, eq_refl) (λ _ _ _ _ _, eq_refl)
      d calls st type creator Hbound).
Qed.

Lemma registered_creators_are_never_replaced_witness :
  let first := LayerRegistry.Creator_Layer "Data" Float in
  let second := LayerRegistry.Creator_Layer "ImageData" Float in
  let st : LayerRegistry.Process :=
    (LayerRegistry.AddCreator Float "Data" first (fresh_process true)).2 in
  let calls := [("Input", LayerRegistry.Creator_Layer "Input" Float);
                ("Data", second);
                ("ReLU", LayerRegistry.Creator_Layer "ReLU" Float)] in
  StdMap.find "Data" (LayerRegistry.Registry Float st) = Some first
  ∧ StdMap.find "Data"
      (LayerRegistry.Registry Float
         (LayerRegistry.AddCreators Float calls st).2)
    = Some first
  ∧ LayerRegistry.LayerTypeList Float
      (LayerRegistry.AddCreators Float calls st).2
    = ["Data"; "Input"].
Proof.
  intros first second st calls.
  assert (StdMap.find "Data" (LayerRegistry.Registry Float st) = Some first)
    as Hbound by reflexivity.
  split; [exact Hbound|]. split; [|reflexivity].
  exact (proj1 (registered_creators_are_never_replaced Float "Data")
           calls st first Hbound).
Defined.

(** * Further properties of the prefetching layer *)

Section Steps.
Context {Src : Type}.
Variable env : Env Src.
Implicit Types (s : State Src) (sched : list Event).

Lemma step_worker s :
  worker s ≠ W_aborted → step env s ev_worker = worker_step env s.
Proof. intros Hw. unfold step. by destruct (worker s). Qed.

Lemma step_consumer s :
  worker s ≠ W_aborted → step env s ev_consumer = consumer_step s.
Proof. intros Hw. unfold step. by destruct (worker s). Qed.

Lemma step_interrupt s :
  worker s ≠ W_aborted → step env s ev_interrupt = interrupt s.
Proof. intros Hw. unfold step. by destruct (worker s). Qed.

Lemma step_aborted s ev : worker s = W_aborted → step env s ev = s.
Proof. intros Hw. unfold step. by rewrite Hw. Qed.

(** An action of another thread leaves the worker where it is. *)
Lemma step_other_worker s ev :
  ev ≠ ev_worker → worker (step env s ev) = worker s.
Proof.
  intros Hev. unfold step. destruct (worker s) eqn:Hw; try done;
    (destruct ev; [done| |]);
    first [ by destruct (consumer_step_frame s) as (_ & _ & -> & _)
          | by unfold interrupt; rewrite Hw ].
Qed.

Lemma interrupt_requested s :
  worker s ≠ W_not_started → interruption_requested (interrupt s) = true.
Proof. intros Hw. unfold interrupt. by destruct (worker s). Qed.

Lemma step_keeps_request s ev :
  interruption_requested s = true →
  interruption_requested (step env s ev) = true.
Proof.
  intros Hi. unfold step. destruct (worker s) eqn:Hw; try done;
    (destruct ev;
     [ by destruct (worker_step_frame env s) as (_ & _ & _ & _ & _ & ->)
     | by destruct (consumer_step_frame s)
         as (_ & _ & _ & _ & _ & _ & _ & -> & _)
     | by unfold interrupt; rewrite Hw ]).
Qed.

Lemma step_keeps_started s ev :
  worker s ≠ W_not_started → worker (step env s ev) ≠ W_not_started.
Proof.
  intros Hw. destruct ev; [|by rewrite step_other_worker..].
  unfold step, worker_step, CUDA_CHECK, must_stop.
  destruct (worker s) eqn:Hpc; worker_cases env s; rewrite ?Hpc; done.
Qed.

End Steps.

(** ** The teardown *)

Section Teardown.
Context {Src : Type}.
Variable env : Env Src.
Implicit Types (s : State Src) (sched : list Event).

Lemma worker_distance_finished pc :
  worker_distance pc = 0 → finished pc = true.
Proof. by destruct pc. Qed.

Lemma worker_distance_bound pc :
  pc ≠ W_not_started → worker_distance pc ≤ 8.
Proof. destruct pc; simpl; intros; try done; lia. Qed.

(** Once the teardown has been requested, each action of the worker brings
    it closer to the end of [InternalThreadEntry]. *)
Lemma worker_distance_step n s :
  owned n s → worker s ≠ W_not_started →
  interruption_requested s = true ∨ worker s = W_aborted →
  worker_distance (worker (step env s ev_worker))
  ≤ worker_distance (worker s) - 1.
Proof.
  intros Hown Hstarted [Hi|Hab]; [|by rewrite step_aborted, Hab].
  assert (∀ b, worker s = W_load_batch b → is_Some (prefetch_ s !! b))
    as Hsome.
  { intros b Hw. apply (owned_filling n s b b Hown), filling_pc. auto. }
  unfold step, worker_step, CUDA_CHECK, must_stop.
  destruct (worker s) eqn:Hw; try done; rewrite ?Hi;
    worker_cases env s; rewrite ?Hw; simpl; try lia; try congruence.
  all: destruct (Hsome batch eq_refl) as [b Hb]; congruence.
Qed.

Lemma worker_distance_run n s sched :
  owned n s → worker s ≠ W_not_started →
  interruption_requested s = true ∨ worker s = W_aborted →
  worker_distance (worker (run env s sched))
  ≤ worker_distance (worker s) - worker_actions sched.
Proof.
  revert s. induction sched as [|ev sched IH]; intros s Hown Hstarted Hreq.
  { simpl. lia. }
  rewrite run_cons.
  assert (interruption_requested (step env s ev) = true
          ∨ worker (step env s ev) = W_aborted) as Hreq'.
  { destruct Hreq as [Hi|Hab].
    - left. by apply step_keeps_request.
    - right. by rewrite step_aborted. }
  specialize (IH (step env s ev) (owned_step env n s ev Hown)
                (step_keeps_started env s ev Hstarted) Hreq').
  destruct ev; simpl.
  - pose proof (worker_distance_step n s Hown Hstarted Hreq). lia.
  - by rewrite step_other_worker in IH.
  - by rewrite step_other_worker in IH.
Qed.

End Teardown.

(** X7: the teardown always gets the worker out of [InternalThreadEntry].
    In any state the layer can reach, once the interruption has been
    requested, eight actions of the worker are enough, however they are
    interleaved with the consumer and whatever the fill step and the device
    do: the worker has then returned, or an exception or a failed check has
    ended it. A worker that waits at the empty free queue is woken, and a
    consumer that never calls does not hold it up. Each call of the fill
    step is taken to return or raise. *)
Theorem worker_stops_after_interrupt {Src : Type} (env : Env Src)
    (param : LayerParameter) (top_ : list TopBlob)
    (sched1 sched2 : list Event) :
  8 ≤ worker_actions sched2 →
  finished (worker (run env (start env param top_)
                      (sched1 ++ ev_interrupt :: sched2))) = true.
Proof.
  intros Hactions. rewrite run_app, run_cons.
  set (s1 := run env (start env param top_) sched1).
  assert (worker s1 ≠ W_not_started) as Hstarted.
  { unfold s1. apply (run_invariant env (λ s, worker s ≠ W_not_started)).
    - destruct (start_queues env param top_) as (_ & _ & _ & _ & -> & _).
      done.
    - intros s ev. apply step_keeps_started. }
  pose proof (owned_run env param top_ sched1) as Hown. fold s1 in Hown.
  assert (interruption_requested (step env s1 ev_interrupt) = true
          ∨ worker (step env s1 ev_interrupt) = W_aborted) as Hreq.
  { destruct (worker s1) eqn:Hw;
      try (left; rewrite step_interrupt by congruence;
           apply interrupt_requested; congruence).
    right. by rewrite step_aborted. }
  pose proof (step_keeps_started env s1 ev_interrupt Hstarted) as Hstarted'.
  pose proof (worker_distance_run env (lp_prefetch param) _ sched2
                (owned_step env _ s1 ev_interrupt Hown) Hstarted' Hreq)
    as Hdist.
  pose proof (worker_distance_bound _ Hstarted') as Hbound.
  apply worker_distance_finished. lia.
Qed.

(** The worker is filling the only batch when the teardown comes, and the
    consumer has called and waits. *)
Lemma worker_stops_after_interrupt_witness :
  let env := seq_env false true GPU (λ _, None) in
  let param := mkLayerParameter "data" "Data" 1 in
  let top_ := [mkTopBlob [] None; mkTopBlob [] None] in
  let sched1 := [ev_worker; ev_worker; ev_consumer; ev_worker] in
  let sched2 := [ev_worker; ev_consumer; ev_worker; ev_worker; ev_worker;
                 ev_worker; ev_consumer; ev_worker; ev_worker; ev_worker] in
  8 ≤ worker_actions sched2
  ∧ worker (run env (start env param top_) sched1) = W_load_batch 0
  ∧ finished (worker (run env (start env param top_)
                        (sched1 ++ ev_interrupt :: sched2))) = true.
Proof.
  intros env param top_ sched1 sched2.
  assert (8 ≤ worker_actions sched2) as Hactions by (simpl; lia).
  split; [exact Hactions|]. split; [reflexivity|].
  exact (worker_stops_after_interrupt env param top_ sched1 sched2 Hactions).
Defined.

(** ** Delivery *)

Section Delivery.
Context {Src : Type}.
Variable env : Env Src.
Hypothesis Hload : never_raises env.
Hypothesis Hcuda : never_fails env.
Variables (n : nat) (top0 tops : list TopBlob).
Hypothesis Htop0 : top0 ≠ [].
Implicit Types (s : State Src) (sched : list Event).

Lemma live_not_aborted s : live n top0 tops s → worker s ≠ W_aborted.
Proof using Type. intros (_ & _ & _ & Hl & _) Hw. by rewrite Hw in Hl. Qed.

(** Without a teardown, an exception or a failed check, the worker stays in
    its loop. *)
Lemma worker_step_in_loop s :
  interruption_requested s = false → left_loop (worker s) = false →
  worker s ≠ W_not_started →
  left_loop (worker (worker_step env s)) = false
  ∧ worker (worker_step env s) ≠ W_not_started.
Proof using Hload Hcuda.
  intros Hi Hl Hstarted.
  unfold worker_step, CUDA_CHECK, must_stop.
  destruct (worker s) eqn:Hw; try done; rewrite ?Hcuda, ?Hi;
    worker_cases env s; rewrite ?Hw; try done.
  all: match goal with
       | H : load_batch env ?a ?b ?c = Raised _ _ _ |- _ =>
           destruct (Hload a b c) as (? & ? & ?); congruence
       end.
Qed.

Lemma live_worker_step s :
  live n top0 tops s → live n top0 tops (worker_step env s).
Proof using Hload Hcuda.
  intros (Hown & Htop & Hi & Hl & Hstarted & Hc).
  destruct (worker_step_frame env s) as (_ & Hc' & _ & _ & _ & Hi').
  destruct (worker_step_in_loop s Hi Hl Hstarted) as [Hl' Hstarted'].
  unfold live. rewrite Hc', Hi'. split_and!; try done.
  - by apply owned_worker_step.
  - by apply (top_inv_worker_step env n).
Qed.

(** The top blobs the consumer is about to set are there. *)
Lemma live_current s :
  live n top0 tops s → consumer s = C_top0 ∨ consumer s = C_top1 →
  ∃ cur b, prefetch_current_ s = Some cur ∧ prefetch_ s !! cur = Some b.
Proof using Type.
  intros (Hown & _) Hc.
  assert (is_Some (prefetch_current_ s)) as [cur Hcur].
  { destruct Hown as (_ & _ & _ & _ & H). by destruct Hc as [Hc|Hc];
      rewrite Hc in H. }
  destruct (owned_lookup n s cur Hown) as [b Hb].
  { unfold owners, current. rewrite Hcur, !elem_of_app.
    do 3 right. left. destruct Hc as [-> | ->]; by left. }
  by exists cur, b.
Qed.

Lemma live_top s i :
  live n top0 tops s → i = 0 ∨ (i = 1 ∧ output_labels_ s = true) →
  is_Some (top s !! i).
Proof using Htop0.
  intros (_ & (Hlab & Hlen & _) & _) Hi. apply lookup_lt_is_Some.
  rewrite Hlen. destruct top0 as [|t0 [|t1 rest]]; [done| |simpl; lia].
  destruct Hi as [-> | [-> Hl]]; simpl; [lia|].
  rewrite Hl in Hlab. done.
Qed.

Lemma live_step_top0 s :
  live n top0 tops s → consumer s = C_top0 →
  ∃ s', expose 0 data_field s = Some s'
    ∧ consumer_step s
      = if output_labels_ s' then set_consumer C_top1 s'
        else Forward_return s'.
Proof using Htop0.
  intros Hlive Hc.
  destruct (live_current s Hlive) as (cur & b & Hcur & Hb); [by left|].
  destruct (live_top s 0 Hlive) as [t Ht]; [by left|].
  eexists. split.
  - unfold expose. by rewrite Hcur, Ht, Hb.
  - unfold consumer_step, expose. by rewrite Hc, Hcur, Ht, Hb.
Qed.

Lemma live_step_top1 s :
  live n top0 tops s → consumer s = C_top1 →
  ∃ s', expose 1 label_field s = Some s'
    ∧ consumer_step s = Forward_return s'.
Proof using Htop0.
  intros Hlive Hc.
  destruct (live_current s Hlive) as (cur & b & Hcur & Hb); [by right|].
  destruct (live_top s 1 Hlive) as [t Ht].
  { right. split; [done|]. destruct Hlive as (_ & (_ & _ & _ & H) & _).
    rewrite Hc in H. by destruct H. }
  eexists. split.
  - unfold expose. by rewrite Hcur, Ht, Hb.
  - unfold consumer_step, expose. by rewrite Hc, Hcur, Ht, Hb.
Qed.

Lemma live_consumer_step s :
  live n top0 tops s → live n top0 tops (consumer_step s).
Proof using Htop0.
  intros Hlive. pose proof Hlive as (Hown & Htop & Hi & Hl & Hstarted & Hc).
  destruct (consumer_step_frame s)
    as (_ & _ & Hw' & _ & _ & _ & _ & Hi' & _).
  unfold live. rewrite Hw', Hi'. split_and!; try done.
  - by apply owned_consumer_step.
  - by apply top_inv_consumer_step.
  - destruct (consumer s) eqn:Hpc; try done.
    + unfold consumer_step. by rewrite Hpc.
    + unfold consumer_step. rewrite Hpc.
      destruct (prefetch_full_ s); simpl; [by rewrite Hpc|done].
    + destruct (live_step_top0 s Hlive Hpc) as (s' & _ & ->).
      by destruct (output_labels_ s').
    + by destruct (live_step_top1 s Hlive Hpc) as (s' & _ & ->).
Qed.

Lemma live_step s ev :
  ev ≠ ev_interrupt → live n top0 tops s → live n top0 tops (step env s ev).
Proof using Hload Hcuda Htop0.
  intros Hev Hlive. pose proof (live_not_aborted s Hlive) as Hab.
  destruct ev; [| |done].
  - rewrite step_worker by done. by apply live_worker_step.
  - rewrite step_consumer by done. by apply live_consumer_step.
Qed.

Lemma live_run s sched :
  ev_interrupt ∉ sched → live n top0 tops s →
  live n top0 tops (run env s sched).
Proof using Hload Hcuda Htop0.
  revert s. induction sched as [|ev sched IH]; intros s Hni Hlive; [done|].
  rewrite run_cons. apply not_elem_of_cons in Hni as [Hev Hni].
  apply IH; [done|]. by apply live_step.
Qed.

Lemma publish_distance_bound pc : publish_distance pc ≤ 8.
Proof using Type. destruct pc; simpl; lia. Qed.

Lemma delivery_distance_consumer s s' :
  consumer_distance (consumer s') < consumer_distance (consumer s) →
  delivery_distance s' < delivery_distance s.
Proof using Type.
  intros H. unfold delivery_distance.
  pose proof (publish_distance_bound (worker s')).
  destruct (prefetch_full_ s'), (prefetch_full_ s); lia.
Qed.

Hypothesis Hn : 0 < n.

(** While the consumer waits at the empty full queue, the free queue is not
    empty when the worker is about to pop it. *)
Lemma live_free s :
  live n top0 tops s → consumer s = C_pop → prefetch_full_ s = [] →
  worker s = W_pop → ∃ batch rest, prefetch_free_ s = batch :: rest.
Proof using Hn.
  intros ((_ & Hperm & Hab & _) & _ & _ & Hl & _) Hc Hf Hw.
  destruct Hab as [Hab|Hab]; [|congruence].
  unfold owners, filling, current in Hperm.
  rewrite Hc, Hf, Hw, Hab in Hperm. simpl in Hperm.
  rewrite app_nil_r in Hperm. apply Permutation_length in Hperm.
  rewrite length_seq in Hperm.
  destruct (prefetch_free_ s) as [|batch rest]; [simpl in Hperm; lia|].
  by exists batch, rest.
Qed.

(** In a state of the layer at work some action either completes a call of
    [Forward_cpu] or brings the completion closer. *)
Lemma delivery_step s :
  live n top0 tops s →
  ∃ ev, ev ≠ ev_interrupt
    ∧ (length (observed (step env s ev)) = S (length (observed s))
       ∨ (delivery_distance (step env s ev) < delivery_distance s
          ∧ observed (step env s ev) = observed s)).
Proof using Hload Hcuda Hn Htop0.
  intros Hlive. pose proof (live_not_aborted s Hlive) as Hab.
  pose proof Hlive as (Hown & Htop & Hi & Hl & Hstarted & Hc).
  destruct (consumer s) eqn:Hpc; try done.
  - (* the call *)
    exists ev_consumer. split; [done|]. right.
    rewrite step_consumer by done. unfold consumer_step. rewrite Hpc.
    split; [|by destruct (prefetch_current_ s)].
    apply delivery_distance_consumer. rewrite Hpc. simpl. lia.
  - (* the pop *)
    destruct (prefetch_full_ s) as [|batch rest] eqn:Hf.
    + exists ev_worker. split; [done|]. right.
      destruct (worker_step_frame env s) as (_ & Hc' & _ & Ho' & _).
      rewrite step_worker by done. split; [|done].
      unfold delivery_distance. rewrite worker_step_full, Hc', Hf.
      destruct (worker s) eqn:Hw; try done; simpl.
      * unfold worker_step, CUDA_CHECK. rewrite Hw, Hcuda.
        destruct (gpu_enabled env); simpl; lia.
      * unfold worker_step, must_stop. rewrite Hw, Hi. simpl. lia.
      * destruct (live_free s Hlive Hpc Hf Hw) as (b & rest & Hfree).
        unfold worker_step. rewrite Hw, Hfree. simpl. lia.
      * destruct (owned_filling n s batch batch Hown) as ([b Hb] & _).
        { apply filling_pc. auto. }
        destruct (Hload (src_ s) (output_labels_ s) b) as (src & b' & Hlb).
        unfold worker_step. rewrite Hw, Hb, Hlb.
        destruct (gpu_enabled env); simpl; lia.
      * unfold worker_step. rewrite Hw.
        destruct (output_labels_ s); simpl; lia.
      * unfold worker_step. rewrite Hw. simpl. lia.
      * unfold worker_step, CUDA_CHECK. rewrite Hw, Hcuda. simpl. lia.
      * lia.
    + exists ev_consumer. split; [done|]. right.
      rewrite step_consumer by done. unfold consumer_step. rewrite Hpc, Hf.
      simpl. split; [|done].
      apply delivery_distance_consumer. rewrite Hpc. simpl. lia.
  - (* top[0] *)
    exists ev_consumer. split; [done|]. rewrite step_consumer by done.
    destruct (live_step_top0 s Hlive Hpc) as (s' & He & ->).
    apply expose_Some in He as (cur & b & t & _ & _ & _ & ->).
    cbn [output_labels_ set_top].
    destruct (output_labels_ s).
    + right. split; [|done]. apply delivery_distance_consumer.
      rewrite Hpc. simpl. lia.
    + left. unfold Forward_return. simpl. rewrite length_app. simpl. lia.
  - (* top[1] *)
    exists ev_consumer. split; [done|]. rewrite step_consumer by done.
    destruct (live_step_top1 s Hlive Hpc) as (s' & He & ->).
    apply expose_Some in He as (cur & b & t & _ & _ & _ & ->).
    left. unfold Forward_return. simpl. rewrite length_app. simpl. lia.
Qed.

Lemma not_interrupt_cons ev sched :
  ev ≠ ev_interrupt → (ev_interrupt ∉ sched) → ev_interrupt ∉ ev :: sched.
Proof using Type.
  intros Hev Hni. apply not_elem_of_cons. split; [congruence|done].
Qed.

Lemma delivery_within m s :
  delivery_distance s ≤ m → live n top0 tops s →
  ∃ sched, (ev_interrupt ∉ sched)
    ∧ length (observed (run env s sched)) = S (length (observed s)).
Proof using Hload Hcuda Hn Htop0.
  revert s. induction m as [|m IH]; intros s Hm Hlive;
    destruct (delivery_step s Hlive) as (ev & Hev & [Hdone|[Hless Hobs]]).
  - exists [ev]. split; [|done].
    apply not_interrupt_cons; [done|apply not_elem_of_nil].
  - lia.
  - exists [ev]. split; [|done].
    apply not_interrupt_cons; [done|apply not_elem_of_nil].
  - destruct (IH (step env s ev)) as (sched & Hni & Hlen);
      [lia|by apply live_step|].
    exists (ev :: sched). split; [by apply not_interrupt_cons|].
    rewrite run_cons. congruence.
Qed.

Lemma deliveries s k :
  live n top0 tops s →
  ∃ sched, (ev_interrupt ∉ sched)
    ∧ length (observed (run env s sched)) = length (observed s) + k.
Proof using Hload Hcuda Hn Htop0.
  intros Hlive. induction k as [|k (sched & Hni & Hlen)].
  - exists []. split; [apply not_elem_of_nil|]. simpl. lia.
  - destruct (delivery_within _ (run env s sched) (le_n _))
      as (sched' & Hni' & Hlen'); [by apply live_run|].
    exists (sched ++ sched'). split.
    + rewrite elem_of_app. tauto.
    + rewrite run_app. lia.
Qed.

Lemma live_start param top_ :
  n = lp_prefetch param → top0 = top_ → tops = top (start env param top_) →
  live n top0 tops (start env param top_).
Proof using Type.
  clear. intros -> -> ->.
  destruct (start_queues env param top_)
    as (_ & _ & _ & _ & Hw & Hc & _).
  unfold live. rewrite Hw, Hc. split_and!; try done.
  - apply owned_start.
  - apply top_inv_start.
  - unfold start, LayerSetUp, DLOG_INFO. by destruct (NDEBUG env).
Qed.

End Delivery.

(** X8: the layer does not deadlock. When the fill step never raises and
    the device never fails, the prefetch depth is positive and there is a
    top blob, then in every state reached without a teardown the worker is
    still in its loop and [Forward_cpu] has not read a top blob that is not
    there; and from that state, for every [k], some continuation of the
    schedule completes [k] more calls of [Forward_cpu]. *)
Theorem prefetching_never_deadlocks {Src : Type} (env : Env Src)
    (param : LayerParameter) (top_ : list TopBlob) (sched0 : list Event)
    (k : nat) :
  never_raises env → never_fails env →
  0 < lp_prefetch param → top_ ≠ [] →
  ev_interrupt ∉ sched0 →
  left_loop (worker (run env (start env param top_) sched0)) = false
  ∧ consumer (run env (start env param top_) sched0) ≠ C_undefined
  ∧ ∃ sched,
      (ev_interrupt ∉ sched)
      ∧ length (observed (run env (start env param top_) (sched0 ++ sched)))
        = length (observed (run env (start env param top_) sched0)) + k.
Proof.
  intros Hload Hcuda Hn Htop Hni.
  pose proof (live_run env Hload Hcuda (lp_prefetch param) top_
                (top (start env param top_)) Htop _ sched0 Hni
                (live_start env _ _ _ param top_ eq_refl eq_refl eq_refl))
    as Hlive.
  split; [by destruct Hlive as (_ & _ & _ & ? & _)|].
  split; [by destruct Hlive as (_ & _ & _ & _ & _ & ?)|].
  destruct (deliveries env Hload Hcuda (lp_prefetch param) top_
              (top (start env param top_)) Htop Hn _ k Hlive)
    as (sched & Hni' & Hlen).
  exists sched. by rewrite run_app.
Qed.

(** One batch only, and a state in which the consumer waits for the worker,
    which is in the middle of an iteration. *)
Lemma prefetching_never_deadlocks_witness :
  let env := seq_env true true CPU (λ _, None) in
  let param := mkLayerParameter "data" "Data" 1 in
  let top_ := [mkTopBlob [] None] in
  let sched0 := [ev_consumer; ev_worker; ev_consumer; ev_worker; ev_worker] in
  (never_raises env ∧ never_fails env ∧ 0 < lp_prefetch param ∧ top_ ≠ []
   ∧ ev_interrupt ∉ sched0)
  ∧ consumer (run env (start env param top_) sched0) = C_pop
  ∧ prefetch_full_ (run env (start env param top_) sched0) = []
  ∧ ∃ sched,
      length (observed (run env (start env param top_) (sched0 ++ sched)))
      = 3.
Proof.
  intros env param top_ sched0.
  assert (never_raises env) as Hload by (intros src labels b; by eexists _, _).
  assert (never_fails env) as Hcuda by (by intros i).
  assert (0 < lp_prefetch param) as Hn by (simpl; lia).
  assert (top_ ≠ []) as Htop by discriminate.
  assert (ev_interrupt ∉ sched0) as Hni.
  { unfold sched0.
    repeat (apply not_elem_of_cons; split; [discriminate|]).
    apply not_elem_of_nil. }
  split; [by split_and!|]. split; [reflexivity|]. split; [reflexivity|].
  destruct (prefetching_never_deadlocks env param top_ sched0 3
              Hload Hcuda Hn Htop Hni) as (_ & _ & sched & _ & Hlen).
  exists sched. exact Hlen.
Defined.

(** ** The CPU build and the CPU mode *)

Section CpuMode.
Context {Src : Type}.
Variable env : Env Src.
Hypothesis Hcpu : gpu_enabled env = false.
Implicit Types (s : State Src) (sched : list Event).

Lemma cpu_worker_step s :
  cuda_calls s = 0 → stream s = [] →
  match worker s with
  | W_push_data _ | W_push_label _ | W_synchronize _ | W_aborted => False
  | _ => True
  end →
  cuda_calls (worker_step env s) = 0 ∧ stream (worker_step env s) = []
  ∧ match worker (worker_step env s) with
    | W_push_data _ | W_push_label _ | W_synchronize _ | W_aborted => False
    | _ => True
    end.
Proof using Hcpu.
  intros Hcalls Hstream Hpc. unfold worker_step, CUDA_CHECK, must_stop.
  destruct (worker s) eqn:Hw; try done; worker_cases env s; rewrite ?Hw;
    done.
Qed.

Lemma cpu_consumer_step s :
  cuda_calls (consumer_step s) = cuda_calls s.
Proof using Type.
  destruct_state s. unfold consumer_step, Forward_return. simpl.
  destruct cpc; simpl; case_step; by simpl.
Qed.

Lemma cpu_start param top_ : cuda_calls (start env param top_) = 0.
Proof using Type.
  unfold start, LayerSetUp, BaseDataLayer_LayerSetUp, DLOG_INFO,
    BasePrefetchingDataLayer.
  rewrite construct_batches. by destruct (NDEBUG env).
Qed.

Lemma cpu_run param top_ sched :
  cuda_calls (run env (start env param top_) sched) = 0
  ∧ stream (run env (start env param top_) sched) = []
  ∧ match worker (run env (start env param top_) sched) with
    | W_push_data _ | W_push_label _ | W_synchronize _ | W_aborted => False
    | _ => True
    end.
Proof using Hcpu.
  apply (run_invariant env
           (λ s, cuda_calls s = 0 ∧ stream s = []
                 ∧ match worker s with
                   | W_push_data _ | W_push_label _ | W_synchronize _
                   | W_aborted => False
                   | _ => True
                   end)).
  - destruct (start_queues env param top_)
      as (_ & _ & _ & _ & Hw & _ & _ & Hs & _).
    rewrite Hw, Hs, cpu_start. done.
  - intros s ev (Hcalls & Hstream & Hpc).
    assert (worker s ≠ W_aborted) as Hab by (intros E; by rewrite E in Hpc).
    destruct ev.
    + rewrite step_worker by done. by apply cpu_worker_step.
    + rewrite step_consumer by done.
      destruct (consumer_step_frame s) as (_ & _ & -> & -> & _).
      by rewrite cpu_consumer_step.
    + rewrite step_interrupt by done.
      destruct (interrupt_frame s) as [flag ->]. by destruct s.
Qed.

End CpuMode.

(** X9: in a build with [CPU_ONLY] or in CPU mode the prefetching layer
    never touches the device: in every state it can reach no call of the
    CUDA runtime has been made and no transfer has been started, the worker
    is never at one of the device statements of its loop, and no device
    check has aborted the process. *)
Theorem cpu_mode_never_touches_device {Src : Type} (env : Env Src)
    (param : LayerParameter) (top_ : list TopBlob) (sched : list Event) :
  gpu_enabled env = false →
  cuda_calls (run env (start env param top_) sched) = 0
  ∧ stream (run env (start env param top_) sched) = []
  ∧ worker (run env (start env param top_) sched) ≠ W_aborted
  ∧ ∀ batch,
      worker (run env (start env param top_) sched) ≠ W_push_data batch
      ∧ worker (run env (start env param top_) sched) ≠ W_push_label batch
      ∧ worker (run env (start env param top_) sched) ≠ W_synchronize batch.
Proof.
  intros Hcpu.
  destruct (cpu_run env Hcpu param top_ sched) as (Hcalls & Hstream & Hpc).
  split_and!; try done; try (intros E; by rewrite E in Hpc).
  intros batch. split_and!; intros E; by rewrite E in Hpc.
Qed.

(** A GPU build that runs in CPU mode, with a device that would fail. *)
Lemma cpu_mode_never_touches_device_witness :
  let env := seq_env false true CPU (λ _, Some "no device") in
  let param := mkLayerParameter "data" "Data" 2 in
  let top_ := [mkTopBlob [] None; mkTopBlob [] None] in
  let sched := repeat ev_worker 9 ++ [ev_interrupt; ev_worker; ev_worker] in
  gpu_enabled env = false
  ∧ cuda_calls (run env (start env param top_) sched) = 0
  ∧ worker (run env (start env param top_) sched) = W_returned.
Proof.
  intros env param top_ sched.
  assert (gpu_enabled env = false) as Hcpu by reflexivity.
  split; [exact Hcpu|]. split; [|reflexivity].
  exact (proj1 (cpu_mode_never_touches_device env param top_ sched Hcpu)).
Defined.

(** ** A layer without batches *)

Section DepthZero.
Context {Src : Type}.
Variable env : Env Src.
Implicit Types (s : State Src) (sched : list Event).




End DepthZero.



(** ** What the caller reads between two calls *)

Section Stable.
Context {Src : Type}.
Variable env : Env Src.
Implicit Types (s : State Src) (sched : list Event).

Lemma stable_step n s ev cur :
  owned n s → consumer s = C_idle → prefetch_current_ s = Some cur →
  ev ≠ ev_consumer →
  consumer (step env s ev) = C_idle
  ∧ prefetch_current_ (step env s ev) = Some cur
  ∧ top (step env s ev) = top s
  ∧ ∀ f, host_memory (step env s ev) (cur, f) = host_memory s (cur, f).
Proof.
  intros Hown Hc Hcur Hev. unfold step.
  destruct (worker s) eqn:Hw; try done; (destruct ev; [| done |]);
    try (destruct (interrupt_frame s) as [flag ->]; by destruct s).
  all: destruct (worker_step_frame env s) as (-> & -> & -> & _);
    split_and!; try done; intros f;
    destruct (owned_lookup n s cur Hown) as [b Hb];
    [unfold owners, current; rewrite Hc, Hcur, !elem_of_app;
     do 3 right; left; by left|];
    destruct (owned_current_same_host env n s cur b Hown) as (b' & Hb' & Hsame);
    [unfold current; rewrite Hc, Hcur; by left|done|];
    unfold host_memory; simpl; rewrite Hb, Hb';
    by destruct (Hsame f) as [_ ->].
Qed.

Lemma stable_run n s sched cur :
  owned n s → consumer s = C_idle → prefetch_current_ s = Some cur →
  (ev_consumer ∉ sched) →
  consumer (run env s sched) = C_idle
  ∧ prefetch_current_ (run env s sched) = Some cur
  ∧ top (run env s sched) = top s
  ∧ ∀ f, host_memory (run env s sched) (cur, f) = host_memory s (cur, f).
Proof.
  revert s. induction sched as [|ev sched IH]; intros s Hown Hc Hcur Hni;
    [done|].
  apply not_elem_of_cons in Hni as [Hev Hni].
  destruct (stable_step n s ev cur Hown Hc Hcur) as (Hc1 & Hcur1 & Ht1 & Hm1);
    [congruence|].
  destruct (IH (step env s ev) (owned_step env n s ev Hown) Hc1 Hcur1 Hni)
    as (Hc2 & Hcur2 & Ht2 & Hm2).
  rewrite run_cons. split_and!; try done; [congruence|].
  intros f. by rewrite Hm2.
Qed.

Lemma exposed_top_data s i f :
  exposed i f s →
  ∃ cur, prefetch_current_ s = Some cur
    ∧ top_data s i = Some (host_memory s (cur, f)).
Proof.
  intros (cur & b & Hcur & Hb & Ht). exists cur. split; [done|].
  unfold top_data. by rewrite Ht.
Qed.

End Stable.

(** X11: what the caller reads between two calls of [Forward_cpu] does not
    change under it. Once a call has returned, the worker and the teardown,
    however many actions they perform before the next call, leave the top
    blobs, the current batch and the host data that [top[0]] refers to as
    they were, and likewise the data of [top[1]] when labels are output:
    the worker never fills the batch the consumer holds. *)
Theorem exposed_data_is_stable {Src : Type} (env : Env Src)
    (param : LayerParameter) (top_ : list TopBlob)
    (sched0 sched : list Event) :
  consumer (run env (start env param top_) sched0) = C_idle →
  prefetch_current_ (run env (start env param top_) sched0) ≠ None →
  (ev_consumer ∉ sched) →
  consumer (run env (start env param top_) (sched0 ++ sched)) = C_idle
  ∧ top (run env (start env param top_) (sched0 ++ sched))
    = top (run env (start env param top_) sched0)
  ∧ prefetch_current_ (run env (start env param top_) (sched0 ++ sched))
    = prefetch_current_ (run env (start env param top_) sched0)
  ∧ is_Some (top_data (run env (start env param top_) sched0) 0)
  ∧ top_data (run env (start env param top_) (sched0 ++ sched)) 0
    = top_data (run env (start env param top_) sched0) 0
  ∧ (output_labels_ (run env (start env param top_) sched0) = true →
     is_Some (top_data (run env (start env param top_) sched0) 1)
     ∧ top_data (run env (start env param top_) (sched0 ++ sched)) 1
       = top_data (run env (start env param top_) sched0) 1).
Proof.
  intros Hc Hcur Hni. rewrite run_app.
  pose proof (owned_run env param top_ sched0) as Hown.
  destruct (top_inv_run env param top_ sched0) as (_ & _ & _ & Hpc).
  set (s0 := run env (start env param top_) sched0) in *.
  rewrite Hc in Hpc. destruct Hpc as [Hnone|[H0 H1]]; [done|].
  destruct (exposed_top_data s0 0 data_field H0) as (cur & Hcur0 & Hd0).
  destruct (stable_run env _ s0 sched cur Hown Hc Hcur0 Hni)
    as (Hc' & Hcur' & Htop & Hmem).
  assert (∀ i f, top_data s0 i = Some (host_memory s0 (cur, f)) →
                 exposed i f s0 →
                 top_data (run env s0 sched) i = top_data s0 i) as Hkeep.
  { intros i f Hd (cur1 & b & Hcur1 & _ & Ht). rewrite Hd.
    unfold top_data. rewrite Htop, Ht. simpl.
    assert (cur1 = cur) as -> by congruence. by rewrite Hmem. }
  split_and!; try done.
  - congruence.
  - by apply (Hkeep 0 data_field).
  - intros Hl.
    destruct (exposed_top_data s0 1 label_field (H1 Hl))
      as (cur1 & Hcur1 & Hd1).
    assert (cur1 = cur) as -> by congruence.
    split; [by rewrite Hd1|]. apply (Hkeep 1 label_field); auto.
Qed.

(** The consumer has the first of two batches; the worker fills the second
    one, finds the free queue empty and waits, and the teardown comes. *)
Lemma exposed_data_is_stable_witness :
  let env := seq_env true true CPU (λ _, None) in
  let param := mkLayerParameter "data" "Data" 2 in
  let top_ := [mkTopBlob [] None; mkTopBlob [] None] in
  let sched0 := repeat ev_worker 5 ++ repeat ev_consumer 4 in
  let sched := repeat ev_worker 6 ++ [ev_interrupt; ev_worker] in
  (consumer (run env (start env param top_) sched0) = C_idle
   ∧ prefetch_current_ (run env (start env param top_) sched0) ≠ None
   ∧ ev_consumer ∉ sched)
  ∧ top_data (run env (start env param top_) sched0) 0 = Some [0%Z]
  ∧ top_data (run env (start env param top_) (sched0 ++ sched)) 0
    = Some [0%Z]
  ∧ prefetch_full_ (run env (start env param top_) (sched0 ++ sched)) = [1].
Proof.
  intros env param top_ sched0 sched.
  assert (ev_consumer ∉ sched) as Hni.
  { unfold sched. simpl.
    repeat (apply not_elem_of_cons; split; [discriminate|]).
    apply not_elem_of_nil. }
  assert (consumer (run env (start env param top_) sched0) = C_idle)
    as Hc by reflexivity.
  assert (prefetch_current_ (run env (start env param top_) sched0) ≠ None)
    as Hcur by (vm_compute; discriminate).
  split; [split; [exact Hc|split; [exact Hcur|exact Hni]]|].
  split; [reflexivity|].
  destruct (exposed_data_is_stable env param top_ sched0 sched Hc Hcur Hni)
    as (_ & _ & _ & _ & Hkeep & _).
  split; [|reflexivity]. rewrite Hkeep. reflexivity.
Defined.

(** ** How far the worker runs ahead *)

Section RunAhead.
Variables (cpu_only ndebug : bool) (m : Brew) (cuda : nat → option string).
Let env := seq_env cpu_only ndebug m cuda.
Implicit Types (s : State nat).

Lemma fills_inv_worker_step s :
  fills_inv s → fills_inv (worker_step env s).
Proof.
  intros [Hsrc Hund].
  destruct (worker_step_frame env s) as (_ & Hc & Hcur & Hobs & _).
  unfold fills_inv, popped. rewrite Hc, Hcur, Hobs. split; [|done].
  unfold popped in Hsrc. rewrite worker_step_full.
  unfold worker_step, CUDA_CHECK, must_stop, async_gpu_push,
    cudaStreamSynchronize, LOG.
  destruct (worker s) eqn:Hw; worker_cases env s; rewrite ?Hw;
    simpl; rewrite ?length_app; simpl; try lia.
  all: simpl in *; unfold seq_load_batch in *; simplify_eq; simpl; lia.
Qed.

Lemma fills_inv_consumer_step n s :
  owned n s → fills_inv s → fills_inv (consumer_step s).
Proof.
  intros (_ & _ & _ & _ & Hsome) [Hsrc Hund].
  destruct (consumer_step_frame s)
    as (_ & _ & Hw & _ & Hsrc' & _ & Hab & _).
  unfold fills_inv, popped in *. rewrite Hw, Hsrc', Hab.
  unfold consumer_step, Forward_return.
  destruct (consumer s) eqn:Hc; simpl.
  - destruct (prefetch_current_ s); simpl; split; [lia|done| lia|done].
  - destruct (prefetch_full_ s) eqn:Hf; simpl; rewrite ?Hc, ?Hf;
      simpl in *; split; try done; lia.
  - destruct (expose 0 data_field s) as [s'|] eqn:E.
    + apply expose_Some in E as (cur & b & t & _ & _ & _ & ->). simpl.
      destruct (output_labels_ s); simpl; rewrite ?length_app; simpl;
        split; try done; lia.
    + simpl. split; [lia|done].
  - destruct (expose 1 label_field s) as [s'|] eqn:E.
    + apply expose_Some in E as (cur & b & t & _ & _ & _ & ->). simpl.
      rewrite ?length_app; simpl; split; try done; lia.
    + simpl. split; [lia|done].
  - rewrite Hc. split; [lia|done].
Qed.

Lemma fills_inv_run param top_ sched :
  fills_inv (run env (start env param top_) sched).
Proof.
  cut (owned (lp_prefetch param) (run env (start env param top_) sched)
       ∧ fills_inv (run env (start env param top_) sched)); [by intros []|].
  apply (run_invariant env (λ s, owned (lp_prefetch param) s ∧ fills_inv s)).
  - split; [apply owned_start|].
    destruct (start_queues env param top_)
      as (_ & Hfull & _ & _ & Hw & Hc & Hab & _ & Hobs).
    unfold fills_inv, popped. rewrite Hfull, Hw, Hc, Hab, Hobs.
    split; [|done].
    unfold start, LayerSetUp, BaseDataLayer_LayerSetUp, DLOG_INFO. simpl.
    by destruct ndebug.
  - intros s ev [Hown Hinv]. split; [by apply owned_step|].
    unfold step. destruct (worker s) eqn:Hw; try done; destruct ev;
      try (by apply fills_inv_worker_step);
      try (by apply (fills_inv_consumer_step (lp_prefetch param)));
      destruct (interrupt_frame s) as [flag ->]; by destruct s.
Qed.

End RunAhead.

(** X12: the worker runs ahead of the consumer by at most the prefetch
    depth. With the fill function that counts its calls, in every state the
    layer can reach the number of calls of [load_batch] that have returned
    is at least the number of returns of [Forward_cpu] and at most this
    number plus the prefetch depth. *)
Theorem prefetch_run_ahead_is_bounded (cpu_only ndebug : bool) (m : Brew)
    (cuda : nat → option string) (param : LayerParameter)
    (top_ : list TopBlob) (sched : list Event) :
  length (observed (run (seq_env cpu_only ndebug m cuda)
                      (start (seq_env cpu_only ndebug m cuda) param top_)
                      sched))
  ≤ src_ (run (seq_env cpu_only ndebug m cuda)
            (start (seq_env cpu_only ndebug m cuda) param top_) sched)
  ∧ src_ (run (seq_env cpu_only ndebug m cuda)
            (start (seq_env cpu_only ndebug m cuda) param top_) sched)
    ≤ length (observed (run (seq_env cpu_only ndebug m cuda)
                          (start (seq_env cpu_only ndebug m cuda) param top_)
                          sched))
      + lp_prefetch param.
Proof.
  set (env := seq_env cpu_only ndebug m cuda).
  destruct (fills_inv_run cpu_only ndebug m cuda param top_ sched)
    as [Hsrc Hund].
  pose proof (owned_run env param top_ sched) as Hown.
  pose proof (owned_total _ _ Hown) as Htotal.
  destruct Hown as (_ & _ & _ & _ & Hsome).
  fold env in Hsrc, Hund.
  set (s := run env (start env param top_) sched) in *.
  unfold popped in Hsrc. unfold in_circulation, filling, current in Htotal.
  split; [lia|].
  assert (match consumer s with
          | C_top0 | C_top1 | C_undefined => 1
          | _ => 0
          end
          ≤ length match consumer s with
                   | C_pop => []
                   | _ => option_list (prefetch_current_ s)
                   end) as Hcons.
  { destruct (consumer s); simpl; try lia.
    - destruct Hsome as [cur ->]. simpl. lia.
    - destruct Hsome as [cur ->]. simpl. lia.
    - destruct (Hund eq_refl) as [cur ->]. simpl. lia. }
  destruct (worker s); simpl in *; lia.
Qed.

(** ** The label on the device *)

Section LabelTransfers.
Context {Src : Type}.
Variable env : Env Src.
Implicit Types (s : State Src) (sched : list Event).

Lemma label_worker_step s :
  (∀ batch, worker s = W_push_label batch → output_labels_ s = true) →
  (∀ batch, (batch, label_field) ∈ stream s → output_labels_ s = true) →
  (∀ batch, worker (worker_step env s) = W_push_label batch →
            output_labels_ s = true)
  ∧ (∀ batch, (batch, label_field) ∈ stream (worker_step env s) →
              output_labels_ s = true).
Proof.
  intros Hpc Hstream.
  unfold worker_step, CUDA_CHECK, must_stop, async_gpu_push,
    cudaStreamSynchronize, LOG.
  destruct (worker s) eqn:Hw; worker_cases env s; rewrite ?Hw;
    (split; [try done|]); try done; simpl; intros b;
    rewrite ?elem_of_app, ?list_elem_of_singleton, ?elem_of_nil;
    try (intros [?|?]; simplify_eq; by eauto);
    try (intros ?; simplify_eq; by eauto).
Qed.

Lemma label_run param top_ sched :
  (∀ batch, worker (run env (start env param top_) sched)
            = W_push_label batch →
            output_labels_ (run env (start env param top_) sched) = true)
  ∧ (∀ batch, (batch, label_field)
              ∈ stream (run env (start env param top_) sched) →
              output_labels_ (run env (start env param top_) sched) = true).
Proof.
  apply (run_invariant env
           (λ s, (∀ batch, worker s = W_push_label batch →
                           output_labels_ s = true)
                 ∧ (∀ batch, (batch, label_field) ∈ stream s →
                             output_labels_ s = true))).
  - destruct (start_queues env param top_)
      as (_ & _ & _ & _ & Hw & _ & _ & Hs & _).
    rewrite Hw, Hs. split; [done|]. intros b []%elem_of_nil.
  - intros s ev [Hpc Hstream].
    assert (worker s = W_aborted ∨ worker s ≠ W_aborted) as [Hab|Hab]
      by (destruct (worker s); auto).
    { by rewrite step_aborted. }
    destruct ev.
    + rewrite step_worker by done.
      destruct (worker_step_frame env s) as (_ & _ & _ & _ & -> & _).
      by apply label_worker_step.
    + rewrite step_consumer by done.
      by destruct (consumer_step_frame s) as (_ & -> & -> & -> & _).
    + rewrite step_interrupt by done.
      destruct (interrupt_frame s) as [flag ->]. by destruct s.
Qed.

End LabelTransfers.

(** X13: a layer that is set up with one top blob outputs no labels, and it
    never transfers a label to the device: in every state it can reach the
    worker is not at the push of the label and no transfer of a label is
    pending on the stream. *)
Theorem label_is_not_transferred_without_labels {Src : Type} (env : Env Src)
    (param : LayerParameter) (top_ : list TopBlob) (sched : list Event) :
  length top_ = 1 →
  output_labels_ (run env (start env param top_) sched) = false
  ∧ ∀ batch,
      worker (run env (start env param top_) sched) ≠ W_push_label batch
      ∧ ((batch, label_field)
         ∉ stream (run env (start env param top_) sched)).
Proof.
  intros Hlen.
  destruct (top_inv_run env param top_ sched) as (Hlab & _).
  rewrite Hlen in Hlab. simpl in Hlab.
  destruct (label_run env param top_ sched) as [Hpc Hstream].
  split; [done|]. intros batch. split.
  - intros Hw. specialize (Hpc batch Hw). congruence.
  - intros Hin. specialize (Hstream batch Hin). congruence.
Qed.

(** GPU mode, one top blob: the worker is about to synchronise the stream,
    on which the transfer of the data is pending. *)
Lemma label_is_not_transferred_without_labels_witness :
  let env := seq_env false true GPU (λ _, None) in
  let param := mkLayerParameter "data" "Data" 1 in
  let top_ := [mkTopBlob [] None] in
  let sched := repeat ev_worker 5 in
  length top_ = 1
  ∧ worker (run env (start env param top_) sched) = W_synchronize 0
  ∧ stream (run env (start env param top_) sched) = [(0, data_field)]
  ∧ ((0, label_field) ∉ stream (run env (start env param top_) sched)).
Proof.
  intros env param top_ sched.
  assert (length top_ = 1) as Hlen by reflexivity.
  split; [exact Hlen|]. split; [reflexivity|]. split; [reflexivity|].
  exact (proj2 (proj2 (label_is_not_transferred_without_labels env param top_
                         sched Hlen) 0)).
Defined.
